(** * Recipon: the URL metadata enrichment pipeline of [app.py]

    A shallow embedding of the title / image / category pipeline of
    [src/app.py] and the properties stated about it.

    Python [str] values are sequences of Unicode code points, and [len]
    counts code points, so a string is a [list N] of code points here.
    The regular expressions of the source are kept as syntax trees and run
    by a backtracking matcher that follows the priority order of Python's
    [re] module (leftmost start, first alternative first, greedy before
    shorter, lazy before longer). *)

From Stdlib Require Import String Ascii NArith Bool Lia Arith PeanoNat List.
Import ListNotations.

Set Implicit Arguments.

(* ================================================================= *)
(** ** Strings as code point sequences *)

Definition char := N.
Definition str := list char.

Module Utf8.

(** Source literals are written as Rocq strings, whose bytes are the
    UTF-8 encoding of the text; [decode] turns bytes into code points as
    [bytes.decode("utf-8", errors="ignore")] does.  A byte that cannot
    start a sequence is dropped; a lead byte whose sequence breaks off is
    dropped together with the continuation bytes accepted so far, and
    decoding goes on at the byte that broke it; a sequence cut short by
    the end of the data is dropped.  Overlong forms, surrogates and code
    points above U+10FFFF are ill-formed: the second byte of a sequence
    is checked against the range its lead byte allows. *)

Definition is_cont (b : N) : bool := ((128 <=? b) && (b <? 192))%N.

(** The second byte after the lead byte of a three byte sequence: [E0]
    needs [A0..BF], [ED] needs [80..9F]. *)
Definition second3 (b0 b1 : N) : bool :=
  (is_cont b1 && negb ((b0 =? 224) && (b1 <? 160))
   && negb ((b0 =? 237) && (160 <=? b1)))%N.

(** The second byte after the lead byte of a four byte sequence: [F0]
    needs [90..BF], [F4] needs [80..8F]. *)
Definition second4 (b0 b1 : N) : bool :=
  (is_cont b1 && negb ((b0 =? 240) && (b1 <? 144))
   && negb ((b0 =? 244) && (144 <=? b1)))%N.

Fixpoint decode (bs : list Byte.byte) : str :=
  match bs with
  | [] => []
  | x0 :: r0 =>
    let b0 := Byte.to_N x0 in
    if (b0 <? 128)%N then b0 :: decode r0
    else if (b0 <? 194)%N then decode r0
    else if (b0 <? 224)%N then
      match r0 with
      | x1 :: r1 =>
        let b1 := Byte.to_N x1 in
        if is_cont b1 then ((b0 - 192) * 64 + (b1 - 128))%N :: decode r1
        else decode r0
      | [] => []
      end
    else if (b0 <? 240)%N then
      match r0 with
      | x1 :: r1 =>
        let b1 := Byte.to_N x1 in
        if second3 b0 b1 then
          match r1 with
          | x2 :: r2 =>
            let b2 := Byte.to_N x2 in
            if is_cont b2
            then ((b0 - 224) * 4096 + (b1 - 128) * 64 + (b2 - 128))%N
                 :: decode r2
            else decode r1
          | [] => []
          end
        else decode r0
      | [] => []
      end
    else if (b0 <? 245)%N then
      match r0 with
      | x1 :: r1 =>
        let b1 := Byte.to_N x1 in
        if second4 b0 b1 then
          match r1 with
          | x2 :: r2 =>
            let b2 := Byte.to_N x2 in
            if is_cont b2 then
              match r2 with
              | x3 :: r3 =>
                let b3 := Byte.to_N x3 in
                if is_cont b3
                then ((b0 - 240) * 262144 + (b1 - 128) * 4096
                      + (b2 - 128) * 64 + (b3 - 128))%N :: decode r3
                else decode r2
              | [] => []
              end
            else decode r1
          | [] => []
          end
        else decode r0
      | [] => []
      end
    else decode r0
  end.

End Utf8.

(** [e "..."] is the byte string holding the UTF-8 text ["..."], and
    [u "..."] is the Python string literal ["..."]. *)
Definition e (s : string) : list Byte.byte := list_byte_of_string s.
Definition u (s : string) : str := Utf8.decode (e s).

Definition str_eqb (a b : str) : bool :=
  if list_eq_dec N.eq_dec a b then true else false.

Definition mem (c : char) (cs : str) : bool := existsb (N.eqb c) cs.

(** [str.isspace] for one code point, which is also what [\s] matches in a
    [str] pattern. *)
Definition is_space (c : char) : bool :=
  ((9 <=? c) && (c <=? 13) || (28 <=? c) && (c <=? 32)
   || (c =? 133) || (c =? 160) || (c =? 5760)
   || (8192 <=? c) && (c <=? 8202)
   || (c =? 8232) || (c =? 8233) || (c =? 8239) || (c =? 8287)
   || (c =? 12288))%N.

Fixpoint lstrip_by (p : char -> bool) (s : str) : str :=
  match s with
  | c :: s' => if p c then lstrip_by p s' else s
  | [] => []
  end.

Definition rstrip_by (p : char -> bool) (s : str) : str :=
  rev (lstrip_by p (rev s)).

Definition strip_by (p : char -> bool) (s : str) : str :=
  rstrip_by p (lstrip_by p s).

(** [s.strip()] *)
Definition strip (s : str) : str := strip_by is_space s.

(** [s.strip(chars)] *)
Definition strip_chars (chars : str) (s : str) : str :=
  strip_by (fun c => mem c chars) s.

Fixpoint starts_with (w s : str) : bool :=
  match w, s with
  | [], _ => true
  | a :: w', b :: s' => (a =? b)%N && starts_with w' s'
  | _ :: _, [] => false
  end.

(** [w in s] for strings *)
Fixpoint str_in (w s : str) : bool :=
  starts_with w s || match s with [] => false | _ :: s' => str_in w s' end.

(** [s.replace(old, new)] for a one-character [old] *)
Definition replace_char (old : char) (new : str) (s : str) : str :=
  flat_map (fun c => if (c =? old)%N then new else [c]) s.

(** Python truthiness of a string and of an optional string *)
Definition truthy (s : str) : bool := match s with [] => false | _ => true end.
Definition or_empty (o : option str) : str :=
  match o with Some s => s | None => [] end.

(** [s.encode("utf-8")] does not raise: the string holds no surrogate
    code point (U+D800 to U+DFFF). *)
Definition encodable (s : str) : bool :=
  forallb (fun c => negb ((55296 <=? c) && (c <=? 57343))%N) s.

(* ================================================================= *)
(** ** Regular expressions, as [re] runs them *)

Module Re.

(** The fragment of the pattern language the source uses.  Every
    quantified item of the source is a single character or class, so
    [Rep] repeats a character predicate; [(?:x)?] is [Opt x]. *)
Inductive re : Type :=
| Eps
| Chr (p : char -> bool)
| Seq (a b : re)
| Alt (a b : re)
| Rep (greedy : bool) (lo : nat) (hi : option nat) (p : char -> bool)
| Grp (i : nat) (a : re)
| Bol
| Eol.

Definition Opt (a : re) : re := Alt a Eps.

Record cursor := Cursor {
  c_pos : nat;
  c_rest : str;
  c_caps : list (nat * str)
}.

Definition hi_ok (hi : option nat) : bool :=
  match hi with Some 0 => false | _ => true end.
Definition hi_dec (hi : option nat) : option nat :=
  match hi with Some n => Some (pred n) | None => None end.

Definition orelse {A} (x : option A) (y : option A) : option A :=
  match x with Some _ => x | None => y end.

Section Repeat.
Variable p : char -> bool.
Variable caps : list (nat * str).
Variable k : cursor -> option cursor.

Definition stop (lo pos : nat) (l : str) : option cursor :=
  if lo =? 0 then k (Cursor pos l caps) else None.

Fixpoint rep_greedy (lo : nat) (hi : option nat) (l : str) (pos : nat)
  : option cursor :=
  match l with
  | c :: l' =>
    if p c && hi_ok hi
    then match rep_greedy (pred lo) (hi_dec hi) l' (S pos) with
         | Some r => Some r
         | None => stop lo pos l
         end
    else stop lo pos l
  | [] => stop lo pos l
  end.

Fixpoint rep_lazy (lo : nat) (hi : option nat) (l : str) (pos : nat)
  : option cursor :=
  match stop lo pos l with
  | Some r => Some r
  | None =>
    match l with
    | c :: l' =>
      if p c && hi_ok hi
      then rep_lazy (pred lo) (hi_dec hi) l' (S pos)
      else None
    | [] => None
    end
  end.
End Repeat.

Definition set_cap (i : nat) (s : str) (c : cursor) : cursor :=
  Cursor (c_pos c) (c_rest c) ((i, s) :: c_caps c).

(** [m r cur k]: match [r] at [cur], then continue with [k]; the first
    success in priority order is the result. *)
Fixpoint m (r : re) (cur : cursor) (k : cursor -> option cursor)
  : option cursor :=
  match r with
  | Eps => k cur
  | Chr p =>
    match c_rest cur with
    | c :: l' =>
      if p c then k (Cursor (S (c_pos cur)) l' (c_caps cur)) else None
    | [] => None
    end
  | Seq a b => m a cur (fun c1 => m b c1 k)
  | Alt a b => orelse (m a cur k) (m b cur k)
  | Rep g lo hi p =>
    (if g then rep_greedy else rep_lazy) p (c_caps cur) k lo hi
      (c_rest cur) (c_pos cur)
  | Grp i a =>
    m a cur (fun c1 =>
      k (set_cap i (firstn (c_pos c1 - c_pos cur) (c_rest cur)) c1))
  | Bol => if c_pos cur =? 0 then k cur else None
  | Eol =>
    match c_rest cur with
    | [] => k cur
    | [c] => if (c =? 10)%N then k cur else None
    | _ => None
    end
  end.

Record rmatch := Match {
  m_start : nat;
  m_end : nat;
  m_caps : list (nat * str)
}.

Fixpoint assoc (i : nat) (l : list (nat * str)) : option str :=
  match l with
  | [] => None
  | (j, s) :: l' => if i =? j then Some s else assoc i l'
  end.

(** [mt.group(i)] *)
Definition group (i : nat) (mt : rmatch) : option str := assoc i (m_caps mt).

(** The final continuation: a match is refused when it is empty at the
    position where the previous match ended empty ([must_advance]). *)
Definition accept (must_advance : bool) (start : nat) (c : cursor)
  : option cursor :=
  if must_advance && (c_pos c =? start) then None else Some c.

Definition try_at (r : re) (must_advance : bool) (l : str) (pos : nat)
  : option rmatch :=
  match m r (Cursor pos l []) (accept must_advance pos) with
  | Some ce => Some (Match pos (c_pos ce) (c_caps ce))
  | None => None
  end.

(** [re.search] *)
Fixpoint search_from (r : re) (l : str) (pos : nat) : option rmatch :=
  match try_at r false l pos with
  | Some mt => Some mt
  | None =>
    match l with
    | [] => None
    | _ :: l' => search_from r l' (S pos)
    end
  end.

Definition search (r : re) (s : str) : option rmatch := search_from r s 0.

(** The subject cut into unmatched characters and successive
    non-overlapping matches, as [finditer], [sub] and [split] walk it. *)
Inductive seg : Type :=
| Text (c : char)
| Hit (mt : rmatch).

Fixpoint scan (r : re) (l : str) (pos : nat) (skip : nat) : list seg :=
  match skip with
  | S skip' =>
    match l with
    | [] => []
    | _ :: l' => scan r l' (S pos) skip'
    end
  | 0 =>
    let next (sk : nat) (emit : bool) :=
      match l with
      | [] => []
      | c :: l' => (if emit then [Text c] else []) ++ scan r l' (S pos) sk
      end in
    match try_at r false l pos with
    | None => next 0 true
    | Some mt =>
      if m_end mt =? pos
      then Hit mt ::
           match try_at r true l pos with
           | None => next 0 true
           | Some mt2 => Hit mt2 :: next (m_end mt2 - pos - 1) false
           end
      else Hit mt :: next (m_end mt - pos - 1) false
    end
  end.

Definition segments (r : re) (s : str) : list seg := scan r s 0 0.

(** [re.finditer] *)
Definition finditer (r : re) (s : str) : list rmatch :=
  flat_map (fun g => match g with Hit mt => [mt] | Text _ => [] end)
           (segments r s).

(** [re.sub(r, repl, s)] for a replacement without group references *)
Definition sub (r : re) (repl : str) (s : str) : str :=
  flat_map (fun g => match g with Hit _ => repl | Text c => [c] end)
           (segments r s).

(** [r.split(s)] for a pattern without capturing groups *)
Fixpoint split_segs (acc : str) (gs : list seg) : list str :=
  match gs with
  | [] => [rev acc]
  | Text c :: gs' => split_segs (c :: acc) gs'
  | Hit _ :: gs' => rev acc :: split_segs [] gs'
  end.

Definition split (r : re) (s : str) : list str :=
  split_segs [] (segments r s).

(** *** Pattern building blocks *)

Definition ch (c : char) : re := Chr (N.eqb c).
Definition any_of (cs : str) : re := Chr (fun c => mem c cs).
Definition none_of (cs : str) : re := Chr (fun c => negb (mem c cs)).

Fixpoint lit (w : str) : re :=
  match w with
  | [] => Eps
  | [c] => ch c
  | c :: w' => Seq (ch c) (lit w')
  end.

Fixpoint seqs (rs : list re) : re :=
  match rs with
  | [] => Eps
  | [r] => r
  | r :: rs' => Seq r (seqs rs')
  end.

Fixpoint alts (rs : list re) : re :=
  match rs with
  | [] => Eps
  | [r] => r
  | r :: rs' => Alt r (alts rs')
  end.

Definition star (p : char -> bool) : re := Rep true 0 None p.
Definition plus (p : char -> bool) : re := Rep true 1 None p.
Definition lazy_star (p : char -> bool) : re := Rep false 0 None p.

(** *** [re.IGNORECASE] on a [str] pattern

    A literal matches a character whose simple lower case is the
    literal's, or one of the extra equivalents the [re] compiler adds
    (dotless and dotted I for [i], long s for [s], the Kelvin sign for
    [k]). *)
Definition ascii_lower (c : char) : char :=
  if ((65 <=? c) && (c <=? 90))%N then (c + 32)%N else c.

Definition ci_eq (a c : char) : bool :=
  let a' := ascii_lower a in
  ((ascii_lower c =? a')
   || (a' =? 105) && ((c =? 304) || (c =? 305))
   || (a' =? 115) && (c =? 383)
   || (a' =? 107) && (c =? 8490))%N.

Definition chi (c : char) : re := Chr (ci_eq c).

Fixpoint liti (w : str) : re :=
  match w with
  | [] => Eps
  | [c] => chi c
  | c :: w' => Seq (chi c) (liti w')
  end.

End Re.

Import Re.

(** The first character of a one-character literal. *)
Definition c1 (s : string) : char := hd 0%N (u s).

(* ================================================================= *)
(** ** Dish name extraction helpers *)

Definition _NOISE_WORDS : list str :=
  [ u "レシピ"; u "作り方"; u "簡単"; u "人気"; u "おすすめ"; u "献立";
    u "材料"; u "手順"; u "動画"; u "プロの"; u "定番"; u "料理";
    u "キッチン" ].

Definition non_space (c : char) : bool := negb (is_space c).

(** [\s*(?:[｜|]|[-–—]|:|：|／|/)\s*] *)
Definition _SPLIT_SEP_RE : re :=
  seqs [ star is_space;
         alts [ any_of (u "｜|"); any_of (u "-–—"); ch (c1 ":");
                ch (c1 "："); ch (c1 "／"); ch (c1 "/") ];
         star is_space ].

(** [\s*(?:by\s+\S+|By\s+\S+|【[^】]{1,40}】|\([^)]{1,40}\)|（[^）]{1,40}）)\s*$] *)
Definition _TAIL_RE : re :=
  seqs [ star is_space;
         alts [ seqs [ lit (u "by"); plus is_space; plus non_space ];
                seqs [ lit (u "By"); plus is_space; plus non_space ];
                seqs [ ch (c1 "【"); Rep true 1 (Some 40) (fun c => negb (c =? c1 "】")%N);
                       ch (c1 "】") ];
                seqs [ ch (c1 "("); Rep true 1 (Some 40) (fun c => negb (c =? c1 ")")%N);
                       ch (c1 ")") ];
                seqs [ ch (c1 "（"); Rep true 1 (Some 40) (fun c => negb (c =? c1 "）")%N);
                       ch (c1 "）") ] ];
         star is_space;
         Eol ].

(** [for _ in range(n): ns = _TAIL_RE.sub('', s).strip();
    if ns == s: break; s = ns] *)
Fixpoint tail_loop (n : nat) (s : str) : str :=
  match n with
  | 0 => s
  | S n' =>
    let ns := strip (sub _TAIL_RE [] s) in
    if str_eqb ns s then s else tail_loop n' ns
  end.

(** [^w[:：]?\s*] *)
Definition head_marker (w : str) : re :=
  seqs [ Bol; lit w; Opt (any_of (u ":：")); star is_space ].

(** One round of the noise word loop: [^w\s*] then [\s*w$]. *)
Definition strip_noise (s : str) (w : str) : str :=
  let s := strip (sub (seqs [ Bol; lit w; star is_space ]) [] s) in
  strip (sub (seqs [ star is_space; lit w; Eol ]) [] s).

(** [\s+(さん|ちゃん|くん|氏)$] *)
Definition honorific_re : re :=
  seqs [ plus is_space;
         Grp 1 (alts [ lit (u "さん"); lit (u "ちゃん"); lit (u "くん"); lit (u "氏") ]);
         Eol ].

(** [if lo <= len(s) <= hi: return s] followed by [return None] *)
Definition checked (lo hi : nat) (s : str) : option str :=
  if (lo <=? length s) && (length s <=? hi) then Some s else None.

(** Lines 226-251 of [clean_dish_title]: the affix removals, applied to
    the white space normalized title. *)
Definition strip_affixes (s : str) : str :=
  let s := strip (hd [] (split _SPLIT_SEP_RE s)) in
  let s := tail_loop 2 s in
  let s := strip (sub (seqs [ lit (u "レシピ"); Eol ]) [] s) in
  let s := strip (sub (head_marker (u "レシピ")) [] s) in
  let s := strip (sub (seqs [ lit (u "作り方"); Eol ]) [] s) in
  let s := strip (sub (head_marker (u "作り方")) [] s) in
  let s := fold_left strip_noise _NOISE_WORDS s in
  let s := strip (sub honorific_re [] s) in
  strip (strip_chars (u " -–—|｜:：/／") s).

Definition clean_dish_title (raw : str) : option str :=
  if negb (truthy raw) then None else
  let s := strip (sub (plus is_space) (u " ") raw) in
  if negb (truthy s) then None else
  checked 2 60 (strip_affixes s).

(* ================================================================= *)
(** ** Exceptions and the outside world *)

(** A Python call either returns a value or raises an [Exception]. *)
Inductive outcome (A : Type) : Type :=
| Returns (a : A)
| Raises.
Arguments Returns {A} a.
Arguments Raises {A}.

Module Exn.
Definition bind {A B} (x : outcome A) (f : A -> outcome B) : outcome B :=
  match x with Returns a => f a | Raises => Raises end.

(** [try: x  except Exception: h] *)
Definition catch {A} (x : outcome A) (h : A) : A :=
  match x with Returns a => a | Raises => h end.
End Exn.

Declare Scope exn_scope.
Delimit Scope exn_scope with exn.
Notation "x <- a ;; b" := (Exn.bind a (fun x => b))
  (at level 61, a at next level, right associativity) : exn_scope.

(** What [json.loads] builds.  A number keeps its source text; an object
    holds the items of the resulting [dict]. *)
#[warnings="-register-all"]
Inductive json : Type :=
| JNull
| JBool (b : bool)
| JNumber (text : str)
| JString (s : str)
| JArray (l : list json)
| JObject (items : list (str * json)).

(** [d.get(k)] *)
Fixpoint dict_get (k : str) (items : list (str * json)) : option json :=
  match items with
  | [] => None
  | (k', v) :: items' => if str_eqb k k' then Some v else dict_get k items'
  end.

(** The five classification properties of an [ipaddress] object that the
    validator reads. *)
Record ip_flags := IpFlags {
  is_private : bool;
  is_loopback : bool;
  is_link_local : bool;
  is_reserved : bool;
  is_multicast : bool
}.

(** An opened HTTP response: its [Content-Type] header, if any, and the
    body the server sends (reading it may fail). *)
Record response := Response {
  content_type : option str;
  payload : outcome (list Byte.byte)
}.

(** [res.read(n)]: at most [n] bytes of the body. *)
Definition read (n : N) (res : response) : outcome (list Byte.byte) :=
  match payload res with
  | Returns b => Returns (firstn (N.to_nat n) b)
  | Raises => Raises
  end.

(** The library and network calls of the source.  The pipeline is stated
    for every world. *)
Record World := {
  (** [s.lower()] *)
  str_lower : str -> str;
  (** [urlparse(url)], as its [scheme] and [hostname] *)
  urlparse : str -> outcome (str * option str);
  (** [socket.gethostbyname(host)] *)
  gethostbyname : str -> outcome str;
  (** [ipaddress.ip_address(ip)] *)
  ip_address : str -> outcome ip_flags;
  (** [urllib.request.urlopen(Request(url, headers), timeout=3)]; an
      error status, a timeout and a network error raise *)
  urlopen : str -> outcome response;
  (** [raw.decode("utf-8", errors="ignore")] *)
  decode_utf8_ignore : list Byte.byte -> str;
  (** [json.loads(blob)] *)
  json_loads : str -> outcome json;
  (** [urljoin(base, ref)] *)
  urljoin : str -> str -> outcome str
}.

(* ================================================================= *)
(** ** Categories *)

Record category := Category { key : str; emoji : str }.

Definition CATEGORIES : list category :=
  [ Category (u "ごはん・丼") (u "🍚");
    Category (u "パスタ") (u "🍝");
    Category (u "麺") (u "🍜");
    Category (u "パン") (u "🍞");
    Category (u "お肉") (u "🍖");
    Category (u "お魚") (u "🐟");
    Category (u "卵・豆") (u "🥚");
    Category (u "おかず") (u "🥗");
    Category (u "サラダ") (u "🥬");
    Category (u "スープ") (u "🍲");
    Category (u "朝ごはん") (u "🌅");
    Category (u "お弁当") (u "🍱");
    Category (u "作り置き") (u "🧊");
    Category (u "おつまみ") (u "🍺");
    Category (u "スイーツ") (u "🍰");
    Category (u "おやつ") (u "🍪");
    Category (u "鍋") (u "🫕");
    Category (u "ドリンク") (u "☕");
    Category (u "その他") (u "✨") ].

(** [{c["key"] for c in CATEGORIES}], with [in_keys] its membership test *)
Definition CATEGORY_KEYS : list str := map key CATEGORIES.
Definition in_keys (cat : str) : bool := existsb (str_eqb cat) CATEGORY_KEYS.

Definition DEFAULT_CATEGORY : str := u "おかず".

Definition normalize_spaces (s : str) : str :=
  strip (replace_char (c1 "　") (u " ") s).

Definition normalize_category (cat : str) : str :=
  let cat := normalize_spaces cat in
  if in_keys cat then cat else u "その他".

(** [any(k in t for k in ks)] *)
Definition any_in (ks : list str) (t : str) : bool :=
  existsb (fun k => str_in k t) ks.

Definition guess_category_from_text (W : World) (text : str) : str :=
  let t := str_lower W text in
  if any_in [u "パスタ"; u "スパゲ"; u "カルボナーラ"; u "ボロネーゼ"; u "ペペロン"] t
  then u "パスタ" else
  if any_in [u "うどん"; u "そば"; u "ラーメン"; u "そうめん"; u "焼きそば"; u "麺"] t
  then u "麺" else
  if any_in [u "丼"; u "チャーハン"; u "炊き込み"; u "おにぎり"; u "カレー"; u "リゾット"] t
  then u "ごはん・丼" else
  if any_in [u "パン"; u "トースト"; u "サンド"; u "ホットサンド"] t
  then u "パン" else
  if any_in [u "ケーキ"; u "プリン"; u "パフェ"; u "タルト"; u "アイス"; u "ブラウニー"; u "クレープ"] t
  then u "スイーツ" else
  if any_in [u "クッキー"; u "ドーナツ"; u "マフィン"; u "スコーン"; u "おやつ"] t
  then u "おやつ" else
  if any_in [u "スープ"; u "味噌汁"; u "みそ汁"; u "ポタージュ"; u "シチュー"] t
  then u "スープ" else
  if any_in [u "鍋"; u "しゃぶ"; u "すき焼"; u "キムチ鍋"; u "もつ鍋"] t
  then u "鍋" else
  if str_in (u "サラダ") t
  then u "サラダ" else
  if any_in [u "弁当"; u "お弁当"] t
  then u "お弁当" else
  if any_in [u "作り置き"; u "つくりおき"; u "常備菜"] t
  then u "作り置き" else
  if any_in [u "朝"; u "モーニング"; u "朝ごはん"] t
  then u "朝ごはん" else
  if any_in [u "つまみ"; u "おつまみ"] t
  then u "おつまみ" else
  if any_in [u "鶏"; u "豚"; u "牛"; u "ひき肉"; u "から揚げ"; u "唐揚げ"; u "ハンバーグ"; u "生姜焼"] t
  then u "お肉" else
  if any_in [u "鮭"; u "さけ"; u "サーモン"; u "鯖"; u "さば"; u "ぶり"; u "鯛"; u "あじ"; u "いわし"] t
  then u "お魚" else
  if any_in [u "卵"; u "たまご"; u "豆腐"; u "納豆"; u "大豆"; u "厚揚げ"] t
  then u "卵・豆" else
  DEFAULT_CATEGORY.

(* ================================================================= *)
(** ** SSRF-ish safety *)

Definition _is_safe_public_http_url (W : World) (url : str) : bool :=
  Exn.catch
    (p <- urlparse W url ;;
     let (scheme, hostname) := p in
     if negb (str_eqb scheme (u "http") || str_eqb scheme (u "https"))
     then Returns false else
     match hostname with
     | None => Returns false
     | Some host =>
       if negb (truthy host) then Returns false else
       if str_eqb host (u "localhost") then Returns false else
       ip <- gethostbyname W host ;;
       ip_obj <- ip_address W ip ;;
       if is_private ip_obj || is_loopback ip_obj || is_link_local ip_obj
          || is_reserved ip_obj || is_multicast ip_obj
       then Returns false
       else Returns true
     end)%exn
    false.

(* ================================================================= *)
(** ** Markup patterns (all compiled with [re.IGNORECASE]) *)

Definition quote : re := any_of [34; 39]%N.
Definition not_quote (c : char) : bool := negb (mem c [34; 39]%N).
Definition not_gt (c : char) : bool := negb (c =? 62)%N.
Definition dot_all (c : char) : bool := true.

(** [<meta[^>]+ATTR=Q KEY Q[^>]+content=Q([^Q]+)Q], where [Q] stands for
    the class of the two quote characters *)
Definition meta_key_first (attr : str) (key_re : re) : re :=
  seqs [ liti (u "<meta"); plus not_gt; liti attr; chi (c1 "="); quote;
         key_re; quote; plus not_gt; liti (u "content="); quote;
         Grp 1 (plus not_quote); quote ].

(** [<meta[^>]+content=Q([^Q]+)Q[^>]+ATTR=Q KEY Q] *)
Definition meta_content_first (attr : str) (key_re : re) : re :=
  seqs [ liti (u "<meta"); plus not_gt; liti (u "content="); quote;
         Grp 1 (plus not_quote); quote; plus not_gt; liti attr;
         chi (c1 "="); quote; key_re; quote ].

(** [twitter:image(?::src)?] *)
Definition twitter_image_key : re :=
  Seq (liti (u "twitter:image")) (Opt (liti (u ":src"))).

(** [<script[^>]+type=Q application/ld\+json Q[^>]*>(.*?)</script>],
    with [re.DOTALL] *)
Definition jsonld_script_re : re :=
  seqs [ liti (u "<script"); plus not_gt; liti (u "type="); quote;
         liti (u "application/ld+json"); quote; star not_gt; chi (c1 ">");
         Grp 1 (lazy_star dot_all); liti (u "</script>") ].

(** [<title[^>]*>(.*?)</title>], with [re.DOTALL] *)
Definition title_re : re :=
  seqs [ liti (u "<title"); star not_gt; chi (c1 ">");
         Grp 1 (lazy_star dot_all); liti (u "</title>") ].

(** [m = re.search(a, html); if not m: m = re.search(b, html)] *)
Definition search2 (a b : re) (html : str) : option rmatch :=
  match search a html with
  | Some mt => Some mt
  | None => search b html
  end.

(** [m.group(1)], or the empty string *)
Definition group1 (mt : rmatch) : str := or_empty (group 1 mt).

(* ================================================================= *)
(** ** Structured data: the name of a JSON-LD Recipe *)

Definition is_dict (x : json) : bool :=
  match x with JObject _ => true | _ => false end.

Definition dicts (l : list json) : list (list (str * json)) :=
  flat_map (fun x => match x with JObject items => [items] | _ => [] end) l.

(** The candidate objects of one parsed block. *)
Definition candidates (data : json) : list (list (str * json)) :=
  match data with
  | JObject items =>
    items ::
    match dict_get (u "@graph") items with
    | Some (JArray g) => dicts g
    | _ => []
    end
  | JArray l => dicts l
  | _ => []
  end.

(** [types = t if isinstance(t, list) else [t]] for [t = obj.get("@type")] *)
Definition types_of (obj : list (str * json)) : list json :=
  match dict_get (u "@type") obj with
  | Some (JArray l) => l
  | Some t => [t]
  | None => [JNull]
  end.

Definition is_recipe_type (x : json) : bool :=
  match x with JString s => str_eqb s (u "Recipe") | _ => false end.

(** One turn of [for obj in candidates]: the name to return, if any. *)
Definition recipe_name_of (obj : list (str * json)) : option str :=
  if existsb is_recipe_type (types_of obj) then
    match dict_get (u "name") obj with
    | Some (JString name) =>
      if truthy (strip name) then Some (strip name) else None
    | _ => None
    end
  else None.

Fixpoint first_name (objs : list (list (str * json))) : option str :=
  match objs with
  | [] => None
  | obj :: objs' =>
    match recipe_name_of obj with
    | Some n => Some n
    | None => first_name objs'
    end
  end.

(** The body of [for m in re.finditer(...)] for one block. *)
Definition block_name (W : World) (mt : rmatch) : option str :=
  let blob := strip (group1 mt) in
  if negb (truthy blob) then None else
  match json_loads W blob with
  | Raises => None
  | Returns data => first_name (candidates data)
  end.

Fixpoint first_block (W : World) (ms : list rmatch) : option str :=
  match ms with
  | [] => None
  | mt :: ms' =>
    match block_name W mt with
    | Some n => Some n
    | None => first_block W ms'
    end
  end.

Definition extract_recipe_name_from_jsonld (W : World) (html : str)
  : option str :=
  first_block W (finditer jsonld_script_re html).

(* ================================================================= *)
(** ** Meta tags: og:title, twitter:title, <title> *)

Definition title_element (html : str) : option str :=
  match search title_re html with
  | Some mt =>
    let t := sub (plus is_space) (u " ") (strip (group1 mt)) in
    if truthy t then Some t else None
  | None => None
  end.

Definition extract_og_or_title (html : str) : option str :=
  let m0 := search2 (meta_key_first (u "property") (liti (u "og:title")))
                    (meta_content_first (u "property") (liti (u "og:title")))
                    html in
  let m1 :=
    match m0 with
    | Some _ => m0
    | None => search2 (meta_key_first (u "name") (liti (u "twitter:title")))
                      (meta_content_first (u "name") (liti (u "twitter:title")))
                      html
    end in
  match m1 with
  | Some mt =>
    let t := strip (group1 mt) in
    if truthy t then Some t else title_element html
  | None => title_element html
  end.

(* ================================================================= *)
(** ** Dish name (JSON-LD -> og:title -> <title>) *)

(** Steps 1 and 2 of [get_og_title]: the raw title. *)
Definition raw_title (W : World) (html : str) : option str :=
  match extract_recipe_name_from_jsonld W html with
  | Some t => if truthy t then Some t else extract_og_or_title html
  | None => extract_og_or_title html
  end.

(** Step 3 and the fallback, on the raw title. *)
Definition finish_title (title : option str) : option str :=
  match clean_dish_title (or_empty title) with
  | Some cleaned =>
    if truthy cleaned then Some cleaned
    else checked 2 80 (strip (or_empty title))
  | None => checked 2 80 (strip (or_empty title))
  end.

(** What [get_og_title] makes of the decoded page. *)
Definition title_of_html (W : World) (html : str) : option str :=
  finish_title (raw_title W html).

(* ================================================================= *)
(** ** OGP image *)

Definition image_match (html : str) : option rmatch :=
  match search2 (meta_key_first (u "property") (liti (u "og:image")))
                (meta_content_first (u "property") (liti (u "og:image")))
                html with
  | Some mt => Some mt
  | None => search2 (meta_key_first (u "name") twitter_image_key)
                    (meta_content_first (u "name") twitter_image_key)
                    html
  end.

(** What [get_og_image] makes of the decoded page; [urljoin] may raise. *)
Definition image_of_html (W : World) (page_url html : str)
  : outcome (option str) :=
  match image_match html with
  | None => Returns None
  | Some mt =>
    let img := strip (group1 mt) in
    if negb (truthy img) then Returns None else
    (img <- urljoin W page_url img ;;
     if negb (starts_with (u "http://") img || starts_with (u "https://") img)
     then Returns None
     else Returns (Some img))%exn
  end.

(* ================================================================= *)
(** ** Fetching: exceptions plus the log of pages requested *)

(** A computation that may raise and that appends the URLs it opens to a
    log. *)
Definition M (A : Type) : Type := list str -> outcome A * list str.

Module Fetch.
Definition ret {A} (a : A) : M A := fun log => (Returns a, log).

Definition bind {A B} (x : M A) (f : A -> M B) : M B :=
  fun log =>
    match x log with
    | (Returns a, log') => f a log'
    | (Raises, log') => (Raises, log')
    end.

Definition lift {A} (o : outcome A) : M A := fun log => (o, log).

(** [try: x  except Exception: return h] *)
Definition catch {A} (x : M A) (h : A) : M A :=
  fun log =>
    match x log with
    | (Returns a, log') => (Returns a, log')
    | (Raises, log') => (Returns h, log')
    end.

(** The one network request of a lookup. *)
Definition open (W : World) (url : str) : M response :=
  fun log => (urlopen W url, log ++ [url]).
End Fetch.

Declare Scope fetch_scope.
Delimit Scope fetch_scope with fetch.
Notation "x <- a ;; b" := (Fetch.bind a (fun x => b))
  (at level 61, a at next level, right associativity) : fetch_scope.

(** The function under [@lru_cache(maxsize=512)], lines 141-201. *)
Definition get_og_image (W : World) (page_url : str) : M (option str) :=
  if negb (truthy page_url) then Fetch.ret None else
  let page_url := strip page_url in
  if negb (_is_safe_public_http_url W page_url) then Fetch.ret None else
  Fetch.catch
    (res <- Fetch.open W page_url ;;
     let ctype := str_lower W (or_empty (content_type res)) in
     if negb (str_in (u "text/html") ctype) then Fetch.ret None else
     raw <- Fetch.lift (read 220000 res) ;;
     let html := decode_utf8_ignore W raw in
     Fetch.lift (image_of_html W page_url html))%fetch
    None.

(** The function under [@lru_cache(maxsize=512)], lines 340-381. *)
Definition get_og_title (W : World) (page_url : str) : M (option str) :=
  if negb (truthy page_url) then Fetch.ret None else
  let page_url := strip page_url in
  if negb (_is_safe_public_http_url W page_url) then Fetch.ret None else
  Fetch.catch
    (res <- Fetch.open W page_url ;;
     let ctype := str_lower W (or_empty (content_type res)) in
     if negb (str_in (u "text/html") ctype) then Fetch.ret None else
     raw <- Fetch.lift (read 240000 res) ;;
     let html := decode_utf8_ignore W raw in
     Fetch.ret (title_of_html W html))%fetch
    None.

(** [/meta]: the suggested category for a looked-up title. *)
Definition suggested_category (W : World) (title : option str) : str :=
  guess_category_from_text W (or_empty title).

(* ================================================================= *)
(** ** The memoizing decorator *)

Module Lru.

Section Cache.
Variable V : Type.

(** Modelled from the spec: the store of [functools.lru_cache], the
    decorator of the Python standard library that wraps both lookups and
    is not part of the repository.  The (key, result) pairs are kept least
    recently used first, as the decorator's linked list orders them. *)
Definition cache := list (str * V).

(** The stored result for the key, if any. *)
Fixpoint lookup (k : str) (c : cache) : option V :=
  match c with
  | [] => None
  | (k', v) :: c' => if str_eqb k k' then Some v else lookup k c'
  end.

(** The cache without the entry of the key. *)
Fixpoint remove (k : str) (c : cache) : cache :=
  match c with
  | [] => []
  | (k', v) :: c' =>
    if str_eqb k k' then c' else (k', v) :: remove k c'
  end.

(** A new entry at the recent end; a full cache first drops its oldest
    entry. *)
Definition insert (maxsize : nat) (k : str) (v : V) (c : cache) : cache :=
  (if maxsize <=? length c then tl c else c) ++ [(k, v)].

(** Modelled from the spec: one call of a function decorated with
    [functools.lru_cache(maxsize)].  A hit returns the stored result and
    moves its entry to the recent end; a miss runs the function and
    stores its result at the recent end, evicting the least recently used
    entry of a full cache; a call that raises stores nothing. *)
Definition call (maxsize : nat) (f : str -> M V) (k : str) (c : cache)
  : M (V * cache) :=
  match lookup k c with
  | Some v => Fetch.ret (v, remove k c ++ [(k, v)])
  | None =>
    (v <- f k ;; Fetch.ret (v, insert maxsize k v c))%fetch
  end.

End Cache.

End Lru.

(** The two decorated lookups, each with a cache of its own. *)
Record caches := Caches {
  title_cache : Lru.cache (option str);
  image_cache : Lru.cache (option str)
}.

(** [maxsize=512] of both decorators *)
Definition maxsize : nat := 512.

(** [get_og_title] and [get_og_image] as their callers see them. *)
Definition cached_title (W : World) (url : str) (cs : caches)
  : M (option str * caches) :=
  (r <- Lru.call maxsize (get_og_title W) url (title_cache cs) ;;
   Fetch.ret (fst r, Caches (snd r) (image_cache cs)))%fetch.


(* ================================================================= *)
(** * Utilities and request handlers *)

(** ** Utils *)

(** [h]: the five replacements of lines 84-89, in the order of the
    source; code point 34 is the double quote. *)
Definition h (s : str) : str :=
  replace_char (c1 "'") (u "&#39;")
    (replace_char 34%N (u "&quot;")
       (replace_char (c1 ">") (u "&gt;")
          (replace_char (c1 "<") (u "&lt;")
             (replace_char (c1 "&") (u "&amp;") s)))).

(* ================================================================= *)
(** ** The category filter and prefill of [index] *)

(** Lines 456-458: the category the list is filtered by, if any. *)
Definition filter_category (category : option str) : option str :=
  let fc :=
    if truthy (or_empty category)
    then Some (normalize_category (or_empty category))
    else None in
  if truthy (or_empty category)
     && match fc with Some c => str_eqb c (u "その他") | None => false end
     && negb (in_keys (or_empty category))
  then None
  else fc.

(** Lines 475-477: the category preselected in the entry sheet. *)
Definition prefill_category (prefill : option str) : str :=
  let pc := normalize_category (or_empty prefill) in
  if negb (truthy pc) || str_eqb pc (u "その他") then DEFAULT_CATEGORY else pc.

(* ================================================================= *)
(** ** [/meta]: title and category suggestion *)

(** [JSONResponse({"title": title, "category": category})]: the body is
    rendered with [json.dumps(..., ensure_ascii=False).encode("utf-8")],
    which raises [UnicodeEncodeError] on a string that holds a lone
    surrogate. *)
Definition JSONResponse (title : option str) (category : str)
  : outcome (option str * str) :=
  if encodable (or_empty title) && encodable category
  then Returns (title, category)
  else Raises.

(** [meta]: the answer, or the exception of its rendering, and the caches
    after the lookup, which both outcomes leave behind. *)
Definition meta (W : World) (url : str) (cs : caches)
  : M (outcome (option str * str) * caches) :=
  (r <- cached_title W url cs ;;
   let title := fst r in
   let suggested := guess_category_from_text W (or_empty title) in
   Fetch.ret (JSONResponse title suggested, snd r))%fetch.

(* ================================================================= *)
(** ** The table of links and the handlers that write it

    The database is SQLite behind SQLAlchemy, seen here as the list of
    its rows and written by one handler at a time.  The statements that
    reach it bind their parameters, which is where text that cannot be
    encoded and integers beyond 64 bits raise; of these exceptions [add]
    catches none, as it catches [IntegrityError] only. *)

Module Crud.
Import BinInt.

(** What SQLite takes as a parameter: an integer of 64 bits (binding a
    larger one raises [OverflowError]) and text that can be encoded as
    UTF-8 (binding other text raises [UnicodeEncodeError]). *)
Definition int64 (i : Z) : bool :=
  ((-9223372036854775808 <=? i) && (i <=? 9223372036854775807))%Z.

Definition storable (i : Z) (v ti ca : str) : bool :=
  int64 i && encodable v && encodable ti && encodable ca.

(** A row of [recipe_links] ([models.py]).  The database holds only what
    it could take as parameters. *)
Record RecipeLink := {
  id : Z;
  url : str;
  title : str;
  category : str;
  created_at : N;
  stored : storable id url title category = true
}.

(** The row with these columns, if the database can hold it. *)
Definition row (i : Z) (v ti ca : str) (now : N) : option RecipeLink :=
  match bool_dec (storable i v ti ca) true with
  | left p =>
    Some {| id := i; url := v; title := ti; category := ca;
            created_at := now; stored := p |}
  | right _ => None
  end.

(** The table, oldest row first.  [id] is its primary key and [url] is
    declared unique. *)
Definition table := list RecipeLink.

(** The rows of [select(RecipeLink).where(RecipeLink.url == v)]. *)
Definition where_url (v : str) (t : table) : list RecipeLink :=
  filter (fun r => str_eqb (url r) v) t.

(** [db.execute(select(RecipeLink).where(RecipeLink.url == v))]: the
    text is bound as a parameter. *)
Definition select_url (v : str) (t : table) : outcome (list RecipeLink) :=
  if encodable v then Returns (where_url v t) else Raises.

(** [.scalar_one_or_none()]: no row, the only row, or
    [MultipleResultsFound]. *)
Definition scalar_one_or_none {A} (rows : list A) : outcome (option A) :=
  match rows with
  | [] => Returns None
  | [r] => Returns (Some r)
  | _ => Raises
  end.

(** The row with the primary key, if any. *)
Definition get (item_id : Z) (t : table) : option RecipeLink :=
  find (fun r => (id r =? item_id)%Z) t.

(** [db.get(RecipeLink, item_id)]: the id is bound as a parameter. *)
Definition db_get (item_id : Z) (t : table) : outcome (option RecipeLink) :=
  if int64 item_id then Returns (get item_id t) else Raises.

(** The table with the row of the primary key of [r'] rewritten. *)
Definition update (r' : RecipeLink) (t : table) : table :=
  map (fun r => if (id r =? id r')%Z then r' else r) t.

(** [db.commit()] after [r.title] and [r.category] were assigned: the
    UPDATE binds the columns that changed, so it raises when a new value
    cannot be stored (an unchanged value is stored already). *)
Definition commit_update (r : RecipeLink) (ti ca : str) (t : table)
  : outcome table :=
  match row (id r) (url r) ti ca (created_at r) with
  | Some r' => Returns (update r' t)
  | None => Raises
  end.

(** [db.delete(item); db.commit()] *)
Definition delete (item : RecipeLink) (t : table) : table :=
  filter (fun r => negb (id r =? id item)%Z) t.

(** How a commit that inserts ends: [OtherError] stands for
    [UnicodeEncodeError] and for the [OperationalError] of a database
    that finds no row id. *)
Inductive committed : Type :=
| Done (t : table)
| IntegrityError
| OtherError.

Inductive RedirectResponse : Type :=
| Redirect (url : str) (status_code : nat).

Section Handlers.

(** [urllib.parse.quote] on text that can be encoded. *)
Variable quote : str -> str.

(** The unused row id SQLite picks at random once the largest id it can
    hold is in use; [None] when it finds none. *)
Variable rowid : table -> option Z.

(** The id the database gives a new row: 1 in an empty table, else one
    more than the largest id in use, and the random pick when that is the
    largest id there is.  A pick that is not a positive unused id of 64
    bits is no pick. *)
Definition next_id (t : table) : option Z :=
  match map id t with
  | [] => Some 1%Z
  | i :: l =>
    let largest := fold_left Z.max l i in
    if (largest <? 9223372036854775807)%Z then Some (largest + 1)%Z
    else match rowid t with
         | Some j =>
           if (0 <? j)%Z && int64 j && negb (existsb (Z.eqb j) (map id t))
           then Some j else None
         | None => None
         end
  end.

(** [db.add(RecipeLink(url=, title=, category=)); db.commit()]: the
    INSERT binds the three texts, takes a row id and checks that the URL
    is new; [created_at] is the time of the database. *)
Definition insert (now : N) (v ti ca : str) (t : table) : committed :=
  if negb (encodable v && encodable ti && encodable ca) then OtherError
  else match next_id t with
       | None => OtherError
       | Some i =>
         if existsb (fun r => str_eqb (url r) v) t then IntegrityError
         else match row i v ti ca now with
              | Some r => Done (t ++ [r])
              | None => OtherError
              end
       end.

(** [q], on a [str] that can be encoded. *)
Definition q (s : str) : str := quote s.

(** The redirect of [add] that carries the form back:
    [/?msg=...&prefill_url=...&prefill_title=...&prefill_category=...]. *)
Definition prefilled (msg v ti ca : str) : RedirectResponse :=
  Redirect (u "/?msg=" ++ msg
            ++ u "&prefill_url=" ++ q v
            ++ u "&prefill_title=" ++ q ti
            ++ u "&prefill_category=" ++ q ca) 303.

(** Building that redirect: [quote] encodes its argument as UTF-8 and so
    raises [UnicodeEncodeError] on text that cannot be encoded. *)
Definition with_form (msg v ti ca : str) : outcome RedirectResponse :=
  if encodable v && encodable ti && encodable ca
  then Returns (prefilled msg v ti ca)
  else Raises.

(** [add], lines 1233-1293: the response and the table it leaves, or an
    exception, with the table as it was.  A row object is always true, so
    [if existing] asks whether a row was found; only [IntegrityError] is
    caught. *)
Definition add (url0 title0 category0 : str) (now : N) (t : table)
  : outcome (RedirectResponse * table) :=
  let v := normalize_spaces url0 in
  let ti := normalize_spaces title0 in
  let ca := normalize_category category0 in
  (rows <- select_url v t ;;
   existing <- scalar_one_or_none rows ;;
   match existing with
   | Some ex =>
     let c1 := truthy ti && negb (str_eqb (title ex) ti) in
     let c2 := truthy ca && negb (str_eqb (category ex) ca) in
     if c1 || c2
     then
       t' <- commit_update ex (if c1 then ti else title ex)
                              (if c2 then ca else category ex) t ;;
       resp <- with_form (u "upd") v ti ca ;;
       Returns (resp, t')
     else
       resp <- with_form (u "dup") v ti ca ;;
       Returns (resp, t)
   | None =>
     match insert now v ti ca t with
     | Done t' => Returns (Redirect (u "/?msg=ok") 303, t')
     | IntegrityError =>
       resp <- with_form (u "dup") v ti ca ;;
       Returns (resp, t)
     | OtherError => Raises
     end
   end)%exn.

(** The redirect of [edit_item] and [delete_item]. *)
Definition back (msg : str) (current_filter : option str)
  : outcome RedirectResponse :=
  if truthy (or_empty current_filter)
  then let c := normalize_category (or_empty current_filter) in
       if encodable c
       then Returns (Redirect (u "/?msg=" ++ msg ++ u "&category=" ++ q c) 303)
       else Raises
  else Returns (Redirect (u "/?msg=" ++ msg) 303).

(** [edit_item], lines 1296-1316: the response or an exception, and the
    table it leaves. *)
Definition edit_item (item_id : Z) (title0 category0 : str)
    (current_filter : option str) (t : table)
  : outcome RedirectResponse * table :=
  let ti := normalize_spaces title0 in
  let ca := normalize_category category0 in
  match db_get item_id t with
  | Raises => (Raises, t)
  | Returns item =>
    match (match item with
           | Some r => commit_update r ti ca t
           | None => Returns t
           end) with
    | Raises => (Raises, t)
    | Returns t' => (back (u "editok") current_filter, t')
    end
  end.

(** [delete_item], lines 1319-1333: the response or an exception, and
    the table it leaves. *)
Definition delete_item (item_id : Z) (current_filter : option str) (t : table)
  : outcome RedirectResponse * table :=
  match db_get item_id t with
  | Raises => (Raises, t)
  | Returns item =>
    (back (u "del") current_filter,
     match item with
     | Some r => delete r t
     | None => t
     end)
  end.

End Handlers.

End Crud.

(* ================================================================= *)
(** * Vocabulary of the statements *)

(** ** Trimmed strings *)

(** The string is empty or its first character does not satisfy [p]. *)
Definition head_ok (p : char -> bool) (s : str) : Prop :=
  match s with c :: _ => p c = false | [] => True end.

(** Neither end of the string satisfies [p]. *)
Definition trimmed_by (p : char -> bool) (s : str) : Prop :=
  head_ok p s /\ head_ok p (rev s).

Definition trimmed (s : str) : Prop := trimmed_by is_space s.

(** The output of [re.sub(r'\s+', ' ', s)] from position [pos] of the
    subject on. *)
Definition squeeze_out (l : str) (pos : nat) : str :=
  flat_map (fun g => match g with Hit _ => u " " | Text c => [c] end)
           (scan (plus is_space) l pos 0).

(** ** Runs of a lookup *)

(** What the page yields once it has been requested. *)
Definition after_open (W : World) (limit : N) (url : str) {A}
    (extract : str -> outcome (option A)) : option A :=
  match urlopen W url with
  | Raises => None
  | Returns res =>
    if negb (str_in (u "text/html") (str_lower W (or_empty (content_type res))))
    then None
    else match read limit res with
         | Raises => None
         | Returns raw =>
           Exn.catch (extract (decode_utf8_ignore W raw)) None
         end
  end.

(** A lookup requests a page exactly when its argument is not empty and
    passes the validator. *)
Definition fetchable (W : World) (url : str) : bool :=
  truthy url && _is_safe_public_http_url W (strip url).

(** The pages a lookup requests for the URL. *)
Definition fetches (W : World) (url : str) : list str :=
  if fetchable W url then [strip url] else [].

(** What [get_og_title] returns for the URL. *)
Definition title_value (W : World) (url : str) : option str :=
  if fetchable W url
  then after_open W 240000 (strip url)
         (fun html => Returns (title_of_html W html))
  else None.


(** ** The validator *)

(** The address has one of the five properties the validator refuses. *)
Definition flagged (f : ip_flags) : bool :=
  is_private f || is_loopback f || is_link_local f || is_reserved f
  || is_multicast f.

(** [scheme in ("http", "https")] *)
Definition web_scheme (scheme : str) : bool :=
  str_eqb scheme (u "http") || str_eqb scheme (u "https").

(** ** Categories *)

(** The keyword rules of the classifier in declared order, and the
    classifier the specification describes: the first rule with a keyword
    occurring in the text gives the label, the default label otherwise. *)
Definition RULES : list (list str * str) :=
  [ ([u "パスタ"; u "スパゲ"; u "カルボナーラ"; u "ボロネーゼ"; u "ペペロン"], u "パスタ");
    ([u "うどん"; u "そば"; u "ラーメン"; u "そうめん"; u "焼きそば"; u "麺"], u "麺");
    ([u "丼"; u "チャーハン"; u "炊き込み"; u "おにぎり"; u "カレー"; u "リゾット"], u "ごはん・丼");
    ([u "パン"; u "トースト"; u "サンド"; u "ホットサンド"], u "パン");
    ([u "ケーキ"; u "プリン"; u "パフェ"; u "タルト"; u "アイス"; u "ブラウニー"; u "クレープ"], u "スイーツ");
    ([u "クッキー"; u "ドーナツ"; u "マフィン"; u "スコーン"; u "おやつ"], u "おやつ");
    ([u "スープ"; u "味噌汁"; u "みそ汁"; u "ポタージュ"; u "シチュー"], u "スープ");
    ([u "鍋"; u "しゃぶ"; u "すき焼"; u "キムチ鍋"; u "もつ鍋"], u "鍋");
    ([u "サラダ"], u "サラダ");
    ([u "弁当"; u "お弁当"], u "お弁当");
    ([u "作り置き"; u "つくりおき"; u "常備菜"], u "作り置き");
    ([u "朝"; u "モーニング"; u "朝ごはん"], u "朝ごはん");
    ([u "つまみ"; u "おつまみ"], u "おつまみ");
    ([u "鶏"; u "豚"; u "牛"; u "ひき肉"; u "から揚げ"; u "唐揚げ"; u "ハンバーグ"; u "生姜焼"], u "お肉");
    ([u "鮭"; u "さけ"; u "サーモン"; u "鯖"; u "さば"; u "ぶり"; u "鯛"; u "あじ"; u "いわし"], u "お魚");
    ([u "卵"; u "たまご"; u "豆腐"; u "納豆"; u "大豆"; u "厚揚げ"], u "卵・豆") ].

Definition classify_by_rules (t : str) : str :=
  match find (fun r => any_in (fst r) t) RULES with
  | Some r => snd r
  | None => DEFAULT_CATEGORY
  end.

(** No string occurs twice in the list. *)
Fixpoint nodupb (l : list str) : bool :=
  match l with
  | [] => true
  | x :: l' => negb (existsb (str_eqb x) l') && nodupb l'
  end.

(** The label of a rule, or the default label [d]. *)
Definition label_of (d : str) (o : option (list str * str)) : str :=
  match o with Some r => snd r | None => d end.

(** ** JSON-LD candidates *)

(** The candidate objects of one script block; a blank or malformed block
    has none. *)
Definition block_candidates (W : World) (mt : rmatch)
  : list (list (str * json)) :=
  let blob := strip (group1 mt) in
  if negb (truthy blob) then [] else
  match json_loads W blob with
  | Raises => []
  | Returns data => candidates data
  end.

(** All candidates of a page: blocks in document order, and within a block
    the object itself before the members of its [@graph], or the members
    of the list in order. *)
Definition all_candidates (W : World) (html : str) : list (list (str * json)) :=
  flat_map (block_candidates W) (finditer jsonld_script_re html).

(** The [@type] of the object is or contains the string Recipe. *)
Definition has_recipe_type (obj : list (str * json)) : bool :=
  existsb is_recipe_type (types_of obj).

(** The [name] of the object when it is a string. *)
Definition name_of (obj : list (str * json)) : option str :=
  match dict_get (u "name") obj with
  | Some (JString n) => Some n
  | _ => None
  end.

(** The extractor as C5 words it: the name of the first candidate of type
    Recipe whose name is a non-empty string. *)
Definition claimed_recipe_name (W : World) (html : str) : option str :=
  match find (fun obj => has_recipe_type obj && truthy (or_empty (name_of obj)))
             (all_candidates W html) with
  | Some obj => name_of obj
  | None => None
  end.

(** What the code tests: the trimmed name is not empty. *)
Definition qualifies (obj : list (str * json)) : bool :=
  has_recipe_type obj && truthy (strip (or_empty (name_of obj))).

(** The trimmed name of the chosen candidate. *)
Definition trimmed_name (o : option (list (str * json))) : option str :=
  match o with
  | Some obj => option_map strip (name_of obj)
  | None => None
  end.

(** ** Meta tag sources *)

(** The patterns of each extractor in the order the code tries them: for
    each key the key-before-content form, then the content-before-key
    form. *)
Definition TITLE_PATTERNS : list re :=
  [ meta_key_first (u "property") (liti (u "og:title"));
    meta_content_first (u "property") (liti (u "og:title"));
    meta_key_first (u "name") (liti (u "twitter:title"));
    meta_content_first (u "name") (liti (u "twitter:title")) ].

Definition IMAGE_PATTERNS : list re :=
  [ meta_key_first (u "property") (liti (u "og:image"));
    meta_content_first (u "property") (liti (u "og:image"));
    meta_key_first (u "name") twitter_image_key;
    meta_content_first (u "name") twitter_image_key ].

(** The match of the first pattern of the list that matches anywhere in
    the page. *)
Fixpoint first_match (ps : list re) (html : str) : option rmatch :=
  match ps with
  | [] => None
  | p :: ps' =>
    match search p html with
    | Some mt => Some mt
    | None => first_match ps' html
    end
  end.

(** The trimmed content of the first matching pattern. *)
Definition meta_content (ps : list re) (html : str) : option str :=
  option_map (fun mt => strip (group1 mt)) (first_match ps html).

(** The image reference [get_og_image] goes on with. *)
Definition image_content (html : str) : option str :=
  match image_match html with
  | Some mt => if truthy (strip (group1 mt)) then Some (strip (group1 mt)) else None
  | None => None
  end.

(** The extractors as C6 words them: the sources in priority order, the
    first one with a non-empty value wins. *)
Fixpoint first_non_empty (sources : list (option str)) : option str :=
  match sources with
  | [] => None
  | Some t :: sources' => if truthy t then Some t else first_non_empty sources'
  | None :: sources' => first_non_empty sources'
  end.

Definition claimed_meta_title (html : str) : option str :=
  first_non_empty
    [ meta_content (firstn 2 TITLE_PATTERNS) html;
      meta_content (skipn 2 TITLE_PATTERNS) html;
      title_element html ].

Definition claimed_image_content (html : str) : option str :=
  first_non_empty
    [ meta_content (firstn 2 IMAGE_PATTERNS) html;
      meta_content (skipn 2 IMAGE_PATTERNS) html ].

(** What the image lookup makes of an image reference found on the page at
    [page_url]: the reference resolved by [urljoin], kept when it starts
    with [http://] or [https://]; [urljoin] may raise. *)
Definition resolved_image (W : World) (page_url : str) (content : option str)
  : outcome (option str) :=
  match content with
  | None => Returns None
  | Some ref =>
    (img <- urljoin W page_url ref ;;
     if starts_with (u "http://") img || starts_with (u "https://") img
     then Returns (Some img)
     else Returns None)%exn
  end.

(** ** Clean titles *)

(** The characters of [_SPLIT_SEP_RE] and the brackets of [_TAIL_RE]. *)
Definition SEPARATORS : str := u "|｜-–—:：／/".
Definition BRACKETS : str := u "【】()（）".

(** [s.endswith(w)] *)
Definition ends_with (w s : str) : bool := starts_with (rev w) (rev s).

(** Neither white space, nor a separator, nor a bracket. *)
Definition plain_char (c : char) : bool :=
  negb (is_space c || mem c SEPARATORS || mem c BRACKETS).

(** The title neither starts nor ends with the word. *)
Definition free_of (w t : str) : bool :=
  negb (starts_with w t) && negb (ends_with w t).

(** An already clean title: 2 to 60 plain characters, with no noise word
    at either end. *)
Definition already_clean (t : str) : bool :=
  (2 <=? length t) && (length t <=? 60) && forallb plain_char t
  && forallb (fun w => free_of w t) _NOISE_WORDS.

(** No white space in the string; only plain characters in the string. *)
Definition no_space (l : str) : Prop := Forall (fun c => is_space c = false) l.
Definition plain (l : str) : Prop := Forall (fun c => plain_char c = true) l.

(** ** Cache contents *)




(** What [h] writes for one character. *)
Definition escape_char (c : char) : str :=
  if (c =? 38)%N then u "&amp;"
  else if (c =? 60)%N then u "&lt;"
  else if (c =? 62)%N then u "&gt;"
  else if (c =? 34)%N then u "&quot;"
  else if (c =? 39)%N then u "&#39;"
  else [c].

(** The characters that open or close a tag or an attribute value. *)
Definition markup_char (c : char) : bool :=
  ((c =? 60) || (c =? 62) || (c =? 34) || (c =? 39))%N.

(** White space occurs only as single ASCII spaces. *)
Fixpoint single_spaced (s : str) : bool :=
  match s with
  | [] => true
  | c :: s' =>
    (if is_space c
     then (c =? 32)%N && match s' with d :: _ => negb (is_space d) | [] => true end
     else true)
    && single_spaced s'
  end.

(** ** The table of links *)

(** The constraints [models.py] declares: no two rows share a URL or an
    id. *)
Definition consistent (t : Crud.table) : Prop :=
  NoDup (map Crud.url t) /\ NoDup (map Crud.id t).

(** Every stored category is one of the category keys. *)
Definition categorized (t : Crud.table) : Prop :=
  Forall (fun r => In (Crud.category r) CATEGORY_KEYS) t.

(** What [add] does when it returns: it appends a row for a URL the table
    does not hold, and otherwise rewrites the title, unless the form has
    none, and the category of the one row that holds the URL. *)
Inductive added (quote : str -> str) (rowid : Crud.table -> option BinNums.Z)
    (v ti ca : str) (now : N) (t : Crud.table)
  : Crud.RedirectResponse -> Crud.table -> Prop :=
| added_new r :
    Crud.where_url v t = [] ->
    Crud.next_id rowid t = Some (Crud.id r) ->
    Crud.url r = v -> Crud.title r = ti -> Crud.category r = ca ->
    Crud.created_at r = now ->
    added quote rowid v ti ca now t (Crud.Redirect (u "/?msg=ok") 303)
      (t ++ [r])
| added_old l1 ex r l2 resp :
    t = l1 ++ ex :: l2 -> Crud.url ex = v ->
    (forall x, In x (l1 ++ l2) ->
               Crud.id x <> Crud.id ex /\ Crud.url x <> v) ->
    Crud.id r = Crud.id ex -> Crud.url r = v ->
    Crud.title r = (if truthy ti then ti else Crud.title ex) ->
    Crud.category r = ca ->
    Crud.created_at r = Crud.created_at ex ->
    (Crud.title r = Crud.title ex -> Crud.category r = Crud.category ex ->
     r = ex) ->
    resp = Crud.prefilled quote
             (if str_eqb (Crud.title ex) (Crud.title r)
                 && str_eqb (Crud.category ex) ca
              then u "dup" else u "upd") v ti ca ->
    added quote rowid v ti ca now t resp (l1 ++ r :: l2).

(* ================================================================= *)
(** * Example worlds and pages *)

Module Mock.

(** The text with every apostrophe read as a double quote. *)
Definition dq (s : string) : str :=
  map (fun c => if (c =? 39)%N then 34%N else c) (u s).

(** The string up to the first character of [stops], and the string from
    that character on. *)
Fixpoint break_at (stops : str) (s : str) : str * str :=
  match s with
  | [] => ([], [])
  | c :: s' =>
    if mem c stops then ([], s)
    else let r := break_at stops s' in (c :: fst r, snd r)
  end.

(** The string after the last [c], the whole string when it has none. *)
Fixpoint after_last (c : char) (s : str) : str :=
  match s with
  | [] => []
  | d :: s' =>
    if mem c s' then after_last c s'
    else if (d =? c)%N then s' else s
  end.

Definition is_alpha (c : char) : bool :=
  ((65 <=? c) && (c <=? 90) || (97 <=? c) && (c <=? 122))%N.

Definition scheme_char (c : char) : bool :=
  is_alpha c || ((48 <=? c) && (c <=? 57))%N || mem c (u "+-.").

(** The scheme in lower case and what follows its colon; no scheme when
    the text before the first colon is empty, does not start with a
    letter or holds another character than letters, digits and [+-.]. *)
Definition split_scheme (url : str) : str * str :=
  let r := break_at [c1 ":"] url in
  match fst r, snd r with
  | c :: _, _ :: rest =>
    if is_alpha c && forallb scheme_char (fst r)
    then (map Re.ascii_lower (fst r), rest)
    else ([], url)
  | _, _ => ([], url)
  end.

(** [.hostname] of a network location: what follows the last [@], up to
    the port or between the brackets, in lower case up to a zone id;
    [None] when that is empty. *)
Definition hostname (netloc : str) : option str :=
  let hostinfo := after_last (c1 "@") netloc in
  let host :=
    if mem (c1 "[") hostinfo
    then fst (break_at [c1 "]"]
                (skipn 1 (snd (break_at [c1 "["] hostinfo))))
    else fst (break_at [c1 ":"] hostinfo) in
  if truthy host
  then let r := break_at [c1 "%"] host in
       Some (map Re.ascii_lower (fst r) ++ snd r)
  else None.

(** [urlparse], as far as the scheme and the host name go: leading
    control characters and spaces are dropped, tabs and line breaks are
    removed, the scheme is split off, and the network location is what
    follows [//] up to the first of [/?#]; a location with one bracket
    but not the other raises [ValueError].  Host names are taken to be
    ASCII, and a bracketed host is not checked to be an address. *)
Definition parse (url : str) : outcome (str * option str) :=
  let url := filter (fun c => negb (mem c [9; 10; 13]%N))
                    (lstrip_by (fun c => (c <=? 32)%N) url) in
  let r := split_scheme url in
  if starts_with (u "//") (snd r)
  then let netloc := fst (break_at (u "/?#") (skipn 2 (snd r))) in
       if xorb (mem (c1 "[") netloc) (mem (c1 "]") netloc) then Raises
       else Returns (fst r, hostname netloc)
  else Returns (fst r, None).

(** The schemes of [urllib.parse.uses_relative] that take a network
    location. *)
Definition RELATIVE : list str :=
  [ u "ftp"; u "http"; u "gopher"; u "nntp"; u "imap"; u "wais"; u "file";
    u "https"; u "shttp"; u "mms"; u "prospero"; u "rtsp"; u "rtspu";
    u "sftp"; u "svn"; u "svn+ssh"; u "ws"; u "wss" ].

(** [urljoin] of a base with a scheme of [RELATIVE] and a reference with a
    path and without dot segments, query or fragment: a reference with
    another scheme stands for itself, [//host/path] takes the scheme of
    the base, [/path] also its network location, and any other reference
    replaces what follows the last slash of the base path. *)
Definition join (base ref : str) : outcome str :=
  if negb (truthy base) then Returns ref
  else if negb (truthy ref) then Returns base
  else
    let b := split_scheme base in
    let r := split_scheme ref in
    let scheme := if truthy (fst r) then fst r else fst b in
    let ref' := if truthy (fst r) then snd r else ref in
    if negb (str_eqb scheme (fst b)) || negb (existsb (str_eqb scheme) RELATIVE)
    then Returns ref
    else if starts_with (u "//") ref' then Returns (fst b ++ u ":" ++ ref')
    else
      let netloc :=
        if starts_with (u "//") (snd b)
        then fst (break_at (u "/?#") (skipn 2 (snd b))) else [] in
      let path :=
        fst (break_at (u "?#")
               (if starts_with (u "//") (snd b)
                then snd (break_at (u "/?#") (skipn 2 (snd b)))
                else snd b)) in
      let dir := rev (snd (break_at [c1 "/"] (rev path))) in
      let root :=
        (if truthy (fst b) then fst b ++ u ":" else [])
        ++ (if starts_with (u "//") (snd b) then u "//" ++ netloc else []) in
      if starts_with (u "/") ref' then Returns (root ++ ref')
      else Returns (root ++ (if truthy dir then dir else u "/") ++ ref').

(** Dotted addresses resolve to themselves, [nowhere.invalid] does not
    resolve, every other name resolves to one public address. *)
Definition resolve (host : str) : outcome str :=
  if str_eqb host (u "nowhere.invalid") then Raises
  else if existsb (str_eqb host)
            [u "127.0.0.1"; u "10.1.2.3"; u "169.254.169.254"]
  then Returns host
  else Returns (u "93.184.216.34").

Definition classify (ip : str) : outcome ip_flags :=
  if str_eqb ip (u "127.0.0.1") then Returns (IpFlags true true false false false)
  else if str_eqb ip (u "10.1.2.3") then Returns (IpFlags true false false false false)
  else if str_eqb ip (u "169.254.169.254") then Returns (IpFlags true false true false false)
  else if str_eqb ip (u "93.184.216.34") then Returns (IpFlags false false false false false)
  else Raises.

Fixpoint table {A} (t : list (str * A)) (k : str) : outcome A :=
  match t with
  | [] => Raises
  | (k', v) :: t' => if str_eqb k k' then Returns v else table t' k
  end.

(** The example world: it serves [pages] at their exact URLs and raises
    for any other, [json.loads] knows the texts of [jsons] and raises on
    any other, and [str.lower] is taken on the ASCII letters, which is
    what it does to the texts of the examples. *)
Definition world (pages : list (str * response)) (jsons : list (str * json))
  : World :=
  {| str_lower := map Re.ascii_lower;
     urlparse := parse;
     gethostbyname := resolve;
     ip_address := classify;
     urlopen := table pages;
     decode_utf8_ignore := Utf8.decode;
     json_loads := table jsons;
     urljoin := join |}.

Definition html_page (body : list Byte.byte) : response :=
  Response (Some (u "text/html; charset=utf-8")) (Returns body).

End Mock.

Module LongTitle.
(** A page whose only title signal is a [<title>] of 61 characters. *)
Definition title : str := concat (repeat (u "あ") 61).
Definition page : list Byte.byte :=
  e "<title>" ++ concat (repeat (e "あ") 61) ++ e "</title>".
Definition url : str := u "https://recipes.example/long".
Definition world : World := Mock.world [(url, Mock.html_page page)] [].
End LongTitle.

Module BareMarker.
(** A page titled with a bare marker word, which cleaning empties. *)
Definition page : list Byte.byte := e "<title>レシピ</title>".
Definition url : str := u "https://recipes.example/1".
Definition world : World := Mock.world [(url, Mock.html_page page)] [].
End BareMarker.

Definition carbonara_html : str :=
  u "<html><head><title>カルボナーラの作り方 - クックパッド</title></head><body></body></html>".

Module Karaage.
(** The page of the precedence example: a Recipe named in JSON-LD and a
    different [og:title]. *)
Definition blob : str := Mock.dq "{'@type':'Recipe','name':'鶏の唐揚げ'}".
Definition data : json :=
  JObject [ (u "@type", JString (u "Recipe"));
            (u "name", JString (u "鶏の唐揚げ")) ].
Definition html : str :=
  Mock.dq "<html><head><meta property='og:title' content='から揚げレシピ | Foo Blog'><script type='application/ld+json'>{'@type':'Recipe','name':'鶏の唐揚げ'}</script></head></html>".
Definition world : World := Mock.world [] [(blob, data)].
End Karaage.

Module BlankName.
(** A block listing a Recipe whose name is one space before a Recipe
    with a proper name. *)
Definition blob : str :=
  Mock.dq "[{'@type':'Recipe','name':' '},{'@type':'Recipe','name':'親子丼'}]".
Definition data : json :=
  JArray [ JObject [ (u "@type", JString (u "Recipe"));
                     (u "name", JString (u " ")) ];
           JObject [ (u "@type", JString (u "Recipe"));
                     (u "name", JString (u "親子丼")) ] ].
Definition html : str :=
  Mock.dq "<script type='application/ld+json'>[{'@type':'Recipe','name':' '},{'@type':'Recipe','name':'親子丼'}]</script>".
Definition world : World := Mock.world [] [(blob, data)].
End BlankName.

Module BlankOg.
(** A page whose [og:] tags hold one space, above proper twitter tags
    and a [<title>]. *)
Definition html : str :=
  u "<head><meta property='og:title' content=' '><meta property='og:image' content=' '><meta name='twitter:title' content='親子丼'><meta name='twitter:image' content='https://img.example/oyako.jpg'><title>Foo Blog</title></head>".
End BlankOg.

Module UpperMeta.
(** Upper-case tags with the content before the key. *)
Definition html : str :=
  u "<HEAD><META CONTENT='肉じゃが' PROPERTY='OG:Title'><META Content='/img/niku.jpg' Name='Twitter:Image:Src'><TITLE>
 肉じゃが   の
 作り方 </TITLE></HEAD>".
Definition title_only : str := u "<TITLE>
 肉じゃが   の
 作り方 </TITLE>".
End UpperMeta.

Module Oversized.
(** A page whose body exceeds the read ceiling of the title lookup: a
    [<title>] followed by 240000 spaces. *)
Definition body : list Byte.byte :=
  e "<title>親子丼</title>" ++ repeat Byte.x20 (N.to_nat 240000).
Definition url : str := u "https://recipes.example/big".
Definition world : World := Mock.world [(url, Mock.html_page body)] [].
End Oversized.

Module ManyUrls.
(** 513 distinct URLs. *)
Definition url (i : nat) : str := u "https://recipes.example/r/" ++ [N.of_nat i].
End ManyUrls.

(** A page whose JSON-LD name is written with the escape of a lone
    surrogate, which [json.loads] turns into that code point. *)
Module LoneSurrogate.
Definition blob : str :=
  Mock.dq "{'@type':'Recipe','name':'\ud83d curry'}".
Definition name : str := 55357%N :: u " curry".
Definition data : json :=
  JObject [ (u "@type", JString (u "Recipe")); (u "name", JString name) ].
Definition page : list Byte.byte :=
  map (fun b => if Byte.eqb b Byte.x27 then Byte.x22 else b)
      (e "<script type='application/ld+json'>{'@type':'Recipe','name':'\ud83d curry'}</script>").
Definition url : str := u "https://recipes.example/curry".
Definition world : World :=
  Mock.world [(url, Mock.html_page page)] [(blob, data)].
End LoneSurrogate.

(** A page with upper-case tags whose image reference is a path, and a
    page whose image reference is a [data:] URL. *)
Module NikuPage.
Definition page : list Byte.byte :=
  e "<HEAD><META CONTENT='肉じゃが' PROPERTY='OG:Title'><META Content=' /img/niku.jpg ' Name='Twitter:Image:Src'></HEAD>".
Definition url : str := u "https://recipes.example/washoku/niku".
Definition world : World := Mock.world [(url, Mock.html_page page)] [].
End NikuPage.

Module DataImage.
Definition html : str :=
  u "<head><meta property='og:image' content='data:image/png;base64,AAAA'><meta name='twitter:image' content='https://img.example/a.jpg'></head>".
End DataImage.

(** A page with an image. *)

Module ImagePage.
Definition page : list Byte.byte :=
  e "<head><meta property='og:image' content=' https://img.example/karaage.jpg '></head>".
Definition url : str := u "https://recipes.example/karaage".
Definition world : World := Mock.world [(url, Mock.html_page page)] [].
End ImagePage.

(** A page whose title spreads over several lines. *)
Module SpacedTitle.
Definition html : str :=
  u "<html><title>" ++ [10%N; 32%N] ++ u "親子丼" ++ [9%N; 12288%N; 10%N]
    ++ u "レシピ " ++ [10%N] ++ u "</title></html>".
End SpacedTitle.

(** A table of two links. *)
Module TwoLinks.
Import BinInt.
Definition oyako : Crud.RecipeLink :=
  {| Crud.id := 1%Z; Crud.url := u "https://recipes.example/oyakodon";
     Crud.title := u "親子丼"; Crud.category := u "ごはん・丼";
     Crud.created_at := 100%N; Crud.stored := eq_refl |}.
Definition napolitan : Crud.RecipeLink :=
  {| Crud.id := 4%Z; Crud.url := u "https://recipes.example/napolitan";
     Crud.title := u "ナポリタン"; Crud.category := u "パスタ";
     Crud.created_at := 200%N; Crud.stored := eq_refl |}.
Definition rows : Crud.table := [oyako; napolitan].
(** A stand-in for the percent-encoding of the redirects, and a database
    that finds no free id once the largest is in use. *)
Definition quote (s : str) : str := s.
Definition rowid (t : Crud.table) : option Z := None.
End TwoLinks.

(** The form that files the first link under another category, and the
    table it leaves. *)
Module Refiled.
Import BinInt.
Definition url : str := u " https://recipes.example/oyakodon　".
Definition title : str := u " ".
Definition category : str := u "お肉".
Definition oyako : Crud.RecipeLink :=
  {| Crud.id := 1%Z; Crud.url := u "https://recipes.example/oyakodon";
     Crud.title := u "親子丼"; Crud.category := u "お肉";
     Crud.created_at := 100%N; Crud.stored := eq_refl |}.
Definition rows : Crud.table := [ oyako; TwoLinks.napolitan ].
Definition answer : Crud.RedirectResponse :=
  Crud.prefilled TwoLinks.quote (u "upd")
    (u "https://recipes.example/oyakodon") [] (u "お肉").
End Refiled.

(** A form whose title holds a lone surrogate. *)
Module BrokenTitle.
Definition title : str := 55357%N :: u " curry".
End BrokenTitle.

(* ================================================================= *)
(** * Properties *)

Lemma str_eqb_eq (a b : str) : str_eqb a b = true <-> a = b.
Proof.
  unfold str_eqb. destruct (list_eq_dec N.eq_dec a b); split; congruence.
Qed.

(** ** Trimming *)

Section StripFacts.
Variable p : char -> bool.

Lemma lstrip_by_head (s : str) : head_ok p (lstrip_by p s).
Proof.
  induction s as [|c s IH]; simpl; [exact I|].
  destruct (p c) eqn:E; [exact IH|]. simpl. exact E.
Qed.

Lemma lstrip_by_fix (s : str) : head_ok p s -> lstrip_by p s = s.
Proof.
  destruct s as [|c s]; simpl; [reflexivity|]. intros ->. reflexivity.
Qed.

Lemma lstrip_by_split (s : str) :
  exists pre, s = pre ++ lstrip_by p s /\ Forall (fun c => p c = true) pre.
Proof.
  induction s as [|c s [pre [E F]]]; simpl.
  - exists []. split; [reflexivity|constructor].
  - destruct (p c) eqn:Ec.
    + exists (c :: pre). split; [simpl; congruence|constructor; assumption].
    + exists []. split; [reflexivity|constructor].
Qed.

Lemma lstrip_by_length (s : str) : length (lstrip_by p s) <= length s.
Proof.
  induction s as [|c s IH]; simpl; [lia|].
  destruct (p c); simpl; lia.
Qed.

(** Trimming on the left keeps the last character. *)
Lemma lstrip_by_last (s : str) : head_ok p (rev s) -> head_ok p (rev (lstrip_by p s)).
Proof.
  induction s as [|c s IH]; simpl; [auto|].
  destruct (p c) eqn:Ec; [|auto].
  intros H. apply IH.
  destruct (rev s) as [|d r] eqn:Er; simpl in *; [exact I|exact H].
Qed.

Lemma rstrip_by_fix (s : str) : head_ok p (rev s) -> rstrip_by p s = s.
Proof.
  intros H. unfold rstrip_by. rewrite lstrip_by_fix by exact H.
  apply rev_involutive.
Qed.

Lemma rstrip_by_length (s : str) : length (rstrip_by p s) <= length s.
Proof.
  unfold rstrip_by. rewrite length_rev.
  etransitivity; [apply lstrip_by_length|]. rewrite length_rev. lia.
Qed.

Lemma strip_by_trimmed (s : str) : trimmed_by p (strip_by p s).
Proof.
  unfold strip_by, rstrip_by, trimmed_by. split.
  - apply lstrip_by_last. rewrite rev_involutive. apply lstrip_by_head.
  - rewrite rev_involutive. apply lstrip_by_head.
Qed.

Lemma strip_by_fix (s : str) : trimmed_by p s -> strip_by p s = s.
Proof.
  intros [H1 H2]. unfold strip_by.
  rewrite (lstrip_by_fix _ H1). apply rstrip_by_fix, H2.
Qed.

Lemma strip_by_idem (s : str) : strip_by p (strip_by p s) = strip_by p s.
Proof. apply strip_by_fix, strip_by_trimmed. Qed.

Lemma strip_by_length (s : str) : length (strip_by p s) <= length s.
Proof.
  unfold strip_by. etransitivity; [apply rstrip_by_length|].
  apply lstrip_by_length.
Qed.

(** A string none of whose characters satisfies [p] is left alone. *)
Lemma strip_by_none (s : str) :
  Forall (fun c => p c = false) s -> strip_by p s = s.
Proof.
  intros F. apply strip_by_fix. split.
  - destruct F; simpl; auto.
  - apply Forall_rev in F. destruct F; simpl; auto.
Qed.
End StripFacts.

Lemma strip_trimmed (s : str) : trimmed (strip s).
Proof. apply strip_by_trimmed. Qed.

Lemma strip_fix (s : str) : trimmed s -> strip s = s.
Proof. apply strip_by_fix. Qed.

Lemma strip_idem (s : str) : strip (strip s) = strip s.
Proof. apply strip_by_idem. Qed.

(* ================================================================= *)
(** ** How the matcher walks a subject *)

Module ReFacts.

Lemma accept_false (start : nat) (c : cursor) : accept false start c = Some c.
Proof. reflexivity. Qed.

Lemma try_at_fail (r : re) (l : str) (pos : nat) :
  (forall k, m r (Cursor pos l []) k = None) ->
  forall ma, try_at r ma l pos = None.
Proof. intros H ma. unfold try_at. rewrite H. reflexivity. Qed.

Lemma split_segs_text (l acc : str) :
  split_segs acc (map Text l) = [rev acc ++ l].
Proof.
  revert acc. induction l as [|c l IH]; intros acc; simpl.
  - rewrite app_nil_r. reflexivity.
  - rewrite IH. simpl. rewrite <- app_assoc. reflexivity.
Qed.

Lemma sub_text (repl l : str) :
  flat_map (fun g => match g with Hit _ => repl | Text c => [c] end)
           (map Text l) = l.
Proof. induction l as [|c l IH]; simpl; congruence. Qed.

(** A pattern that matches at no position leaves the subject whole. *)
Section NoMatch.
Variable r : re.
Variable P : str -> nat -> Prop.
Hypothesis P_tail : forall c l pos, P (c :: l) pos -> P l (S pos).
Hypothesis P_fail : forall l pos, P l pos -> try_at r false l pos = None.

Lemma scan_none (l : str) (pos : nat) :
  P l pos -> scan r l pos 0 = map Text l.
Proof.
  revert pos. induction l as [|c l IH]; intros pos H; simpl;
    rewrite (P_fail H); simpl; [reflexivity|].
  f_equal. apply IH. eapply P_tail. exact H.
Qed.

Lemma sub_none (repl s : str) : P s 0 -> sub r repl s = s.
Proof.
  intros H. unfold sub, segments. rewrite (scan_none H). apply sub_text.
Qed.

Lemma split_none (s : str) : P s 0 -> split r s = [s].
Proof.
  intros H. unfold split, segments. rewrite (scan_none H).
  apply split_segs_text.
Qed.
End NoMatch.

(** Skipping over a match is resuming the walk where the match ended. *)
Lemma scan_skip (r : re) (n : nat) :
  forall l pos, n <= length l ->
  scan r l pos n = scan r (skipn n l) (n + pos) 0.
Proof.
  induction n as [|n IH]; intros l pos Hn.
  - reflexivity.
  - destruct l as [|c l]; simpl in Hn; [lia|].
    simpl skipn. replace (S n + pos) with (n + S pos) by lia.
    rewrite <- IH by lia. reflexivity.
Qed.

(** *** Single steps of [m] *)

Lemma m_seq a b cur k : m (Seq a b) cur k = m a cur (fun c1 => m b c1 k).
Proof. reflexivity. Qed.

Lemma m_alt a b cur k : m (Alt a b) cur k = orelse (m a cur k) (m b cur k).
Proof. reflexivity. Qed.

Lemma m_chr p pos l caps k :
  m (Chr p) (Cursor pos l caps) k =
  match l with
  | c :: l' => if p c then k (Cursor (S pos) l' caps) else None
  | [] => None
  end.
Proof. reflexivity. Qed.

(** A repetition whose class does not hold at the cursor takes nothing. *)
Lemma rep_stops g lo hi p pos l caps k :
  head_ok p l ->
  m (Rep g lo hi p) (Cursor pos l caps) k =
  if lo =? 0 then k (Cursor pos l caps) else None.
Proof.
  intros H. simpl. destruct g, l as [|c l]; simpl in *; unfold stop;
    try rewrite H; simpl; destruct (lo =? 0); try reflexivity;
    destruct (k _); reflexivity.
Qed.

Lemma m_lit (w : str) : forall pos l caps k,
  m (lit w) (Cursor pos l caps) k =
  if starts_with w l
  then k (Cursor (length w + pos) (skipn (length w) l) caps)
  else None.
Proof.
  induction w as [|a w IH]; intros pos l caps k.
  - reflexivity.
  - destruct w as [|b w].
    + destruct l as [|c l]; [reflexivity|].
      simpl. destruct (a =? c)%N; reflexivity.
    + change (lit (a :: b :: w)) with (Seq (ch a) (lit (b :: w))).
      rewrite m_seq. unfold ch at 1. rewrite m_chr.
      destruct l as [|c l]; [reflexivity|].
      change (starts_with (a :: b :: w) (c :: l))
        with ((a =? c)%N && starts_with (b :: w) l).
      destruct (a =? c)%N; [|reflexivity].
      rewrite IH. simpl andb.
      change (length (a :: b :: w)) with (S (length (b :: w))).
      rewrite Nat.add_succ_r. reflexivity.
Qed.

(** A greedy repetition followed by nothing that can fail takes the
    whole run. *)
Lemma greedy_run p caps k (Hk : forall c, k c = Some c) :
  forall l pos lo,
  (lo = 0 \/ lo = 1 /\ exists c l', l = c :: l' /\ p c = true) ->
  rep_greedy p caps k lo None l pos =
  Some (Cursor (pos + (length l - length (lstrip_by p l)))
               (lstrip_by p l) caps).
Proof.
  induction l as [|c l IH]; intros pos lo Hlo.
  - destruct Hlo as [->|[_ (c & l' & E & _)]]; [|discriminate].
    simpl. unfold stop. simpl. rewrite Hk, Nat.add_0_r. reflexivity.
  - simpl. destruct (p c) eqn:Ec.
    + assert (Hp : pred lo = 0) by (destruct Hlo as [->|[-> _]]; reflexivity).
      rewrite Hp. simpl. rewrite (IH (S pos) 0) by (left; reflexivity).
      pose proof (lstrip_by_length p l).
      do 2 f_equal. destruct (length (lstrip_by p l)); lia.
    + destruct Hlo as [->|[_ (c' & l' & E & Ec')]]; [|congruence].
      simpl. unfold stop. simpl. rewrite Hk.
      rewrite Nat.sub_diag, Nat.add_0_r. reflexivity.
Qed.

Lemma skipn_lstrip p (l : str) :
  skipn (length l - length (lstrip_by p l)) l = lstrip_by p l.
Proof.
  destruct (lstrip_by_split p l) as [pre [E _]].
  set (t := lstrip_by p l) in *. clearbody t. subst l.
  rewrite length_app.
  replace (length pre + length t - length t) with (length pre) by lia.
  rewrite skipn_app, skipn_all, Nat.sub_diag. reflexivity.
Qed.

End ReFacts.

(** ** Collapsing white space: [re.sub(r'\s+', ' ', s)] *)

Module Squeeze.
Import ReFacts.

Lemma out_nil pos : squeeze_out [] pos = [].
Proof. reflexivity. Qed.

Lemma out_keep c l pos :
  is_space c = false -> squeeze_out (c :: l) pos = c :: squeeze_out l (S pos).
Proof.
  intros Hc. unfold squeeze_out. simpl. unfold try_at.
  unfold plus. rewrite rep_stops by exact Hc. reflexivity.
Qed.

Lemma out_run c l pos :
  is_space c = true ->
  exists pos', squeeze_out (c :: l) pos = u " " ++ squeeze_out (lstrip_by is_space l) pos'.
Proof.
  intros Hc.
  set (n := length l - length (lstrip_by is_space l)).
  exists (n + S pos). unfold squeeze_out.
  assert (T : try_at (plus is_space) false (c :: l) pos
              = Some (Match pos (pos + S n) [])).
  { unfold try_at, plus. cbn [m c_rest c_pos c_caps].
    rewrite (@greedy_run is_space [] (accept false pos)
               (accept_false pos) (c :: l) pos 1).
    - cbn [lstrip_by]. rewrite Hc. cbn [c_pos c_caps length].
      pose proof (lstrip_by_length is_space l).
      do 2 f_equal. unfold n. lia.
    - right. split; [reflexivity|]. exists c, l. auto. }
  cbn [scan]. rewrite T. cbn [m_end].
  replace (pos + S n =? pos) with false by (symmetry; apply Nat.eqb_neq; lia).
  replace (pos + S n - pos - 1) with n by lia.
  cbn [app flat_map].
  rewrite scan_skip.
  - unfold n at 1. rewrite skipn_lstrip. reflexivity.
  - unfold n. lia.
Qed.

Lemma rev_cons_head p c (s : str) :
  s <> [] -> (head_ok p (rev (c :: s)) <-> head_ok p (rev s)).
Proof.
  intros Hs. simpl. destruct (rev s) as [|d r] eqn:E.
  - exfalso. apply Hs. rewrite <- (rev_involutive s), E. reflexivity.
  - simpl. tauto.
Qed.

(** The last character survives, so the result does not end in white
    space when the subject does not. *)
Lemma out_last : forall n l pos,
  length l <= n -> l <> [] -> head_ok is_space (rev l) ->
  squeeze_out l pos <> [] /\ head_ok is_space (rev (squeeze_out l pos)).
Proof.
  induction n as [|n IH]; intros l pos Hn Hl Hlast.
  - destruct l; [congruence|simpl in Hn; lia].
  - destruct l as [|c l]; [congruence|]. simpl in Hn.
    destruct (is_space c) eqn:Ec.
    + destruct (@out_run c l pos Ec) as [pos' E]. rewrite E.
      pose proof (lstrip_by_last is_space (c :: l) Hlast) as Hlast'.
      pose proof (lstrip_by_length is_space l) as Hlen.
      cbn [lstrip_by] in Hlast'. rewrite Ec in Hlast'.
      assert (Hne : lstrip_by is_space l <> []).
      { intros Z. destruct (lstrip_by_split is_space (c :: l)) as [pre [E1 F]].
        cbn [lstrip_by] in E1. rewrite Ec, Z, app_nil_r in E1. subst pre.
        apply Forall_rev in F. destruct (rev (c :: l)) as [|d r] eqn:Er.
        - apply (f_equal (@length _)) in Er. rewrite length_rev in Er.
          simpl in Er. lia.
        - inversion F; subst. simpl in Hlast. congruence. }
      destruct (IH (lstrip_by is_space l) pos') as [H1 H2]; try assumption; [lia|].
      split; [discriminate|].
      change (u " " ++ squeeze_out (lstrip_by is_space l) pos')
        with (32%N :: squeeze_out (lstrip_by is_space l) pos').
      apply rev_cons_head; assumption.
    + rewrite (@out_keep c l pos Ec). split; [discriminate|].
      destruct l as [|d l].
      * rewrite out_nil. simpl. exact Ec.
      * destruct (IH (d :: l) (S pos)) as [H1 H2]; [lia|discriminate| |].
        -- apply (rev_cons_head is_space c); [discriminate|exact Hlast].
        -- apply rev_cons_head; assumption.
Qed.

Lemma sub_trimmed (s : str) :
  trimmed s -> trimmed (sub (plus is_space) (u " ") s).
Proof.
  intros [Hh Hl]. change (sub (plus is_space) (u " ") s) with (squeeze_out s 0).
  destruct s as [|c s]; [split; exact I|].
  split.
  - simpl in Hh. rewrite (@out_keep c s 0 Hh). exact Hh.
  - apply (@out_last (length (c :: s))); [lia|discriminate|exact Hl].
Qed.

End Squeeze.

(* ================================================================= *)
(** ** Raw titles carry no surrounding white space *)

Lemma recipe_name_of_trimmed obj t : recipe_name_of obj = Some t -> trimmed t.
Proof.
  unfold recipe_name_of. destruct (existsb _ _); [|discriminate].
  destruct (dict_get _ obj) as [[| | | name | |]|]; try discriminate.
  destruct (truthy (strip name)); [|discriminate].
  intros [= <-]. apply strip_trimmed.
Qed.

Lemma first_name_trimmed objs t : first_name objs = Some t -> trimmed t.
Proof.
  induction objs as [|obj objs IH]; simpl; [discriminate|].
  destruct (recipe_name_of obj) eqn:E; [|exact IH].
  intros [= <-]. eapply recipe_name_of_trimmed, E.
Qed.

Lemma first_block_trimmed W ms t : first_block W ms = Some t -> trimmed t.
Proof.
  induction ms as [|mt ms IH]; simpl; [discriminate|].
  destruct (block_name W mt) eqn:E; [|exact IH].
  intros [= <-]. unfold block_name in E.
  destruct (negb _); [discriminate|].
  destruct (json_loads W _); [|discriminate].
  eapply first_name_trimmed, E.
Qed.

Lemma title_element_trimmed html t : title_element html = Some t -> trimmed t.
Proof.
  unfold title_element. destruct (search title_re html); [|discriminate].
  destruct (truthy _); [|discriminate].
  intros [= <-]. apply Squeeze.sub_trimmed, strip_trimmed.
Qed.

Lemma extract_og_or_title_trimmed html t :
  extract_og_or_title html = Some t -> trimmed t.
Proof.
  unfold extract_og_or_title.
  match goal with |- context [match ?x with Some _ => _ | None => _ end = _] =>
    destruct x as [mt|] end; [|apply title_element_trimmed].
  destruct (truthy (strip (group1 mt))); [|apply title_element_trimmed].
  intros [= <-]. apply strip_trimmed.
Qed.

Lemma raw_title_trimmed W html t : raw_title W html = Some t -> trimmed t.
Proof.
  unfold raw_title, extract_recipe_name_from_jsonld.
  destruct (first_block W _) as [n|] eqn:E.
  - destruct (truthy n); [|apply extract_og_or_title_trimmed].
    intros [= <-]. eapply first_block_trimmed, E.
  - apply extract_og_or_title_trimmed.
Qed.

Lemma raw_title_strip W html :
  strip (or_empty (raw_title W html)) = or_empty (raw_title W html).
Proof.
  destruct (raw_title W html) as [t|] eqn:E; [|reflexivity].
  apply strip_fix. eapply raw_title_trimmed, E.
Qed.

(** ** The length of a returned title *)

Lemma checked_length lo hi s t : checked lo hi s = Some t -> lo <= length t <= hi.
Proof.
  unfold checked. destruct ((lo <=? length s) && (length s <=? hi)) eqn:E;
    [|discriminate].
  intros [= <-]. apply andb_true_iff in E. rewrite !Nat.leb_le in E. exact E.
Qed.

Lemma clean_dish_title_length raw s :
  clean_dish_title raw = Some s -> 2 <= length s <= 60.
Proof.
  unfold clean_dish_title.
  destruct (negb (truthy raw)); [discriminate|].
  destruct (negb (truthy _)); [discriminate|].
  apply checked_length.
Qed.

Lemma finish_title_length title t :
  finish_title title = Some t -> 2 <= length t <= 80.
Proof.
  unfold finish_title.
  destruct (clean_dish_title _) as [c|] eqn:E; [|apply checked_length].
  apply clean_dish_title_length in E.
  destruct c as [|x c]; [simpl in E; lia|].
  cbn [truthy]. intros [= <-]. lia.
Qed.

(* ================================================================= *)
(** ** One run of a lookup *)

Lemma get_og_title_run W url log :
  get_og_title W url log =
  if fetchable W url
  then (Returns (after_open W 240000 (strip url)
                   (fun html => Returns (title_of_html W html))),
        log ++ [strip url])
  else (Returns None, log).
Proof.
  unfold get_og_title, fetchable, after_open.
  destruct (truthy url); [|reflexivity]. simpl.
  destruct (_is_safe_public_http_url W (strip url)); [|reflexivity]. simpl.
  unfold Fetch.catch, Fetch.bind, Fetch.open, Fetch.lift, Fetch.ret.
  destruct (urlopen W (strip url)) as [res|]; [|reflexivity].
  destruct (negb _); [reflexivity|].
  destruct (read 240000 res); reflexivity.
Qed.

Lemma get_og_image_run W url log :
  get_og_image W url log =
  if fetchable W url
  then (Returns (after_open W 220000 (strip url)
                   (image_of_html W (strip url))),
        log ++ [strip url])
  else (Returns None, log).
Proof.
  unfold get_og_image, fetchable, after_open.
  destruct (truthy url); [|reflexivity]. simpl.
  destruct (_is_safe_public_http_url W (strip url)); [|reflexivity]. simpl.
  unfold Fetch.catch, Fetch.bind, Fetch.open, Fetch.lift, Fetch.ret.
  destruct (urlopen W (strip url)) as [res|]; [|reflexivity].
  destruct (negb _); [reflexivity|].
  destruct (read 220000 res); [|reflexivity].
  destruct (image_of_html W _ _); reflexivity.
Qed.

(* ================================================================= *)
(** ** C1: the length of the title that [get_og_title] returns *)

(** C1, as stated, fails: a title of 61 characters is rejected by
    [clean_dish_title] and then returned by the fallback of
    [get_og_title]. *)
Lemma title_longer_than_60 :
  ~ (forall W url log t,
       fst (get_og_title W url log) = Returns (Some t) ->
       2 <= length t <= 60).
Proof.
  intros H.
  specialize (H LongTitle.world LongTitle.url [] LongTitle.title).
  assert (E : fst (get_og_title LongTitle.world LongTitle.url [])
              = Returns (Some LongTitle.title))
    by (vm_compute; reflexivity).
  apply H in E. vm_compute in E. lia.
Qed.

(** C1, amended: a title that [clean_dish_title] returns has between 2
    and 60 characters, and whenever [get_og_title] returns a title, its
    length is between 2 and 80 characters inclusive (up to 80 when it is
    the raw title of the fallback). *)
Theorem get_og_title_length :
  (forall raw s, clean_dish_title raw = Some s -> 2 <= length s <= 60) /\
  (forall W url log t,
     fst (get_og_title W url log) = Returns (Some t) ->
     2 <= length t <= 80).
Proof.
  split; [exact clean_dish_title_length|].
  intros W url log t. rewrite get_og_title_run.
  destruct (fetchable W url); [|discriminate].
  unfold after_open. cbn [fst].
  destruct (urlopen W (strip url)) as [res|]; [|discriminate].
  destruct (negb _); [discriminate|].
  destruct (read 240000 res) as [raw|]; [|discriminate].
  cbn [Exn.catch]. intros [= E]. eapply finish_title_length, E.
Qed.

Lemma get_og_title_length_witness :
  2 <= length (u "鶏の唐揚げ") <= 60 /\ 2 <= length LongTitle.title <= 80.
Proof.
  split.
  - apply (proj1 get_og_title_length (u "  鶏の唐揚げ (2人分) | Foo ")).
    vm_compute. reflexivity.
  - apply (proj2 get_og_title_length LongTitle.world LongTitle.url []).
    vm_compute. reflexivity.
Defined.

(* ================================================================= *)
(** ** C10: the fallback to the raw title *)

(** C10: when [clean_dish_title] rejects the raw extracted title,
    [get_og_title] returns that raw title unchanged if its trimmed length
    is between 2 and 80, and no title otherwise.  The raw title carries no
    surrounding white space, so trimming it changes nothing. *)
Theorem fallback_returns_raw_title W url log res body :
  fetchable W url = true ->
  urlopen W (strip url) = Returns res ->
  str_in (u "text/html") (str_lower W (or_empty (content_type res))) = true ->
  payload res = Returns body ->
  let html := decode_utf8_ignore W (firstn (N.to_nat 240000) body) in
  let raw := or_empty (raw_title W html) in
  clean_dish_title raw = None ->
  strip raw = raw /\
  fst (get_og_title W url log) =
    Returns (if (2 <=? length (strip raw)) && (length (strip raw) <=? 80)
             then Some raw else None).
Proof.
  intros Hf Ho Hc Hp html raw Hclean.
  assert (Hs : strip raw = raw) by apply raw_title_strip.
  split; [exact Hs|].
  rewrite get_og_title_run, Hf. unfold after_open, read.
  rewrite Ho, Hc, Hp. cbn [negb fst Exn.catch].
  unfold title_of_html, finish_title, checked. fold html. fold raw.
  rewrite Hclean, Hs. reflexivity.
Qed.

Lemma fallback_returns_raw_title_witness :
  fst (get_og_title BareMarker.world BareMarker.url []) =
    Returns (Some (u "レシピ")).
Proof.
  refine (proj2 (@fallback_returns_raw_title BareMarker.world BareMarker.url []
            (Mock.html_page BareMarker.page) BareMarker.page _ _ _ _ _));
    vm_compute; reflexivity.
Defined.

(* ================================================================= *)
(** ** C3: the [<title>] fallback on the carbonara page *)

(** C3 on the code: the page's only signal is its [<title>]; the
    extractor returns its text and the normalizer cuts the site name and
    the trailing marker word but keeps the particle before it, so the
    result is not the dish name the claim gives. *)
Theorem carbonara_title :
  extract_og_or_title carbonara_html
    = Some (u "カルボナーラの作り方 - クックパッド") /\
  clean_dish_title (u "カルボナーラの作り方 - クックパッド")
    = Some (u "カルボナーラの") /\
  (forall W, title_of_html W carbonara_html = Some (u "カルボナーラの")) /\
  u "カルボナーラの" <> u "カルボナーラ".
Proof.
  repeat split; try (vm_compute; reflexivity).
  vm_compute. discriminate.
Qed.

(* ================================================================= *)
(** ** C4: the URL safety validator *)

(** C4: the validator answers [False] when the URL does not parse, when
    its scheme is neither [http] nor [https], when it has no host name,
    when the host name is [localhost], when the name does not resolve or
    the answer is no address, and when the address is private, loopback,
    link-local, reserved or multicast; it answers [True] for a web URL
    whose host resolves to an address with none of these properties. *)
Theorem validator_fails_closed W url :
  (urlparse W url = Raises -> _is_safe_public_http_url W url = false) /\
  (forall scheme host,
     urlparse W url = Returns (scheme, host) ->
     (web_scheme scheme = false -> _is_safe_public_http_url W url = false) /\
     (host = None \/ host = Some [] ->
      _is_safe_public_http_url W url = false) /\
     (host = Some (u "localhost") ->
      _is_safe_public_http_url W url = false) /\
     (forall h, host = Some h ->
        gethostbyname W h = Raises ->
        _is_safe_public_http_url W url = false) /\
     (forall h ip, host = Some h ->
        gethostbyname W h = Returns ip -> ip_address W ip = Raises ->
        _is_safe_public_http_url W url = false) /\
     (forall h ip f, host = Some h ->
        gethostbyname W h = Returns ip -> ip_address W ip = Returns f ->
        flagged f = true ->
        _is_safe_public_http_url W url = false) /\
     (forall h ip f, host = Some h ->
        web_scheme scheme = true -> h <> [] -> h <> u "localhost" ->
        gethostbyname W h = Returns ip -> ip_address W ip = Returns f ->
        flagged f = false ->
        _is_safe_public_http_url W url = true)).
Proof.
  unfold _is_safe_public_http_url, web_scheme, flagged. split.
  - intros ->. reflexivity.
  - intros scheme host ->. cbn [Exn.bind Exn.catch].
    destruct (str_eqb scheme (u "http") || str_eqb scheme (u "https")) eqn:Es;
      cbn [negb].
    2: { repeat split; intros; try reflexivity; discriminate. }
    repeat split.
    + discriminate.
    + intros [-> | ->]; reflexivity.
    + intros ->. reflexivity.
    + intros h -> Hr. destruct (negb (truthy h)); [reflexivity|].
      destruct (str_eqb h (u "localhost")); [reflexivity|].
      rewrite Hr. reflexivity.
    + intros h ip -> Hr Hi. destruct (negb (truthy h)); [reflexivity|].
      destruct (str_eqb h (u "localhost")); [reflexivity|].
      rewrite Hr. cbn [Exn.bind]. rewrite Hi. reflexivity.
    + intros h ip f -> Hr Hi Hf. destruct (negb (truthy h)); [reflexivity|].
      destruct (str_eqb h (u "localhost")); [reflexivity|].
      rewrite Hr. cbn [Exn.bind]. rewrite Hi. cbn [Exn.bind].
      rewrite Hf. reflexivity.
    + intros h ip f -> _ Hne Hnl Hr Hi Hf.
      destruct h as [|c h]; [congruence|]. cbn [truthy negb].
      destruct (str_eqb (c :: h) (u "localhost")) eqn:El.
      { apply str_eqb_eq in El. congruence. }
      rewrite Hr. cbn [Exn.bind]. rewrite Hi. cbn [Exn.bind].
      rewrite Hf. reflexivity.
Qed.

(** The rejections and the acceptance of the specification's list, in the
    example world. *)
Lemma validator_fails_closed_witness :
  let W := Mock.world [] [] in
  _is_safe_public_http_url W (u "http://127.0.0.1/") = false /\
  _is_safe_public_http_url W (u "http://10.1.2.3/") = false /\
  _is_safe_public_http_url W (u "http://169.254.169.254/") = false /\
  _is_safe_public_http_url W (u "http://localhost/") = false /\
  _is_safe_public_http_url W (u "ftp://recipes.example/") = false /\
  _is_safe_public_http_url W (u "http://nowhere.invalid/") = false /\
  _is_safe_public_http_url W (u "recipes.example") = false /\
  _is_safe_public_http_url W (u "https://recipes.example/curry") = true /\
  _is_safe_public_http_url W (u "http://[recipes.example/") = false.
Proof.
  intros W.
  pose proof (fun url => proj1 (validator_fails_closed W url)) as Hparse.
  pose proof (fun url => proj2 (validator_fails_closed W url)) as H.
  refine (conj _ (conj _ (conj _ (conj _ (conj _ (conj _ (conj _ (conj _ _)))))))).
  - refine (proj1 (proj2 (proj2 (proj2 (proj2 (proj2
      (H (u "http://127.0.0.1/") (u "http") (Some (u "127.0.0.1")) _))))))
      (u "127.0.0.1") (u "127.0.0.1") (IpFlags true true false false false)
      _ _ _ _); vm_compute; reflexivity.
  - refine (proj1 (proj2 (proj2 (proj2 (proj2 (proj2
      (H (u "http://10.1.2.3/") (u "http") (Some (u "10.1.2.3")) _))))))
      (u "10.1.2.3") (u "10.1.2.3") (IpFlags true false false false false)
      _ _ _ _); vm_compute; reflexivity.
  - refine (proj1 (proj2 (proj2 (proj2 (proj2 (proj2
      (H (u "http://169.254.169.254/") (u "http")
         (Some (u "169.254.169.254")) _))))))
      (u "169.254.169.254") (u "169.254.169.254")
      (IpFlags true false true false false) _ _ _ _); vm_compute; reflexivity.
  - refine (proj1 (proj2 (proj2
      (H (u "http://localhost/") (u "http") (Some (u "localhost")) _))) _);
      vm_compute; reflexivity.
  - refine (proj1
      (H (u "ftp://recipes.example/") (u "ftp") (Some (u "recipes.example")) _)
      _); vm_compute; reflexivity.
  - refine (proj1 (proj2 (proj2 (proj2
      (H (u "http://nowhere.invalid/") (u "http")
         (Some (u "nowhere.invalid")) _))))
      (u "nowhere.invalid") _ _); vm_compute; reflexivity.
  - refine (proj1 (H (u "recipes.example") [] None _) _);
      vm_compute; reflexivity.
  - refine (proj2 (proj2 (proj2 (proj2 (proj2 (proj2
      (H (u "https://recipes.example/curry") (u "https")
         (Some (u "recipes.example")) _))))))
      (u "recipes.example") (u "93.184.216.34")
      (IpFlags false false false false false) _ _ _ _ _ _ _);
      try (vm_compute; reflexivity); vm_compute; discriminate.
  - apply Hparse. vm_compute. reflexivity.
Defined.

(* ================================================================= *)
(** ** C7: category labels *)

Lemma nodupb_NoDup l : nodupb l = true -> NoDup l.
Proof.
  induction l as [|x l IH]; simpl; [constructor|].
  rewrite andb_true_iff, negb_true_iff. intros [Hx Hl].
  constructor; [|auto].
  intros Hin. assert (existsb (str_eqb x) l = true); [|congruence].
  apply existsb_exists. exists x. split; [exact Hin|]. apply str_eqb_eq.
  reflexivity.
Qed.

Lemma in_keys_In cat : in_keys cat = true -> In cat CATEGORY_KEYS.
Proof.
  unfold in_keys. rewrite existsb_exists. intros [k [Hk E]].
  apply str_eqb_eq in E. subst. exact Hk.
Qed.

Lemma label_of_cons ks label rest t d :
  label_of d (find (fun r => any_in (fst r) t) ((ks, label) :: rest)) =
  if any_in ks t then label
  else label_of d (find (fun r => any_in (fst r) t) rest).
Proof. cbn [find fst]. destruct (any_in ks t); reflexivity. Qed.

Lemma any_in_one k t : any_in [k] t = str_in k t.
Proof. unfold any_in. cbn [existsb]. apply orb_false_r. Qed.

Lemma guess_category_by_rules W text :
  guess_category_from_text W text = classify_by_rules (str_lower W text).
Proof.
  unfold classify_by_rules.
  change (guess_category_from_text W text =
          label_of DEFAULT_CATEGORY
            (find (fun r => any_in (fst r) (str_lower W text)) RULES)).
  unfold RULES. rewrite !label_of_cons, any_in_one. reflexivity.
Qed.

Lemma classify_by_rules_in_keys t : In (classify_by_rules t) CATEGORY_KEYS.
Proof.
  unfold classify_by_rules.
  destruct (find _ RULES) as [r|] eqn:E.
  - apply find_some in E. destruct E as [Hr _].
    assert (F : forallb (fun r => in_keys (snd r)) RULES = true)
      by (vm_compute; reflexivity).
    rewrite forallb_forall in F. apply in_keys_In, F, Hr.
  - apply in_keys_In. vm_compute. reflexivity.
Qed.

(** C7, as stated, fails for [normalize_category]: a key with a space
    before it is outside the set, yet it is mapped to the key and not to
    the other-key. *)
Lemma padded_key_is_not_other :
  ~ (forall cat, in_keys cat = false -> normalize_category cat = u "その他").
Proof.
  intros H. specialize (H (u " パスタ")).
  assert (E : normalize_category (u " パスタ") = u "パスタ")
    by (vm_compute; reflexivity).
  rewrite E in H. vm_compute in H. specialize (H eq_refl). discriminate.
Qed.

(** C7, amended: every label produced by the classifier or by
    [normalize_category] is one of the 19 distinct category keys; the
    classifier returns the label of the first rule, in declared order, one
    of whose keywords occurs in the lower-cased text, and the default key
    when no rule matches; [normalize_category] first replaces ideographic
    spaces and trims the string, returns the result when it is a key and
    the other-key when it is not. *)
Theorem category_labels_closed :
  length CATEGORY_KEYS = 19 /\ NoDup CATEGORY_KEYS /\
  In DEFAULT_CATEGORY CATEGORY_KEYS /\ In (u "その他") CATEGORY_KEYS /\
  (forall W text,
     In (guess_category_from_text W text) CATEGORY_KEYS /\
     guess_category_from_text W text =
       match find (fun r => any_in (fst r) (str_lower W text)) RULES with
       | Some r => snd r
       | None => DEFAULT_CATEGORY
       end) /\
  (forall cat,
     In (normalize_category cat) CATEGORY_KEYS /\
     normalize_category cat =
       if in_keys (normalize_spaces cat) then normalize_spaces cat
       else u "その他").
Proof.
  split; [reflexivity|].
  split; [apply nodupb_NoDup; vm_compute; reflexivity|].
  split; [apply in_keys_In; vm_compute; reflexivity|].
  split; [apply in_keys_In; vm_compute; reflexivity|].
  split.
  - intros W text. rewrite guess_category_by_rules.
    split; [apply classify_by_rules_in_keys|reflexivity].
  - intros cat. split; [|reflexivity].
    unfold normalize_category.
    destruct (in_keys (normalize_spaces cat)) eqn:E.
    + apply in_keys_In, E.
    + apply in_keys_In. vm_compute. reflexivity.
Qed.

(* ================================================================= *)
(** ** C5: the JSON-LD recipe name *)

Lemma recipe_name_of_qualifies obj :
  recipe_name_of obj = if qualifies obj then option_map strip (name_of obj) else None.
Proof.
  unfold recipe_name_of, qualifies, has_recipe_type, name_of.
  destruct (existsb is_recipe_type (types_of obj)); [|reflexivity].
  destruct (dict_get (u "name") obj) as [[| | | n | |]|]; reflexivity.
Qed.

Lemma qualifies_named obj : qualifies obj = true -> trimmed_name (Some obj) <> None.
Proof.
  unfold qualifies, trimmed_name, name_of.
  destruct (dict_get (u "name") obj) as [[| | | n | |]|];
    rewrite ?andb_false_r; cbn [or_empty strip truthy]; try discriminate;
    rewrite ?andb_false_r; discriminate.
Qed.

Lemma first_name_find objs : first_name objs = trimmed_name (find qualifies objs).
Proof.
  induction objs as [|obj objs IH]; [reflexivity|].
  cbn [first_name find]. rewrite recipe_name_of_qualifies.
  destruct (qualifies obj) eqn:Q; [|exact IH].
  pose proof (qualifies_named obj Q) as N. cbn [trimmed_name] in *.
  destruct (option_map strip (name_of obj)); [reflexivity|congruence].
Qed.

Lemma find_app {A} (f : A -> bool) (l1 l2 : list A) :
  find f (l1 ++ l2) =
  match find f l1 with Some x => Some x | None => find f l2 end.
Proof.
  induction l1 as [|x l1 IH]; [reflexivity|].
  simpl. destruct (f x); [reflexivity|exact IH].
Qed.

Lemma block_name_candidates W mt :
  block_name W mt = first_name (block_candidates W mt).
Proof.
  unfold block_name, block_candidates.
  destruct (negb _); [reflexivity|].
  destruct (json_loads W _); reflexivity.
Qed.

Lemma first_block_find W ms :
  first_block W ms = trimmed_name (find qualifies (flat_map (block_candidates W) ms)).
Proof.
  induction ms as [|mt ms IH]; [reflexivity|].
  cbn [first_block flat_map]. rewrite find_app, block_name_candidates,
    first_name_find.
  destruct (find qualifies (block_candidates W mt)) as [obj|] eqn:F.
  - apply find_some in F. destruct F as [_ Q].
    pose proof (qualifies_named obj Q) as N.
    destruct (trimmed_name (Some obj)); [reflexivity|congruence].
  - exact IH.
Qed.

(** C5, as stated, fails: a name of one space is a non-empty string, yet
    the code passes over that candidate and returns the next name. *)
Lemma blank_name_is_skipped :
  claimed_recipe_name BlankName.world BlankName.html = Some (u " ") /\
  extract_recipe_name_from_jsonld BlankName.world BlankName.html
    = Some (u "親子丼").
Proof. split; vm_compute; reflexivity. Qed.

(** C5, amended: the extractor returns the trimmed name of the first
    candidate, in document order of the script blocks and object, then
    [@graph] or list order within a block, skipping blank and malformed
    blocks, whose [@type] is or contains the string Recipe and whose name
    is a string that is not empty once trimmed; the title pipeline takes
    this name before any meta tag, so the page naming the Recipe
    鶏の唐揚げ yields that title whatever its [og:title]. *)
Theorem jsonld_name_wins :
  (forall W html,
     extract_recipe_name_from_jsonld W html =
     match find qualifies (all_candidates W html) with
     | Some obj => option_map strip (name_of obj)
     | None => None
     end) /\
  (forall W html n,
     extract_recipe_name_from_jsonld W html = Some n ->
     raw_title W html = Some n /\
     title_of_html W html = finish_title (Some n)) /\
  (forall W,
     json_loads W Karaage.blob = Returns Karaage.data ->
     extract_recipe_name_from_jsonld W Karaage.html = Some (u "鶏の唐揚げ") /\
     title_of_html W Karaage.html = Some (u "鶏の唐揚げ")).
Proof.
  assert (P2 : forall W html n,
     extract_recipe_name_from_jsonld W html = Some n ->
     raw_title W html = Some n /\
     title_of_html W html = finish_title (Some n)).
  { intros W html n E.
    assert (R : raw_title W html = Some n).
    { unfold raw_title. rewrite E.
      unfold extract_recipe_name_from_jsonld in E.
      rewrite first_block_find in E.
      destruct (find qualifies _) as [obj|] eqn:F; [|discriminate].
      apply find_some in F. destruct F as [_ Q].
      unfold qualifies in Q. apply andb_true_iff in Q. destruct Q as [_ Q].
      cbn [trimmed_name] in E. destruct (name_of obj) as [x|]; [|discriminate].
      cbn [option_map or_empty] in *. injection E as <-. rewrite Q.
      reflexivity. }
    split; [exact R|]. unfold title_of_html. rewrite R. reflexivity. }
  split; [|split; [exact P2|]].
  - intros W html. unfold extract_recipe_name_from_jsonld.
    rewrite first_block_find. reflexivity.
  - intros W H.
    assert (E : extract_recipe_name_from_jsonld W Karaage.html
                = Some (u "鶏の唐揚げ")).
    { unfold extract_recipe_name_from_jsonld.
      let v := eval vm_compute in (finditer jsonld_script_re Karaage.html) in
      assert (Ef : finditer jsonld_script_re Karaage.html = v)
        by (vm_compute; reflexivity);
      rewrite Ef.
      cbn [first_block]. unfold block_name.
      match goal with |- context [strip (group1 ?mt)] =>
        assert (Eb : strip (group1 mt) = Karaage.blob)
          by (vm_compute; reflexivity);
        rewrite Eb
      end.
      rewrite H. vm_compute. reflexivity. }
    split; [exact E|].
    rewrite (proj2 (P2 W Karaage.html _ E)). vm_compute. reflexivity.
Qed.

Lemma jsonld_name_wins_witness :
  title_of_html Karaage.world Karaage.html = Some (u "鶏の唐揚げ").
Proof.
  refine (proj2 (proj2 (proj2 jsonld_name_wins) Karaage.world _)).
  vm_compute. reflexivity.
Defined.

(* ================================================================= *)
(** ** C6: the priority of the meta tag sources *)

(** C6, as stated, fails: with a blank [og:title] the first non-empty
    source is [twitter:title], but the code goes to the [<title>] element
    (a lower-priority source, consulted although [og:title] matched); with
    a blank [og:image] the code gives up instead of taking
    [twitter:image]. *)
Lemma blank_og_shadows_twitter :
  claimed_meta_title BlankOg.html = Some (u "親子丼") /\
  extract_og_or_title BlankOg.html = Some (u "Foo Blog") /\
  claimed_image_content BlankOg.html = Some (u "https://img.example/oyako.jpg") /\
  image_content BlankOg.html = None.
Proof. repeat split; vm_compute; reflexivity. Qed.

Lemma image_match_first html : image_match html = first_match IMAGE_PATTERNS html.
Proof.
  unfold image_match, search2, IMAGE_PATTERNS. cbn [first_match].
  repeat match goal with
  | |- context [search ?p html] => destruct (search p html); try reflexivity
  end.
Qed.

Lemma image_of_html_content W page_url html :
  image_of_html W page_url html =
  match image_content html with
  | None => Returns None
  | Some img =>
    (img <- urljoin W page_url img ;;
     if negb (starts_with (u "http://") img || starts_with (u "https://") img)
     then Returns None
     else Returns (Some img))%exn
  end.
Proof.
  unfold image_of_html, image_content.
  destruct (image_match html) as [mt|]; [|reflexivity].
  destruct (truthy (strip (group1 mt))); reflexivity.
Qed.

Lemma first_non_empty_strip_title html :
  first_non_empty [title_element html] = title_element html.
Proof.
  cbn [first_non_empty]. destruct (title_element html) as [t|] eqn:E;
    [|reflexivity].
  unfold title_element in E. destruct (search title_re html); [|discriminate].
  destruct (truthy _) eqn:T; [|discriminate].
  injection E as <-. rewrite T. reflexivity.
Qed.

Lemma nested_search_first (p1 p2 p3 p4 : re) (html : str) :
  match search2 p1 p2 html with
  | Some mt => Some mt
  | None => search2 p3 p4 html
  end = first_match [p1; p2; p3; p4] html.
Proof.
  unfold search2. cbn [first_match].
  destruct (search p1 html); [reflexivity|].
  destruct (search p2 html); [reflexivity|].
  destruct (search p3 html); [reflexivity|].
  destruct (search p4 html); reflexivity.
Qed.

Lemma first_match_split (p1 p2 p3 p4 : re) (html : str) :
  first_match [p1; p2; p3; p4] html =
  match first_match [p1; p2] html with
  | Some mt => Some mt
  | None => first_match [p3; p4] html
  end.
Proof.
  cbn [first_match].
  destruct (search p1 html); [reflexivity|].
  destruct (search p2 html); reflexivity.
Qed.

Lemma nested_title_first (p1 p2 p3 p4 : re) (html : str) :
  (let m0 := search2 p1 p2 html in
   let m1 := match m0 with
             | Some _ => m0
             | None => search2 p3 p4 html
             end in
   match m1 with
   | Some mt =>
     let t := strip (group1 mt) in
     if truthy t then Some t else title_element html
   | None => title_element html
   end) =
  match first_match [p1; p2; p3; p4] html with
  | Some mt =>
    if truthy (strip (group1 mt)) then Some (strip (group1 mt))
    else title_element html
  | None => title_element html
  end.
Proof.
  rewrite <- nested_search_first. cbv zeta.
  destruct (search2 p1 p2 html); reflexivity.
Qed.

(** With no blank deciding content, the first match in pattern order is
    the first non-empty source in priority order. *)
Lemma first_match_first_non_empty (p1 p2 p3 p4 : re) (html : str)
    (last : option str) :
  first_non_empty [last] = last ->
  (forall mt, first_match [p1; p2; p3; p4] html = Some mt ->
              truthy (strip (group1 mt)) = true) ->
  match first_match [p1; p2; p3; p4] html with
  | Some mt =>
    if truthy (strip (group1 mt)) then Some (strip (group1 mt)) else last
  | None => last
  end =
  first_non_empty
    [ meta_content [p1; p2] html; meta_content [p3; p4] html; last ].
Proof.
  intros Hlast H. unfold meta_content. rewrite first_match_split in *.
  destruct (first_match [p1; p2] html) as [mt|].
  - rewrite (H mt eq_refl). cbn [option_map first_non_empty].
    rewrite (H mt eq_refl). reflexivity.
  - cbn [option_map first_non_empty].
    destruct (first_match [p3; p4] html) as [mt|].
    + rewrite (H mt eq_refl). cbn [option_map first_non_empty].
      rewrite (H mt eq_refl). reflexivity.
    + cbn [option_map]. symmetry. exact Hlast.
Qed.

Lemma extract_og_or_title_first html :
  extract_og_or_title html =
  match first_match TITLE_PATTERNS html with
  | Some mt =>
    if truthy (strip (group1 mt)) then Some (strip (group1 mt))
    else title_element html
  | None => title_element html
  end.
Proof.
  exact (nested_title_first _ _ _ _ html).
Qed.

Lemma image_content_first html :
  image_content html =
  match first_match IMAGE_PATTERNS html with
  | Some mt =>
    if truthy (strip (group1 mt)) then Some (strip (group1 mt)) else None
  | None => None
  end.
Proof. unfold image_content. rewrite image_match_first. reflexivity. Qed.

Lemma after_open_page W limit url A (extract : str -> outcome (option A)) res body :
  urlopen W url = Returns res ->
  str_in (u "text/html") (str_lower W (or_empty (content_type res))) = true ->
  payload res = Returns body ->
  after_open W limit url extract =
  Exn.catch (extract (decode_utf8_ignore W (firstn (N.to_nat limit) body))) None.
Proof. unfold after_open, read. intros -> -> ->. reflexivity. Qed.

Lemma image_of_html_resolved W page_url html :
  image_of_html W page_url html
  = resolved_image W page_url (image_content html).
Proof.
  rewrite image_of_html_content. unfold resolved_image.
  destruct (image_content html) as [ref|]; [|reflexivity].
  destruct (urljoin W page_url ref) as [img|]; [|reflexivity].
  cbn [Exn.bind]. destruct (_ || _); reflexivity.
Qed.

(** C6, amended: each extractor tries its patterns in a fixed order
    (og key-first, og content-first, twitter key-first, twitter
    content-first; the twitter image key is [twitter:image] or
    [twitter:image:src]), matching case-insensitively, and the first
    pattern that matches anywhere in the page decides: no later pattern is
    consulted.  For the title, its trimmed content is the result when it
    is not empty; when it is empty or no pattern matches, the title
    extractor returns the [<title>] text with white space collapsed and
    trimmed.  For the image, its trimmed content, when not empty, is the
    image reference of the page; the image lookup resolves it against the
    page URL with [urljoin] and returns the resolved reference when it
    starts with [http://] or [https://], and nothing when it does not,
    when [urljoin] raises, when the content is empty or when no pattern
    matches.  Whenever the deciding content is not blank, the title and
    the image reference are the first non-empty source in priority
    order. *)
Theorem meta_sources_priority :
  (forall html,
     extract_og_or_title html =
     match first_match TITLE_PATTERNS html with
     | Some mt =>
       if truthy (strip (group1 mt)) then Some (strip (group1 mt))
       else title_element html
     | None => title_element html
     end) /\
  (forall html,
     title_element html =
     match search title_re html with
     | Some mt =>
       let t := sub (plus is_space) (u " ") (strip (group1 mt)) in
       if truthy t then Some t else None
     | None => None
     end) /\
  (forall html t, title_element html = Some t -> strip t = t) /\
  (forall html,
     image_content html =
     match first_match IMAGE_PATTERNS html with
     | Some mt =>
       if truthy (strip (group1 mt)) then Some (strip (group1 mt)) else None
     | None => None
     end) /\
  (forall W page_url html,
     image_of_html W page_url html
     = resolved_image W page_url (image_content html)) /\
  (forall W url log res body,
     fetchable W url = true ->
     urlopen W (strip url) = Returns res ->
     str_in (u "text/html") (str_lower W (or_empty (content_type res))) = true ->
     payload res = Returns body ->
     fst (get_og_image W url log)
     = Returns
         (Exn.catch
            (resolved_image W (strip url)
               (image_content
                  (decode_utf8_ignore W (firstn (N.to_nat 220000) body))))
            None)) /\
  (forall html,
     (forall mt, first_match TITLE_PATTERNS html = Some mt ->
                 truthy (strip (group1 mt)) = true) ->
     extract_og_or_title html = claimed_meta_title html) /\
  (forall W page_url html,
     (forall mt, first_match IMAGE_PATTERNS html = Some mt ->
                 truthy (strip (group1 mt)) = true) ->
     image_content html = claimed_image_content html /\
     image_of_html W page_url html
     = resolved_image W page_url (claimed_image_content html)) /\
  extract_og_or_title UpperMeta.html = Some (u "肉じゃが") /\
  image_content UpperMeta.html = Some (u "/img/niku.jpg") /\
  image_of_html (Mock.world [] []) (u "https://recipes.example/washoku/niku")
                UpperMeta.html
  = Returns (Some (u "https://recipes.example/img/niku.jpg")) /\
  image_content DataImage.html = Some (u "data:image/png;base64,AAAA") /\
  image_of_html (Mock.world [] []) (u "https://recipes.example/washoku/niku")
                DataImage.html
  = Returns None /\
  extract_og_or_title UpperMeta.title_only = Some (u "肉じゃが の 作り方").
Proof.
  split; [exact extract_og_or_title_first|].
  split; [reflexivity|].
  split; [intros html t E; apply strip_fix; eapply title_element_trimmed, E|].
  split; [exact image_content_first|].
  split; [exact image_of_html_resolved|].
  split.
  { intros W url log res body Hf Ho Hc Hp.
    rewrite get_og_image_run, Hf. cbn [fst].
    rewrite (@after_open_page W 220000 (strip url) _ _ res body Ho Hc Hp).
    rewrite image_of_html_resolved. reflexivity. }
  split.
  { intros html H. rewrite extract_og_or_title_first.
    apply (@first_match_first_non_empty _ _ _ _ html (title_element html));
      [apply first_non_empty_strip_title|exact H]. }
  split.
  { intros W page_url html H.
    assert (E : image_content html = claimed_image_content html).
    { rewrite image_content_first.
      exact (@first_match_first_non_empty _ _ _ _ html None eq_refl H). }
    split; [exact E|]. rewrite image_of_html_resolved, E. reflexivity. }
  repeat split; vm_compute; reflexivity.
Qed.

Lemma meta_sources_priority_witness :
  extract_og_or_title Karaage.html = claimed_meta_title Karaage.html /\
  (image_content UpperMeta.html = claimed_image_content UpperMeta.html /\
   image_of_html (Mock.world [] []) (u "https://recipes.example/washoku/niku")
                 UpperMeta.html
   = resolved_image (Mock.world [] [])
       (u "https://recipes.example/washoku/niku")
       (claimed_image_content UpperMeta.html)) /\
  fst (get_og_image NikuPage.world NikuPage.url [])
  = Returns
      (Exn.catch
         (resolved_image NikuPage.world (strip NikuPage.url)
            (image_content
               (decode_utf8_ignore NikuPage.world
                  (firstn (N.to_nat 220000) NikuPage.page))))
         None) /\
  fst (get_og_image NikuPage.world NikuPage.url [])
  = Returns (Some (u "https://recipes.example/img/niku.jpg")).
Proof.
  refine (conj _ (conj _ (conj _ _))).
  - refine (proj1 (proj2 (proj2 (proj2 (proj2 (proj2 (proj2
              meta_sources_priority))))))
              Karaage.html _).
    intros mt E. vm_compute in E. injection E as <-. vm_compute. reflexivity.
  - refine (proj1 (proj2 (proj2 (proj2 (proj2 (proj2 (proj2 (proj2
              meta_sources_priority)))))))
              (Mock.world [] []) (u "https://recipes.example/washoku/niku")
              UpperMeta.html _).
    intros mt E. vm_compute in E. injection E as <-. vm_compute. reflexivity.
  - refine (proj1 (proj2 (proj2 (proj2 (proj2 (proj2
              meta_sources_priority)))))
              NikuPage.world NikuPage.url []
              (Mock.html_page NikuPage.page) NikuPage.page _ _ _ _);
      vm_compute; reflexivity.
  - vm_compute. reflexivity.
Defined.

(* ================================================================= *)
(** ** C9: failures never reach the caller *)

(** C9, as stated, fails for the oversized body: the lookup reads the
    first 240000 bytes and extracts from them, so it returns a title and
    not [None]. *)
Lemma oversized_body_yields_title :
  (240000 < N.of_nat (length Oversized.body))%N /\
  fst (get_og_title Oversized.world Oversized.url [])
    = Returns (Some (u "親子丼")).
Proof. split; vm_compute; reflexivity. Qed.

Lemma after_open_raises W limit url A (extract : str -> outcome (option A)) :
  urlopen W url = Raises -> after_open W limit url extract = None.
Proof. unfold after_open. intros ->. reflexivity. Qed.

Lemma after_open_not_html W limit url A (extract : str -> outcome (option A)) res :
  urlopen W url = Returns res ->
  str_in (u "text/html") (str_lower W (or_empty (content_type res))) = false ->
  after_open W limit url extract = None.
Proof. unfold after_open. intros -> ->. reflexivity. Qed.

Lemma after_open_read_fails W limit url A (extract : str -> outcome (option A)) res :
  urlopen W url = Returns res -> payload res = Raises ->
  after_open W limit url extract = None.
Proof.
  unfold after_open, read. intros -> ->. destruct (negb _); reflexivity.
Qed.

Lemma malformed_blocks_skipped W ms :
  (forall blob, json_loads W blob = Raises) -> first_block W ms = None.
Proof.
  intros H. induction ms as [|mt ms IH]; [reflexivity|].
  cbn [first_block]. unfold block_name. rewrite H.
  destruct (negb _); exact IH.
Qed.

Lemma empty_text_default W :
  str_lower W [] = [] -> guess_category_from_text W [] = DEFAULT_CATEGORY.
Proof.
  intros H. unfold guess_category_from_text. rewrite H.
  vm_compute. reflexivity.
Qed.

(** C9, amended: for every world and every URL, [get_og_title] and
    [get_og_image] return and never raise.  An empty URL, an unsafe
    target, a request that fails (network error, timeout, error status),
    a content type other than HTML, a body that cannot be read, a page
    without an extractable signal, and for the image a reference that
    cannot be joined, all yield [None].  An oversized body is cut at the
    read ceiling and a malformed one is decoded leniently, JSON-LD blocks
    that do not parse are skipped, and extraction goes on with what
    remains.  Classifying the absent title yields the default category. *)
Theorem lookups_never_raise W url log :
  (exists r log', get_og_title W url log = (Returns r, log')) /\
  (exists r log', get_og_image W url log = (Returns r, log')) /\
  (fetchable W url = false ->
   get_og_title W url log = (Returns None, log) /\
   get_og_image W url log = (Returns None, log)) /\
  (urlopen W (strip url) = Raises ->
   fst (get_og_title W url log) = Returns None /\
   fst (get_og_image W url log) = Returns None) /\
  (forall res,
     urlopen W (strip url) = Returns res ->
     str_in (u "text/html") (str_lower W (or_empty (content_type res))) = false
       \/ payload res = Raises ->
     fst (get_og_title W url log) = Returns None /\
     fst (get_og_image W url log) = Returns None) /\
  (forall res body,
     fetchable W url = true ->
     urlopen W (strip url) = Returns res ->
     str_in (u "text/html") (str_lower W (or_empty (content_type res))) = true ->
     payload res = Returns body ->
     fst (get_og_title W url log) =
       Returns (title_of_html W
                  (decode_utf8_ignore W (firstn (N.to_nat 240000) body))) /\
     fst (get_og_image W url log) =
       Returns (Exn.catch
                  (image_of_html W (strip url)
                     (decode_utf8_ignore W (firstn (N.to_nat 220000) body)))
                  None)) /\
  (forall html, raw_title W html = None -> title_of_html W html = None) /\
  (forall html,
     (forall blob, json_loads W blob = Raises) ->
     extract_recipe_name_from_jsonld W html = None) /\
  (forall html,
     image_content html = None -> image_of_html W (strip url) html = Returns None) /\
  (str_lower W [] = [] -> suggested_category W None = DEFAULT_CATEGORY).
Proof.
  rewrite get_og_title_run, get_og_image_run.
  split; [destruct (fetchable W url); eauto|].
  split; [destruct (fetchable W url); eauto|].
  split; [intros ->; split; reflexivity|].
  split.
  { intros H. destruct (fetchable W url); cbn [fst]; [|split; reflexivity].
    rewrite !after_open_raises by exact H. split; reflexivity. }
  split.
  { intros res Ho H.
    destruct (fetchable W url); cbn [fst]; [|split; reflexivity].
    destruct H as [H|H].
    - rewrite !(after_open_not_html _ _ _ _ Ho H). split; reflexivity.
    - rewrite !(after_open_read_fails _ _ _ _ Ho H). split; reflexivity. }
  split.
  { intros res body -> Ho Hc Hp. cbn [fst].
    rewrite !(after_open_page _ _ _ _ Ho Hc Hp). split; reflexivity. }
  split.
  { intros html H. unfold title_of_html. rewrite H. reflexivity. }
  split.
  { intros html H. apply malformed_blocks_skipped, H. }
  split.
  { intros html H. rewrite image_of_html_content, H. reflexivity. }
  apply empty_text_default.
Qed.

Lemma lookups_never_raise_witness :
  let W := Mock.world [] [] in
  (get_og_title W (u "http://127.0.0.1/") [] = (Returns None, []) /\
   get_og_image W (u "http://127.0.0.1/") [] = (Returns None, [])) /\
  (fst (get_og_title W (u "https://recipes.example/gone") []) = Returns None /\
   fst (get_og_image W (u "https://recipes.example/gone") []) = Returns None) /\
  suggested_category W None = DEFAULT_CATEGORY.
Proof.
  intros W. split; [|split].
  - refine (proj1 (proj2 (proj2
              (lookups_never_raise W (u "http://127.0.0.1/") []))) _).
    vm_compute. reflexivity.
  - refine (proj1 (proj2 (proj2 (proj2
              (lookups_never_raise W (u "https://recipes.example/gone") []))))
              _).
    vm_compute. reflexivity.
  - refine (proj2 (proj2 (proj2 (proj2 (proj2 (proj2 (proj2 (proj2 (proj2
              (lookups_never_raise W [] []))))))))) _).
    reflexivity.
Defined.

(* ================================================================= *)
(** ** C8: the two memoizing caches *)

Module LruFacts.
Import Lru.

Section Wrapped.
Variable V : Type.
Variable maxsize : nat.
Hypothesis maxsize_pos : 0 < maxsize.

(** The wrapped function returns [val k] and requests the pages [cost k]. *)
Variable f : str -> M V.
Variable val : str -> V.
Variable cost : str -> list str.
Hypothesis f_runs : forall k log, f k log = (Returns (val k), log ++ cost k).


Lemma str_eqb_neq (a b : str) : a <> b -> str_eqb a b = false.
Proof.
  intros H. destruct (str_eqb a b) eqn:E; [|reflexivity].
  apply str_eqb_eq in E. contradiction.
Qed.








Lemma insert_length (k : str) (v : V) (c : cache V) :
  length c <= maxsize -> length (insert maxsize k v c) <= maxsize.
Proof.
  intros H. unfold insert. rewrite length_app. simpl.
  destruct (maxsize <=? length c) eqn:E.
  - apply Nat.leb_le in E. destruct c; simpl in *; lia.
  - apply Nat.leb_gt in E. lia.
Qed.

Lemma remove_length (k : str) (v : V) (c : cache V) :
  lookup k c = Some v -> length (remove k c ++ [(k, v)]) = length c.
Proof.
  intros H. rewrite length_app. simpl.
  induction c as [|[k' v'] c IH]; simpl in *; [discriminate|].
  destruct (str_eqb k k'); simpl; [lia|].
  specialize (IH H). lia.
Qed.






End Wrapped.

End LruFacts.

Lemma get_og_title_runs W url log :
  get_og_title W url log = (Returns (title_value W url), log ++ fetches W url).
Proof.
  rewrite get_og_title_run. unfold title_value, fetches.
  destruct (fetchable W url); [reflexivity|]. rewrite app_nil_r. reflexivity.
Qed.
















(* ================================================================= *)
(** ** C2: cleaning a clean title *)

(** C2, as stated, fails: a noise word is removed only where the single
    pass of its step finds it at an end of the title, so the word that
    stripping another word brings to the front is left for a second
    application. *)
Lemma clean_not_idempotent :
  ~ (forall x s, clean_dish_title x = Some s -> clean_dish_title s = Some s).
Proof.
  intros H.
  assert (E : clean_dish_title (u "簡単レシピカレー") = Some (u "レシピカレー"))
    by (vm_compute; reflexivity).
  apply H in E. vm_compute in E. discriminate.
Qed.

Lemma forallb_forall_plain (t : str) :
  forallb plain_char t = true -> Forall (fun c => plain_char c = true) t.
Proof. intros H. apply Forall_forall. apply forallb_forall. exact H. Qed.

Module Affix.
Import ReFacts.

Lemma plain_no_space l : plain l -> no_space l.
Proof.
  apply Forall_impl. intros c H. unfold plain_char in H.
  apply negb_true_iff in H. rewrite !orb_false_iff in H. tauto.
Qed.

(** A plain character is none of the characters of a class made of
    characters that are not plain. *)
Lemma plain_not_mem c cs :
  plain_char c = true -> forallb (fun x => negb (plain_char x)) cs = true ->
  mem c cs = false.
Proof.
  intros Hc. induction cs as [|x cs IH]; [reflexivity|].
  cbn [forallb mem existsb]. rewrite andb_true_iff, negb_true_iff.
  intros [Hx Hcs]. rewrite orb_false_iff. split; [|apply IH, Hcs].
  apply N.eqb_neq. intros ->. congruence.
Qed.

Lemma plain_not_eq c x :
  plain_char c = true -> plain_char x = false -> (x =? c)%N = false.
Proof. intros Hc Hx. apply N.eqb_neq. intros ->. congruence. Qed.

Lemma no_space_head l : no_space l -> head_ok is_space l.
Proof. intros H. destruct H; simpl; auto. Qed.

Lemma no_space_skipn n l : no_space l -> no_space (skipn n l).
Proof.
  revert l. induction n as [|n IH]; intros l H; [exact H|].
  destruct H; simpl; [constructor|apply IH; assumption].
Qed.

Lemma starts_with_split w : forall l,
  starts_with w l = true -> l = w ++ skipn (length w) l.
Proof.
  induction w as [|a w IH]; intros l H; [reflexivity|].
  destruct l as [|b l]; [discriminate|]. simpl in H.
  apply andb_true_iff in H. destruct H as [E H]. apply N.eqb_eq in E. subst.
  simpl. f_equal. apply IH, H.
Qed.

Lemma starts_with_extend a : forall b x,
  starts_with a b = true -> starts_with a (b ++ x) = true.
Proof.
  induction a as [|c a IH]; intros b x H; [reflexivity|].
  destruct b as [|d b]; [discriminate|]. simpl in *.
  apply andb_true_iff in H. destruct H as [E H]. rewrite E. simpl.
  apply IH, H.
Qed.

Lemma starts_with_refl a : starts_with a a = true.
Proof. induction a as [|c a IH]; simpl; [reflexivity|]. rewrite N.eqb_refl. exact IH. Qed.

Lemma ends_with_tail w c l : ends_with w (c :: l) = false -> ends_with w l = false.
Proof.
  unfold ends_with. simpl. intros H.
  destruct (starts_with (rev w) (rev l)) eqn:E; [|reflexivity].
  rewrite (starts_with_extend _ _ [c] E) in H. discriminate.
Qed.

Lemma m_eol pos l caps k :
  m Eol (Cursor pos l caps) k =
  match l with
  | [] => k (Cursor pos l caps)
  | [c] => if (c =? 10)%N then k (Cursor pos l caps) else None
  | _ => None
  end.
Proof. reflexivity. Qed.

Lemma m_bol pos l caps k :
  m Bol (Cursor pos l caps) k =
  if pos =? 0 then k (Cursor pos l caps) else None.
Proof. reflexivity. Qed.

(** [w$] cannot match inside a string without white space that does not
    end with [w]. *)
Lemma suffix_fails w l pos caps k :
  no_space l -> ends_with w l = false ->
  m (Seq (lit w) Eol) (Cursor pos l caps) k = None.
Proof.
  intros Hs He. rewrite m_seq, m_lit.
  destruct (starts_with w l) eqn:E; [|reflexivity].
  apply starts_with_split in E. rewrite m_eol.
  destruct (skipn (length w) l) as [|c [|d r]] eqn:R; [| |reflexivity].
  - rewrite app_nil_r in E. subst l. unfold ends_with in He.
    rewrite starts_with_refl in He. discriminate.
  - assert (Hc : is_space c = false).
    { pose proof (no_space_skipn (length w) Hs) as F. rewrite R in F.
      inversion F. assumption. }
    destruct (c =? 10)%N eqn:E10; [|reflexivity].
    apply N.eqb_eq in E10. subst c. discriminate.
Qed.

Section Untouched.
Variable t : str.
Hypothesis t_no_space : no_space t.

(** [re.sub] with a pattern anchored at the end, on a title that does not
    end with the word. *)
Lemma sub_suffix (w : str) (r : re) :
  (forall pos l caps k, no_space l ->
     m r (Cursor pos l caps) k = m (Seq (lit w) Eol) (Cursor pos l caps) k) ->
  ends_with w t = false ->
  sub r [] t = t.
Proof.
  intros Hr He.
  apply sub_none with (P := fun l _ => no_space l /\ ends_with w l = false).
  - intros c l pos [Hs Hw]. split.
    + inversion Hs; assumption.
    + eapply ends_with_tail, Hw.
  - intros l pos [Hs Hw]. apply try_at_fail. intros k.
    rewrite Hr by exact Hs. apply suffix_fails; assumption.
  - split; assumption.
Qed.

(** [re.sub] with a pattern anchored at the start, on a title that does
    not start with the word. *)
Lemma sub_prefix (w : str) (post : re) :
  starts_with w t = false ->
  sub (Seq Bol (Seq (lit w) post)) [] t = t.
Proof.
  intros Hw.
  apply sub_none with (P := fun l pos => pos = 0 -> starts_with w l = false).
  - intros c l pos _ H. discriminate.
  - intros l pos H. apply try_at_fail. intros k.
    rewrite m_seq, m_bol. destruct pos as [|pos]; [|reflexivity].
    cbn [Nat.eqb]. rewrite m_seq, m_lit, (H eq_refl). reflexivity.
  - intros _. exact Hw.
Qed.

(** [re.sub] with a pattern that needs white space first. *)
Lemma sub_space_first (post : re) :
  sub (Seq (plus is_space) post) [] t = t.
Proof.
  apply sub_none with (P := fun l _ => no_space l).
  - intros c l pos Hs. inversion Hs; assumption.
  - intros l pos Hs. apply try_at_fail. intros k.
    rewrite m_seq. unfold plus. rewrite rep_stops by (apply no_space_head, Hs).
    reflexivity.
  - exact t_no_space.
Qed.

Lemma sub_spaces : sub (plus is_space) (u " ") t = t.
Proof.
  apply sub_none with (P := fun l _ => no_space l).
  - intros c l pos Hs. inversion Hs; assumption.
  - intros l pos Hs. apply try_at_fail. intros k.
    unfold plus. rewrite rep_stops by (apply no_space_head, Hs).
    reflexivity.
  - exact t_no_space.
Qed.

Lemma strip_no_space : strip t = t.
Proof. apply strip_by_none, t_no_space. Qed.
End Untouched.

(** Skipping optional white space where there is none. *)
Lemma star_space_skips (post : re) pos l caps k :
  no_space l ->
  m (Seq (star is_space) post) (Cursor pos l caps) k
  = m post (Cursor pos l caps) k.
Proof.
  intros Hs. rewrite m_seq. unfold star.
  rewrite rep_stops by (apply no_space_head, Hs). reflexivity.
Qed.

Lemma word_then_space_fails (w : str) (post : re) pos l caps k :
  no_space l ->
  m (Seq (lit w) (Seq (plus is_space) post)) (Cursor pos l caps) k = None.
Proof.
  intros Hs. rewrite m_seq, m_lit.
  destruct (starts_with w l); [|reflexivity].
  rewrite m_seq. unfold plus.
  rewrite rep_stops by (apply no_space_head, no_space_skipn, Hs).
  reflexivity.
Qed.

Lemma char_fails (x : char) (post : re) pos c l caps k :
  (x =? c)%N = false ->
  m (Seq (ch x) post) (Cursor pos (c :: l) caps) k = None.
Proof. intros H. rewrite m_seq. unfold ch. rewrite m_chr, H. reflexivity. Qed.

Ltac class_false Hc :=
  repeat match goal with
  | |- context [mem ?c ?cs] =>
    rewrite (@plain_not_mem c cs Hc) by (vm_compute; reflexivity)
  | |- context [N.eqb ?x ?c] =>
    rewrite (@plain_not_eq c x Hc) by (vm_compute; reflexivity)
  end.

Lemma separator_fails l pos :
  plain l -> try_at _SPLIT_SEP_RE false l pos = None.
Proof.
  intros Hp. destruct l as [|c l]; [vm_compute; reflexivity|].
  apply try_at_fail. intros k.
  pose proof (plain_no_space Hp) as Hs. apply Forall_inv in Hp.
  unfold _SPLIT_SEP_RE. cbn [seqs alts].
  rewrite star_space_skips by exact Hs.
  rewrite m_seq, !m_alt. unfold any_of, ch. rewrite !m_chr.
  class_false Hp. reflexivity.
Qed.

Lemma tail_fails l pos :
  plain l -> try_at _TAIL_RE false l pos = None.
Proof.
  intros Hp. destruct l as [|c l]; [vm_compute; reflexivity|].
  apply try_at_fail. intros k.
  pose proof (plain_no_space Hp) as Hs. apply Forall_inv in Hp.
  unfold _TAIL_RE. cbn [seqs alts].
  rewrite star_space_skips by exact Hs.
  rewrite m_seq, !m_alt.
  rewrite !word_then_space_fails by exact Hs.
  rewrite !char_fails by (apply plain_not_eq; [exact Hp|vm_compute; reflexivity]).
  reflexivity.
Qed.

Section CleanTitle.
Variable t : str.
Hypothesis t_plain : plain t.

Lemma t_no_space : no_space t.
Proof. exact (plain_no_space t_plain). Qed.

Lemma split_fixed : split _SPLIT_SEP_RE t = [t].
Proof.
  apply split_none with (P := fun l _ => plain l).
  - intros c l pos H. inversion H; assumption.
  - intros l pos. apply separator_fails.
  - exact t_plain.
Qed.

Lemma tail_loop_fixed n : tail_loop n t = t.
Proof.
  destruct n as [|n]; [reflexivity|]. cbn [tail_loop].
  replace (sub _TAIL_RE [] t) with t.
  - rewrite (strip_no_space t_no_space).
    replace (str_eqb t t) with true by (symmetry; apply str_eqb_eq; reflexivity).
    reflexivity.
  - symmetry. apply sub_none with (P := fun l _ => plain l).
    + intros c l pos H. inversion H; assumption.
    + intros l pos. apply tail_fails.
    + exact t_plain.
Qed.

Lemma tail_marker_fixed w :
  ends_with w t = false -> sub (seqs [lit w; Eol]) [] t = t.
Proof.
  intros H. cbn [seqs].
  apply sub_suffix with (w := w); [exact t_no_space| |exact H].
  reflexivity.
Qed.

Lemma head_marker_fixed w :
  starts_with w t = false -> sub (head_marker w) [] t = t.
Proof. intros H. unfold head_marker. cbn [seqs]. apply sub_prefix, H. Qed.

Lemma strip_noise_fixed w : free_of w t = true -> strip_noise t w = t.
Proof.
  unfold free_of. rewrite andb_true_iff, !negb_true_iff. intros [Hs He].
  unfold strip_noise. cbn [seqs].
  rewrite sub_prefix by exact Hs. rewrite (strip_no_space t_no_space).
  rewrite sub_suffix with (w := w).
  - apply (strip_no_space t_no_space).
  - exact t_no_space.
  - intros pos l caps k Hl. apply star_space_skips, Hl.
  - exact He.
Qed.

Lemma noise_loop_fixed ws :
  forallb (fun w => free_of w t) ws = true -> fold_left strip_noise ws t = t.
Proof.
  induction ws as [|w ws IH]; [reflexivity|].
  cbn [forallb fold_left]. rewrite andb_true_iff. intros [Hw Hws].
  rewrite (strip_noise_fixed _ Hw). apply IH, Hws.
Qed.

Lemma honorific_fixed : sub honorific_re [] t = t.
Proof. unfold honorific_re. cbn [seqs]. apply sub_space_first, t_no_space. Qed.

Lemma strip_chars_fixed : strip_chars (u " -–—|｜:：/／") t = t.
Proof.
  apply strip_by_none. eapply Forall_impl; [|exact t_plain].
  intros c Hc. apply plain_not_mem; [exact Hc|vm_compute; reflexivity].
Qed.

Lemma strip_affixes_fixed :
  forallb (fun w => free_of w t) _NOISE_WORDS = true -> strip_affixes t = t.
Proof.
  intros Hn. unfold strip_affixes. cbv zeta.
  assert (Hr : free_of (u "レシピ") t = true).
  { rewrite forallb_forall in Hn. apply Hn. left. reflexivity. }
  assert (Ht : free_of (u "作り方") t = true).
  { rewrite forallb_forall in Hn. apply Hn. right. left. reflexivity. }
  unfold free_of in Hr, Ht. rewrite andb_true_iff, !negb_true_iff in Hr, Ht.
  rewrite split_fixed. cbn [hd].
  rewrite (strip_no_space t_no_space), tail_loop_fixed.
  rewrite (tail_marker_fixed _ (proj2 Hr)), (strip_no_space t_no_space).
  rewrite (head_marker_fixed _ (proj1 Hr)), (strip_no_space t_no_space).
  rewrite (tail_marker_fixed _ (proj2 Ht)), (strip_no_space t_no_space).
  rewrite (head_marker_fixed _ (proj1 Ht)), (strip_no_space t_no_space).
  rewrite (noise_loop_fixed _ Hn).
  rewrite honorific_fixed, (strip_no_space t_no_space).
  rewrite strip_chars_fixed. apply (strip_no_space t_no_space).
Qed.
End CleanTitle.

End Affix.

(** C2, amended: an already clean title (2 to 60 characters, none of them
    white space, a separator or a bracket, and no noise word at either
    end) is a fixed point of [clean_dish_title]; idempotence holds for
    results of this shape and not for every result. *)
Theorem clean_title_fixed t :
  already_clean t = true -> clean_dish_title t = Some t.
Proof.
  unfold already_clean. rewrite !andb_true_iff.
  intros [[[H2 H60] Hp] Hn].
  assert (Hplain : plain t) by (apply forallb_forall_plain; exact Hp).
  pose proof (Affix.plain_no_space Hplain) as Hs.
  unfold clean_dish_title.
  destruct t as [|c t']; [discriminate|]. cbn [truthy negb].
  rewrite (Affix.sub_spaces Hs), (Affix.strip_no_space Hs). cbn [truthy negb].
  rewrite (Affix.strip_affixes_fixed Hplain Hn).
  unfold checked. rewrite H2, H60. reflexivity.
Qed.

Lemma clean_title_fixed_witness :
  clean_dish_title (u "鶏の唐揚げ") = Some (u "鶏の唐揚げ").
Proof. apply clean_title_fixed. vm_compute. reflexivity. Defined.

(* ================================================================= *)
(** * Further properties of the code *)

(** ** HTML escaping *)


Lemma flat_map_flat_map {A B C} (f : A -> list B) (g : B -> list C) (l : list A) :
  flat_map g (flat_map f l) = flat_map (fun x => flat_map g (f x)) l.
Proof.
  induction l as [|x l IH]; [reflexivity|].
  simpl. rewrite flat_map_app, IH. reflexivity.
Qed.

Lemma h_one (c : char) : h [c] = escape_char c.
Proof.
  unfold h, escape_char, replace_char.
  change (c1 "&") with 38%N. change (c1 "<") with 60%N.
  change (c1 ">") with 62%N. change (c1 "'") with 39%N.
  cbn [flat_map]. rewrite !app_nil_r.
  destruct (c =? 38)%N eqn:E38; [vm_compute; reflexivity|].
  cbn [flat_map]. rewrite app_nil_r.
  destruct (c =? 60)%N eqn:E60; [vm_compute; reflexivity|].
  cbn [flat_map]. rewrite app_nil_r.
  destruct (c =? 62)%N eqn:E62; [vm_compute; reflexivity|].
  cbn [flat_map]. rewrite app_nil_r.
  destruct (c =? 34)%N eqn:E34; [vm_compute; reflexivity|].
  cbn [flat_map]. rewrite app_nil_r.
  destruct (c =? 39)%N eqn:E39; [vm_compute; reflexivity|].
  reflexivity.
Qed.

Lemma h_app (a b : str) : h (a ++ b) = h a ++ h b.
Proof. unfold h, replace_char. rewrite !flat_map_app. reflexivity. Qed.

Lemma h_escape (s : str) : h s = flat_map escape_char s.
Proof.
  induction s as [|c s IH]; [reflexivity|].
  change (c :: s) with ([c] ++ s). rewrite h_app, h_one, IH. reflexivity.
Qed.

(** X1: [h] escapes every character exactly once: the ampersands that the
    later replacements bring in are not escaped again, and escaping
    distributes over concatenation. *)
Theorem h_escapes_each_character :
  (forall s, h s = flat_map escape_char s) /\
  (forall a b, h (a ++ b) = h a ++ h b).
Proof. split; [exact h_escape|exact h_app]. Qed.


Lemma escape_char_safe (c : char) : forallb (fun x => negb (markup_char x)) (escape_char c) = true.
Proof.
  unfold escape_char.
  destruct (c =? 38)%N eqn:E38; [vm_compute; reflexivity|].
  destruct (c =? 60)%N eqn:E60; [vm_compute; reflexivity|].
  destruct (c =? 62)%N eqn:E62; [vm_compute; reflexivity|].
  destruct (c =? 34)%N eqn:E34; [vm_compute; reflexivity|].
  destruct (c =? 39)%N eqn:E39; [vm_compute; reflexivity|].
  cbn [forallb]. unfold markup_char. rewrite E60, E62, E34, E39. reflexivity.
Qed.

(** X2: the output of [h] holds no angle bracket and no quote character. *)
Theorem h_output_has_no_markup (s : str) :
  forallb (fun x => negb (markup_char x)) (h s) = true.
Proof.
  rewrite h_escape. induction s as [|c s IH]; [reflexivity|].
  cbn [flat_map]. rewrite forallb_app, escape_char_safe, IH. reflexivity.
Qed.

Lemma escape_char_cases (c : char) :
  (escape_char c = [c] /\ (c =? 38)%N = false) \/
  (exists w, escape_char c = 38%N :: w /\
             ((c = 38%N /\ w = u "amp;") \/ (c = 60%N /\ w = u "lt;") \/
              (c = 62%N /\ w = u "gt;") \/ (c = 34%N /\ w = u "quot;") \/
              (c = 39%N /\ w = u "#39;"))).
Proof.
  unfold escape_char.
  destruct (c =? 38)%N eqn:E38.
  { apply N.eqb_eq in E38. right. exists (u "amp;"). split; [reflexivity|tauto]. }
  destruct (c =? 60)%N eqn:E60.
  { apply N.eqb_eq in E60. right. exists (u "lt;"). split; [reflexivity|tauto]. }
  destruct (c =? 62)%N eqn:E62.
  { apply N.eqb_eq in E62. right. exists (u "gt;"). split; [reflexivity|tauto]. }
  destruct (c =? 34)%N eqn:E34.
  { apply N.eqb_eq in E34. right. exists (u "quot;"). split; [reflexivity|tauto]. }
  destruct (c =? 39)%N eqn:E39.
  { apply N.eqb_eq in E39. right. exists (u "#39;"). split; [reflexivity|tauto]. }
  left. split; reflexivity.
Qed.

(** Reading one escaped character back: the escape of [c] followed by
    anything begins the escape of [d] followed by anything only when
    [c = d]. *)
Lemma escape_char_prefix (c d : char) (x y : str) :
  escape_char c ++ x = escape_char d ++ y -> c = d /\ x = y.
Proof.
  destruct (escape_char_cases c) as [[Ec Nc]|[w [Ec Hc]]];
  destruct (escape_char_cases d) as [[Ed Nd]|[v [Ed Hd]]];
    rewrite Ec, Ed; cbn [app]; intros H.
  - injection H as -> ->. split; reflexivity.
  - injection H as -> _. discriminate.
  - injection H as <- _. discriminate.
  - injection H as H.
    destruct Hc as [[-> ->]|[[-> ->]|[[-> ->]|[[-> ->]|[-> ->]]]]];
    destruct Hd as [[-> ->]|[[-> ->]|[[-> ->]|[[-> ->]|[-> ->]]]]];
      vm_compute in H; try discriminate H;
      (split; [reflexivity|]);
      repeat (injection H as _ H); congruence.
Qed.

(** X3: [h] loses nothing: two texts with the same escaped form are the
    same text. *)
Theorem h_injective (a b : str) : h a = h b -> a = b.
Proof.
  rewrite !h_escape. revert b.
  induction a as [|c a IH]; intros [|d b] H; cbn [flat_map] in H.
  - reflexivity.
  - destruct (escape_char_cases d) as [[E _]|[w [E _]]]; rewrite E in H;
      discriminate.
  - destruct (escape_char_cases c) as [[E _]|[w [E _]]]; rewrite E in H;
      discriminate.
  - apply escape_char_prefix in H. destruct H as [-> H].
    f_equal. apply IH, H.
Qed.

Lemma h_injective_witness : u "a<b & 'c'" = u "a<b & 'c'".
Proof. apply h_injective. reflexivity. Defined.

(** ** Normalizing spaces and categories *)

Lemma lstrip_by_incl p (s : str) x : In x (lstrip_by p s) -> In x s.
Proof.
  induction s as [|c s IH]; simpl; [tauto|].
  destruct (p c); simpl; tauto.
Qed.

Lemma strip_by_incl p (s : str) x : In x (strip_by p s) -> In x s.
Proof.
  unfold strip_by, rstrip_by. intros H.
  apply in_rev, lstrip_by_incl, in_rev in H. apply lstrip_by_incl in H. exact H.
Qed.

Lemma replace_char_absent old new (s : str) :
  ~ In old s -> replace_char old new s = s.
Proof.
  unfold replace_char. induction s as [|c s IH]; [reflexivity|].
  intros H. cbn [flat_map].
  destruct (c =? old)%N eqn:E.
  - apply N.eqb_eq in E. subst. exfalso. apply H. left. reflexivity.
  - rewrite IH by (intros H'; apply H; right; exact H'). reflexivity.
Qed.

Lemma replace_char_gone old new (s : str) :
  ~ In old new -> ~ In old (replace_char old new s).
Proof.
  intros Hn. unfold replace_char. induction s as [|c s IH]; [intros []|].
  cbn [flat_map]. rewrite in_app_iff. intros [H|H]; [|exact (IH H)].
  destruct (c =? old)%N eqn:E; [exact (Hn H)|].
  destruct H as [->|[]]. rewrite N.eqb_refl in E. discriminate.
Qed.

Lemma normalize_spaces_no_wide s : ~ In 12288%N (normalize_spaces s).
Proof.
  unfold normalize_spaces. intros H. apply strip_by_incl in H.
  revert H. apply replace_char_gone. vm_compute. intuition discriminate.
Qed.

(** X4: [normalize_spaces] is idempotent; its result has no white space
    at either end and no ideographic space anywhere. *)
Theorem normalize_spaces_idempotent (s : str) :
  normalize_spaces (normalize_spaces s) = normalize_spaces s /\
  strip (normalize_spaces s) = normalize_spaces s /\
  ~ In (c1 "　") (normalize_spaces s).
Proof.
  assert (T : strip (normalize_spaces s) = normalize_spaces s)
    by (unfold normalize_spaces; apply strip_idem).
  split; [|split; [exact T|apply normalize_spaces_no_wide]].
  unfold normalize_spaces at 1.
  rewrite replace_char_absent by apply normalize_spaces_no_wide. exact T.
Qed.

Lemma In_in_keys cat : In cat CATEGORY_KEYS -> in_keys cat = true.
Proof.
  intros H. unfold in_keys. apply existsb_exists. exists cat.
  split; [exact H|]. apply str_eqb_eq. reflexivity.
Qed.

Lemma keys_normalized k : In k CATEGORY_KEYS -> normalize_spaces k = k.
Proof.
  intros H.
  assert (F : forallb (fun k => str_eqb (normalize_spaces k) k) CATEGORY_KEYS = true)
    by (vm_compute; reflexivity).
  rewrite forallb_forall in F. apply str_eqb_eq, F, H.
Qed.

Lemma normalize_category_key cat : In (normalize_category cat) CATEGORY_KEYS.
Proof.
  unfold normalize_category. destruct (in_keys (normalize_spaces cat)) eqn:E.
  - apply in_keys_In, E.
  - apply in_keys_In. vm_compute. reflexivity.
Qed.

Lemma normalize_category_of_key k :
  In k CATEGORY_KEYS -> normalize_category k = k.
Proof.
  intros H. unfold normalize_category.
  rewrite (keys_normalized H), (In_in_keys H). reflexivity.
Qed.

(** X5: the strings [normalize_category] leaves unchanged are exactly the
    category keys, so it is idempotent. *)
Theorem normalize_category_fixed_points (cat : str) :
  (normalize_category cat = cat <-> In cat CATEGORY_KEYS) /\
  normalize_category (normalize_category cat) = normalize_category cat.
Proof.
  split; [split|].
  - intros <-. apply normalize_category_key.
  - apply normalize_category_of_key.
  - apply normalize_category_of_key, normalize_category_key.
Qed.

(** ** The category filter and prefill of [index] *)

Lemma in_keys_normalized c : in_keys c = true -> in_keys (normalize_spaces c) = true.
Proof.
  intros H. rewrite (keys_normalized (in_keys_In c H)). exact H.
Qed.

(** X6: the list filter of [index] is either absent or a category key,
    namely the space-normalized query value: a value that is no key is
    dropped and never becomes the other-key filter, while every key,
    the other-key included, filters by itself. *)
Theorem filter_category_is_key :
  (forall category k,
     filter_category category = Some k ->
     k = normalize_spaces (or_empty category) /\ In k CATEGORY_KEYS) /\
  (forall k, In k CATEGORY_KEYS -> filter_category (Some k) = Some k) /\
  filter_category None = None /\ filter_category (Some []) = None.
Proof.
  split; [|split; [|split; reflexivity]].
  - intros category k. unfold filter_category.
    set (c := or_empty category).
    destruct (truthy c); [|discriminate]. cbn [andb].
    unfold normalize_category.
    destruct (in_keys (normalize_spaces c)) eqn:E.
    + destruct (str_eqb (normalize_spaces c) (u "その他") && negb (in_keys c));
        [discriminate|].
      intros [= <-]. split; [reflexivity|apply in_keys_In, E].
    + replace (str_eqb (u "その他") (u "その他")) with true
        by (symmetry; apply str_eqb_eq; reflexivity).
      destruct (in_keys c) eqn:Ec.
      * rewrite (in_keys_normalized c Ec) in E. discriminate.
      * discriminate.
  - intros k H. unfold filter_category. cbn [or_empty].
    assert (T : truthy k = true).
    { destruct k; [|reflexivity]. apply In_in_keys in H. vm_compute in H.
      discriminate. }
    rewrite T. cbn [andb].
    rewrite (normalize_category_of_key H).
    rewrite (In_in_keys H), andb_false_r. reflexivity.
Qed.

(** X7: the category preselected in the entry sheet is always a category
    key and never the other-key: a missing, unknown or other-key prefill
    falls back to the default category, any other key is kept. *)
Theorem prefill_category_is_key (prefill : option str) :
  In (prefill_category prefill) CATEGORY_KEYS /\
  prefill_category prefill <> u "その他" /\
  (in_keys (normalize_spaces (or_empty prefill)) = true ->
   normalize_spaces (or_empty prefill) <> u "その他" ->
   prefill_category prefill = normalize_spaces (or_empty prefill)) /\
  (in_keys (normalize_spaces (or_empty prefill)) = false ->
   prefill_category prefill = DEFAULT_CATEGORY).
Proof.
  unfold prefill_category.
  set (pc := normalize_category (or_empty prefill)).
  assert (Hk : In pc CATEGORY_KEYS) by apply normalize_category_key.
  assert (T : truthy pc = true).
  { destruct pc; [|reflexivity]. apply In_in_keys in Hk. vm_compute in Hk.
    discriminate. }
  rewrite T. cbn [negb orb].
  destruct (str_eqb pc (u "その他")) eqn:E.
  - split; [|split; [|split]].
    + apply in_keys_In. vm_compute. reflexivity.
    + vm_compute. discriminate.
    + intros Hin Hne. exfalso. apply Hne. apply str_eqb_eq in E.
      unfold pc, normalize_category in E. rewrite Hin in E. exact E.
    + reflexivity.
  - split; [|split; [|split]].
    + exact Hk.
    + intros H. rewrite H in E.
      assert (str_eqb (u "その他") (u "その他") = true)
        by (apply str_eqb_eq; reflexivity).
      congruence.
    + intros Hin _. unfold pc, normalize_category. rewrite Hin. reflexivity.
    + intros Hin. unfold pc, normalize_category in E. rewrite Hin in E.
      assert (str_eqb (u "その他") (u "その他") = true)
        by (apply str_eqb_eq; reflexivity).
      congruence.
Qed.

Lemma prefill_category_is_key_witness :
  prefill_category (Some (u " パスタ　")) = u "パスタ" /\
  prefill_category (Some (u "飲み物")) = DEFAULT_CATEGORY.
Proof.
  split.
  - refine (proj1 (proj2 (proj2 (prefill_category_is_key (Some (u " パスタ　")))))
              _ _); vm_compute; [reflexivity|discriminate].
  - refine (proj2 (proj2 (proj2 (prefill_category_is_key (Some (u "飲み物")))))
              _); vm_compute; reflexivity.
Defined.

Lemma filter_category_is_key_witness :
  u "パスタ" = normalize_spaces (or_empty (Some (u " パスタ")))
  /\ In (u "パスタ") CATEGORY_KEYS.
Proof.
  apply (proj1 filter_category_is_key (Some (u " パスタ")) (u "パスタ")).
  vm_compute. reflexivity.
Defined.

(** ** [/meta] *)

Lemma keys_encodable k : In k CATEGORY_KEYS -> encodable k = true.
Proof.
  assert (F : forallb encodable CATEGORY_KEYS = true) by (vm_compute; reflexivity).
  rewrite forallb_forall in F. apply F.
Qed.

(** X8: [meta] looks the title up through the title cache and answers
    with it and with a category of the fixed set, the one guessed from the
    title or from the empty text when there is no title, unless the title
    holds a lone surrogate: then rendering the answer raises.  Either way
    the lookup is cached and the image cache is left alone, and on a URL
    the title cache does not hold the title is what [get_og_title] returns
    and the requests are those [get_og_title] makes. *)
Theorem meta_answers_unless_surrogate W url cs log :
  exists title cs' log',
    cached_title W url cs log = (Returns (title, cs'), log') /\
    meta W url cs log
      = (Returns
           (if encodable (or_empty title)
            then Returns (title, guess_category_from_text W (or_empty title))
            else Raises,
            cs'),
         log') /\
    In (guess_category_from_text W (or_empty title)) CATEGORY_KEYS /\
    image_cache cs' = image_cache cs /\
    (Lru.lookup url (title_cache cs) = None ->
     title = title_value W url /\ log' = log ++ fetches W url).
Proof.
  assert (K : forall text,
            In (guess_category_from_text W text) CATEGORY_KEYS)
    by (intros text; rewrite guess_category_by_rules;
        apply classify_by_rules_in_keys).
  assert (J : forall title,
            JSONResponse title (guess_category_from_text W (or_empty title))
            = if encodable (or_empty title)
              then Returns (title, guess_category_from_text W (or_empty title))
              else Raises).
  { intros title. unfold JSONResponse. rewrite (keys_encodable (K _)).
    rewrite andb_true_r. reflexivity. }
  unfold meta, cached_title, Lru.call, Fetch.bind, Fetch.ret.
  destruct (Lru.lookup url (title_cache cs)) as [v|] eqn:L.
  - eexists. eexists. eexists. split; [reflexivity|].
    cbn [fst snd]. rewrite J. split; [reflexivity|].
    split; [apply K|]. split; [reflexivity|discriminate].
  - rewrite get_og_title_runs.
    eexists. eexists. eexists. split; [reflexivity|].
    cbn [fst snd]. rewrite J. split; [reflexivity|].
    split; [apply K|]. split; [reflexivity|]. intros _. split; reflexivity.
Qed.

(** The rendering does raise: a JSON-LD name with a lone surrogate comes
    back from the lookup as it is, is cached, and cannot be encoded. *)
Lemma meta_raises_on_lone_surrogate :
  title_value LoneSurrogate.world LoneSurrogate.url = Some LoneSurrogate.name /\
  meta LoneSurrogate.world LoneSurrogate.url (Caches [] []) []
  = (Returns (Raises,
              Caches [(LoneSurrogate.url, Some LoneSurrogate.name)] []),
     [LoneSurrogate.url]).
Proof. split; vm_compute; reflexivity. Qed.

(** ** The image reference *)

(** X9: an image reference returned by [get_og_image] starts with
    [http://] or [https://]. *)
Theorem get_og_image_is_absolute W url log img :
  fst (get_og_image W url log) = Returns (Some img) ->
  starts_with (u "http://") img || starts_with (u "https://") img = true.
Proof.
  rewrite get_og_image_run.
  destruct (fetchable W url); [|discriminate].
  unfold after_open. cbn [fst].
  destruct (urlopen W (strip url)) as [res|]; [|discriminate].
  destruct (negb _); [discriminate|].
  destruct (read 220000 res) as [raw|]; [|discriminate].
  unfold image_of_html.
  destruct (image_match _) as [mt|]; [|discriminate].
  destruct (negb (truthy _)); [discriminate|].
  cbn [Exn.bind]. destruct (urljoin W _ _) as [j|]; [|discriminate].
  cbn [Exn.bind Exn.catch].
  destruct (starts_with (u "http://") j || starts_with (u "https://") j) eqn:E;
    [|discriminate].
  cbn [negb]. intros [= <-]. exact E.
Qed.

Lemma get_og_image_is_absolute_witness :
  starts_with (u "http://") (u "https://img.example/karaage.jpg")
  || starts_with (u "https://") (u "https://img.example/karaage.jpg") = true.
Proof.
  apply (@get_og_image_is_absolute ImagePage.world ImagePage.url []).
  vm_compute. reflexivity.
Defined.

(** ** Raw and returned titles *)

Lemma first_name_nonempty objs t : first_name objs = Some t -> t <> [].
Proof.
  induction objs as [|obj objs IH]; simpl; [discriminate|].
  destruct (recipe_name_of obj) as [n|] eqn:E; [|exact IH].
  intros [= <-]. unfold recipe_name_of in E.
  destruct (existsb _ _); [|discriminate].
  destruct (dict_get _ obj) as [[| | | name | |]|]; try discriminate.
  destruct (truthy (strip name)) eqn:T; [|discriminate].
  injection E as <-. intros Z. rewrite Z in T. discriminate.
Qed.

Lemma first_block_nonempty W ms t : first_block W ms = Some t -> t <> [].
Proof.
  induction ms as [|mt ms IH]; simpl; [discriminate|].
  destruct (block_name W mt) eqn:E; [|exact IH].
  intros [= <-]. unfold block_name in E.
  destruct (negb _); [discriminate|].
  destruct (json_loads W _); [|discriminate].
  eapply first_name_nonempty, E.
Qed.

Lemma title_element_nonempty html t : title_element html = Some t -> t <> [].
Proof.
  unfold title_element. destruct (search title_re html); [|discriminate].
  destruct (truthy _) eqn:T; [|discriminate].
  intros [= <-] Z. rewrite Z in T. discriminate.
Qed.

Lemma extract_og_or_title_nonempty html t :
  extract_og_or_title html = Some t -> t <> [].
Proof.
  unfold extract_og_or_title.
  match goal with |- context [match ?x with Some _ => _ | None => _ end = _] =>
    destruct x as [mt|] end; [|apply title_element_nonempty].
  destruct (truthy (strip (group1 mt))) eqn:T; [|apply title_element_nonempty].
  intros [= <-] Z. rewrite Z in T. discriminate.
Qed.

(** X10: a name returned by [extract_recipe_name_from_jsonld] and a title
    returned by [extract_og_or_title] are never empty and carry no white
    space at either end. *)
Theorem extracted_titles_are_trimmed W html t :
  extract_recipe_name_from_jsonld W html = Some t \/
  extract_og_or_title html = Some t ->
  t <> [] /\ strip t = t.
Proof.
  intros [H|H].
  - unfold extract_recipe_name_from_jsonld in H. split.
    + eapply first_block_nonempty, H.
    + apply strip_fix. eapply first_block_trimmed, H.
  - split.
    + eapply extract_og_or_title_nonempty, H.
    + apply strip_fix. eapply extract_og_or_title_trimmed, H.
Qed.

Lemma extracted_titles_are_trimmed_witness :
  u "カルボナーラの作り方 - クックパッド" <> []
  /\ strip (u "カルボナーラの作り方 - クックパッド")
     = u "カルボナーラの作り方 - クックパッド".
Proof.
  apply (@extracted_titles_are_trimmed (Mock.world [] []) carbonara_html).
  right. vm_compute. reflexivity.
Defined.

Lemma finish_title_trimmed title t : finish_title title = Some t -> strip t = t.
Proof.
  unfold finish_title, clean_dish_title, checked.
  destruct (negb (truthy (or_empty title))).
  - destruct (_ && _); [|discriminate]. intros [= <-]. apply strip_idem.
  - cbv zeta. destruct (negb (truthy _)).
    + destruct (_ && _); [|discriminate]. intros [= <-]. apply strip_idem.
    + unfold strip_affixes. cbv zeta.
      match goal with
      | |- context [strip (strip_chars ?c ?x)] =>
        generalize (strip_chars c x)
      end.
      intros y. destruct (_ && _).
      * destruct (truthy (strip y)).
        -- intros [= <-]. apply strip_idem.
        -- destruct (_ && _); [|discriminate]. intros [= <-]. apply strip_idem.
      * destruct (_ && _); [|discriminate]. intros [= <-]. apply strip_idem.
Qed.

(** X11: a title returned by [get_og_title] carries no white space at
    either end. *)
Theorem get_og_title_is_trimmed W url log t :
  fst (get_og_title W url log) = Returns (Some t) -> strip t = t.
Proof.
  rewrite get_og_title_run.
  destruct (fetchable W url); [|discriminate].
  unfold after_open. cbn [fst].
  destruct (urlopen W (strip url)) as [res|]; [|discriminate].
  destruct (negb _); [discriminate|].
  destruct (read 240000 res) as [raw|]; [|discriminate].
  cbn [Exn.catch]. intros [= E]. eapply finish_title_trimmed, E.
Qed.

Lemma get_og_title_is_trimmed_witness : strip (u "レシピ") = u "レシピ".
Proof.
  apply (@get_og_title_is_trimmed BareMarker.world BareMarker.url []).
  vm_compute. reflexivity.
Defined.

(** ** The classifier's range *)

(** X12: the classifier suggests the default category or the label of one
    of its sixteen rules; it never suggests the drink category or the
    other-key. *)
Theorem guess_category_range W text :
  In (guess_category_from_text W text) (DEFAULT_CATEGORY :: map snd RULES) /\
  guess_category_from_text W text <> u "ドリンク" /\
  guess_category_from_text W text <> u "その他".
Proof.
  assert (R : In (guess_category_from_text W text)
                 (DEFAULT_CATEGORY :: map snd RULES)).
  { rewrite guess_category_by_rules. unfold classify_by_rules.
    destruct (find _ RULES) as [r|] eqn:E.
    - right. apply find_some in E. apply in_map, E.
    - left. reflexivity. }
  split; [exact R|].
  assert (F : forallb (fun l => negb (str_eqb l (u "ドリンク"))
                                && negb (str_eqb l (u "その他")))
                (DEFAULT_CATEGORY :: map snd RULES) = true)
    by (vm_compute; reflexivity).
  rewrite forallb_forall in F. specialize (F _ R).
  revert F. generalize (guess_category_from_text W text). intros g F.
  apply andb_true_iff in F. destruct F as [F1 F2].
  apply negb_true_iff in F1. apply negb_true_iff in F2.
  split; intros Z; apply str_eqb_eq in Z; congruence.
Qed.

(** ** What substitution and splitting keep *)

Module Keeps.
Import ReFacts.

(** The unmatched characters of a scan are characters of the subject. *)
Lemma scan_text_in (r : re) (x : char) :
  forall l pos skip, In (Text x) (scan r l pos skip) -> In x l.
Proof.
  induction l as [|c l IH]; intros pos skip H.
  - destruct skip; simpl in H.
    + destruct (try_at r false [] pos) as [mt|]; [|destruct H].
      destruct (m_end mt =? pos).
      * destruct H as [H|H]; [discriminate|].
        destruct (try_at r true [] pos); [|destruct H].
        destruct H as [H|H]; [discriminate|destruct H].
      * destruct H as [H|H]; [discriminate|destruct H].
    + destruct H.
  - destruct skip.
    + simpl in H.
      destruct (try_at r false (c :: l) pos) as [mt|].
      * destruct (m_end mt =? pos).
        -- destruct H as [H|H]; [discriminate|].
           destruct (try_at r true (c :: l) pos).
           ++ destruct H as [H|H]; [discriminate|]. right. eapply IH, H.
           ++ destruct H as [H|H]; [left; congruence|]. right. eapply IH, H.
        -- destruct H as [H|H]; [discriminate|]. right. eapply IH, H.
      * destruct H as [H|H]; [left; congruence|]. right. eapply IH, H.
    + simpl in H. right. eapply IH, H.
Qed.

(** [re.sub] writes characters of the subject and of the replacement. *)
Lemma sub_in (r : re) (repl s : str) (x : char) :
  In x (sub r repl s) -> In x s \/ In x repl.
Proof.
  unfold sub, segments. intros H. apply in_flat_map in H.
  destruct H as [[c|mt] [Hg Hx]].
  - left. destruct Hx as [<-|[]]. eapply scan_text_in, Hg.
  - right. exact Hx.
Qed.

Lemma sub_delete_in (r : re) (s : str) (x : char) : In x (sub r [] s) -> In x s.
Proof. intros H. apply sub_in in H. destruct H as [H|[]]. exact H. Qed.

Lemma strip_in (s : str) x : In x (strip s) -> In x s.
Proof. apply strip_by_incl. Qed.

Lemma tail_loop_in n : forall s x, In x (tail_loop n s) -> In x s.
Proof.
  induction n as [|n IH]; intros s x; simpl; [tauto|].
  destruct (str_eqb _ s); [tauto|].
  intros H. apply IH, strip_in, sub_delete_in in H. exact H.
Qed.

Lemma strip_noise_in s w x : In x (strip_noise s w) -> In x s.
Proof.
  unfold strip_noise. intros H.
  apply strip_in, sub_delete_in, strip_in, sub_delete_in in H. exact H.
Qed.

Lemma noise_loop_in ws : forall s x, In x (fold_left strip_noise ws s) -> In x s.
Proof.
  induction ws as [|w ws IH]; intros s x; simpl; [tauto|].
  intros H. apply IH, strip_noise_in in H. exact H.
Qed.

(** The first piece of a split holds unmatched characters only. *)
Lemma split_segs_hd x : forall gs acc,
  In x (hd [] (split_segs acc gs)) -> In x acc \/ In (Text x) gs.
Proof.
  induction gs as [|[c|mt] gs IH]; intros acc; simpl.
  - intros H. left. apply in_rev. exact H.
  - intros H. apply IH in H. destruct H as [[<-|H]|H]; auto.
  - intros H. left. apply in_rev. exact H.
Qed.

(** A greedy repetition with no lower bound matches whenever what follows
    matches at every later position. *)
Lemma star_matches p caps k hi (start : nat) :
  (forall cur, start <= c_pos cur -> k cur <> None) ->
  forall l pos, start <= pos -> rep_greedy p caps k 0 hi l pos <> None.
Proof.
  intros Hk l pos Hp.
  assert (S0 : stop caps k 0 pos l <> None) by (apply Hk; exact Hp).
  destruct l as [|c l]; simpl; [exact S0|].
  destruct (p c && hi_ok hi); [|exact S0].
  destruct (rep_greedy _ _ _ _ _ _ _); [discriminate|exact S0].
Qed.

Lemma alts_matches_chr (ps : list (char -> bool)) c l pos caps k :
  existsb (fun p => p c) ps = true ->
  k (Cursor (S pos) l caps) <> None ->
  m (alts (map Chr ps)) (Cursor pos (c :: l) caps) k <> None.
Proof.
  intros He Hk. induction ps as [|p ps IH]; [discriminate|].
  simpl in He. destruct ps as [|q ps].
  - simpl in *. rewrite orb_false_r in He. rewrite He. exact Hk.
  - change (alts (map Chr (p :: q :: ps)))
      with (Alt (Chr p) (alts (map Chr (q :: ps)))).
    rewrite m_alt, m_chr. destruct (p c).
    + unfold orelse. destruct (k _); [discriminate|congruence].
    + apply IH. exact He.
Qed.

Lemma separator_classes c :
  mem c SEPARATORS = true ->
  existsb (fun p => p c)
    [ (fun c => mem c (u "｜|")); (fun c => mem c (u "-–—")); N.eqb (c1 ":");
      N.eqb (c1 "："); N.eqb (c1 "／"); N.eqb (c1 "/") ] = true.
Proof.
  unfold SEPARATORS, mem.
  let x := eval vm_compute in (u "|｜-–—:：／/") in change (u "|｜-–—:：／/") with x.
  let x := eval vm_compute in (u "｜|") in change (u "｜|") with x.
  let x := eval vm_compute in (u "-–—") in change (u "-–—") with x.
  let x := eval vm_compute in (c1 ":") in change (c1 ":") with x.
  let x := eval vm_compute in (c1 "：") in change (c1 "：") with x.
  let x := eval vm_compute in (c1 "／") in change (c1 "／") with x.
  let x := eval vm_compute in (c1 "/") in change (c1 "/") with x.
  intros H. cbn [existsb] in H. rewrite !orb_false_r in H.
  rewrite !orb_true_iff, !N.eqb_eq in H.
  repeat destruct H as [H|H]; subst c; vm_compute; reflexivity.
Qed.

Lemma separator_not_space c : mem c SEPARATORS = true -> is_space c = false.
Proof.
  unfold SEPARATORS, mem.
  let x := eval vm_compute in (u "|｜-–—:：／/") in change (u "|｜-–—:：／/") with x.
  intros H. cbn [existsb] in H. rewrite !orb_false_r in H.
  rewrite !orb_true_iff, !N.eqb_eq in H.
  repeat destruct H as [H|H]; subst c; vm_compute; reflexivity.
Qed.

(** [_SPLIT_SEP_RE] matches at every separator character, and the match is
    not empty. *)
Lemma separator_hit c l pos ma :
  mem c SEPARATORS = true -> try_at _SPLIT_SEP_RE ma (c :: l) pos <> None.
Proof.
  intros Hc. unfold try_at.
  assert (M : m _SPLIT_SEP_RE (Cursor pos (c :: l) []) (accept ma pos) <> None).
  { change _SPLIT_SEP_RE with
      (Seq (star is_space)
           (Seq (alts (map Chr
                   [ (fun c => mem c (u "｜|")); (fun c => mem c (u "-–—"));
                     N.eqb (c1 ":"); N.eqb (c1 "："); N.eqb (c1 "／");
                     N.eqb (c1 "/") ]))
                (star is_space))).
    rewrite m_seq. unfold star at 1.
    rewrite rep_stops by (simpl; apply separator_not_space, Hc).
    cbn [Nat.eqb]. rewrite m_seq.
    apply alts_matches_chr; [apply separator_classes, Hc|].
    unfold star. cbn [m c_caps c_rest c_pos].
    apply star_matches with (start := S pos); [|lia].
    intros cur Hcur. unfold accept.
    replace (c_pos cur =? pos) with false
      by (symmetry; apply Nat.eqb_neq; lia).
    rewrite andb_false_r. discriminate. }
  destruct (m _ _ _); [discriminate|congruence].
Qed.

(** No separator character is left unmatched by [_SPLIT_SEP_RE]. *)
Lemma split_text_plain (x : char) :
  forall l pos skip,
  In (Text x) (scan _SPLIT_SEP_RE l pos skip) -> mem x SEPARATORS = false.
Proof.
  induction l as [|c l IH]; intros pos skip H.
  - apply scan_text_in in H. destruct H.
  - destruct skip; [|simpl in H; eapply IH, H].
    destruct (mem c SEPARATORS) eqn:Hc.
    + pose proof (@separator_hit c l pos false Hc) as H0.
      pose proof (@separator_hit c l pos true Hc) as H1.
      simpl in H.
      destruct (try_at _SPLIT_SEP_RE false (c :: l) pos) as [mt|]; [|congruence].
      destruct (m_end mt =? pos).
      * destruct H as [H|H]; [discriminate|].
        destruct (try_at _SPLIT_SEP_RE true (c :: l) pos); [|congruence].
        destruct H as [H|H]; [discriminate|]. eapply IH, H.
      * destruct H as [H|H]; [discriminate|]. eapply IH, H.
    + simpl in H.
      destruct (try_at _SPLIT_SEP_RE false (c :: l) pos) as [mt|].
      * destruct (m_end mt =? pos).
        -- destruct H as [H|H]; [discriminate|].
           destruct (try_at _SPLIT_SEP_RE true (c :: l) pos).
           ++ destruct H as [H|H]; [discriminate|]. eapply IH, H.
           ++ destruct H as [H|H]; [congruence|]. eapply IH, H.
        -- destruct H as [H|H]; [discriminate|]. eapply IH, H.
      * destruct H as [H|H]; [congruence|]. eapply IH, H.
Qed.

Lemma first_piece_in s x :
  In x (hd [] (split _SPLIT_SEP_RE s)) -> In x s /\ mem x SEPARATORS = false.
Proof.
  unfold split, segments. intros H. apply split_segs_hd in H.
  destruct H as [[]|H]. split.
  - eapply scan_text_in, H.
  - eapply split_text_plain, H.
Qed.

Lemma strip_affixes_in s x :
  In x (strip_affixes s) -> In x s /\ mem x SEPARATORS = false.
Proof.
  unfold strip_affixes. intros H.
  apply strip_in, strip_by_incl, strip_in, sub_delete_in, noise_loop_in,
    strip_in, sub_delete_in, strip_in, sub_delete_in, strip_in, sub_delete_in,
    strip_in, sub_delete_in, tail_loop_in, strip_in, first_piece_in in H.
  exact H.
Qed.

End Keeps.

(** X13: a cleaned title is made of characters of the raw title, with an
    ASCII space where the raw title has white space, and it holds none of
    the separator characters of [_SPLIT_SEP_RE]. *)
Theorem clean_dish_title_characters raw t x :
  clean_dish_title raw = Some t -> In x t ->
  (In x raw \/ x = 32%N) /\ mem x SEPARATORS = false.
Proof.
  unfold clean_dish_title, checked.
  destruct (negb (truthy raw)); [discriminate|]. cbv zeta.
  destruct (negb (truthy _)); [discriminate|].
  destruct (_ && _); [|discriminate].
  intros [= <-] H. apply Keeps.strip_affixes_in in H. destruct H as [H S].
  split; [|exact S].
  apply Keeps.strip_in, Keeps.sub_in in H.
  destruct H as [H|[H|[]]]; [left; exact H|right; symmetry; exact H].
Qed.

Lemma clean_dish_title_characters_witness :
  (In (c1 "親") (u "親子丼　レシピ | サイト") \/ c1 "親" = 32%N)
  /\ mem (c1 "親") SEPARATORS = false.
Proof.
  apply (@clean_dish_title_characters (u "親子丼　レシピ | サイト") (u "親子丼")).
  - vm_compute. reflexivity.
  - left. vm_compute. reflexivity.
Defined.

(** ** Blank titles and white space runs *)

Lemma lstrip_by_all p (s : str) : forallb p s = true -> lstrip_by p s = [].
Proof.
  induction s as [|c s IH]; simpl; [reflexivity|].
  intros H. apply andb_true_iff in H. destruct H as [-> H]. exact (IH H).
Qed.

Lemma strip_blank (s : str) : forallb is_space s = true -> strip s = [].
Proof.
  intros H. unfold strip, strip_by, rstrip_by.
  rewrite (lstrip_by_all _ _ H). reflexivity.
Qed.

(** X14: a raw title made of white space only, the empty one included, has
    no cleaned form. *)
Theorem clean_dish_title_blank raw :
  forallb is_space raw = true -> clean_dish_title raw = None.
Proof.
  intros H. unfold clean_dish_title.
  destruct (negb (truthy raw)); [reflexivity|]. cbv zeta.
  rewrite strip_blank; [reflexivity|].
  apply forallb_forall. intros x Hx. apply Keeps.sub_in in Hx.
  destruct Hx as [Hx|[<-|[]]].
  - rewrite forallb_forall in H. exact (H x Hx).
  - vm_compute. reflexivity.
Qed.

Lemma clean_dish_title_blank_witness :
  clean_dish_title (u " 　" ++ [10%N]) = None.
Proof.
  apply clean_dish_title_blank. vm_compute. reflexivity.
Defined.

Lemma squeeze_single_spaced : forall n l pos,
  length l <= n -> single_spaced (squeeze_out l pos) = true.
Proof.
  induction n as [|n IH]; intros l pos Hn.
  - destruct l; [reflexivity|simpl in Hn; lia].
  - destruct l as [|c l]; [reflexivity|]. simpl in Hn.
    destruct (is_space c) eqn:Hc.
    + destruct (@Squeeze.out_run c l pos Hc) as [pos' ->].
      assert (Hl : length (lstrip_by is_space l) <= n).
      { pose proof (lstrip_by_length is_space l). lia. }
      pose proof (lstrip_by_head is_space l) as Hh.
      pose proof (IH _ pos' Hl) as Hs.
      let x := eval vm_compute in (u " ") in change (u " ") with x.
      destruct (lstrip_by is_space l) as [|d l'].
      * reflexivity.
      * simpl in Hh. rewrite Squeeze.out_keep in * by exact Hh.
        cbn [app single_spaced] in *.
        change (is_space 32%N) with true. cbn iota.
        change (32 =? 32)%N with true. rewrite Hh in *. exact Hs.
    + rewrite Squeeze.out_keep by exact Hc.
      cbn [single_spaced]. rewrite Hc. apply IH. lia.
Qed.

(** X15: the text taken from the title element holds white space only as
    single ASCII spaces between other characters. *)
Theorem title_text_is_single_spaced html t :
  title_element html = Some t -> single_spaced t = true /\ trimmed t.
Proof.
  intros H. split; [|eapply title_element_trimmed, H].
  unfold title_element in H. destruct (search title_re html); [|discriminate].
  destruct (truthy _); [|discriminate]. injection H as <-.
  change (sub (plus is_space) (u " ") ?s) with (squeeze_out s 0).
  eapply squeeze_single_spaced. reflexivity.
Qed.

Lemma title_text_is_single_spaced_witness :
  single_spaced (u "親子丼 レシピ") = true /\ trimmed (u "親子丼 レシピ").
Proof.
  apply (@title_text_is_single_spaced SpacedTitle.html).
  vm_compute. reflexivity.
Defined.

(** ** The table of links *)

Module CrudFacts.
Import BinInt Crud.

Lemma Zeqb_refl (i : Z) : (i =? i)%Z = true.
Proof. apply Z.eqb_eq. reflexivity. Qed.

Lemma str_eqb_same (s : str) : str_eqb s s = true.
Proof. apply str_eqb_eq. reflexivity. Qed.

Lemma str_eqb_diff (a b : str) : a <> b -> str_eqb a b = false.
Proof.
  intros H. destruct (str_eqb a b) eqn:E; [|reflexivity].
  apply str_eqb_eq in E. contradiction.
Qed.

Lemma NoDup_snoc {A} (l : list A) (x : A) :
  NoDup l -> ~ In x l -> NoDup (l ++ [x]).
Proof.
  induction l as [|y l IH]; simpl; intros N H.
  - constructor; [intros []|constructor].
  - apply NoDup_cons_iff in N. destruct N as [Ny Nl]. constructor.
    + rewrite in_app_iff. simpl. intros [Hy|[E|[]]]; [tauto|].
      apply H. left. symmetry. exact E.
    + apply IH; [exact Nl|tauto].
Qed.

(** *** What a row holds *)

Lemma stored_parts i v ti ca :
  storable i v ti ca = true <->
  int64 i = true /\ encodable v = true /\ encodable ti = true
  /\ encodable ca = true.
Proof. unfold storable. rewrite !andb_true_iff. tauto. Qed.

Lemma row_holds (r : RecipeLink) :
  int64 (id r) = true /\ encodable (url r) = true
  /\ encodable (title r) = true /\ encodable (category r) = true.
Proof. apply stored_parts, (stored r). Qed.

Lemma row_made i v ti ca now :
  storable i v ti ca = true ->
  exists r, row i v ti ca now = Some r /\ id r = i /\ url r = v
            /\ title r = ti /\ category r = ca /\ created_at r = now.
Proof.
  intros H. unfold row. destruct (bool_dec (storable i v ti ca) true) as [p|n].
  - eexists. split; [reflexivity|]. repeat split.
  - contradiction.
Qed.

Lemma row_refused i v ti ca now :
  storable i v ti ca = false -> row i v ti ca now = None.
Proof.
  intros H. unfold row. destruct (bool_dec (storable i v ti ca) true) as [p|n].
  - congruence.
  - reflexivity.
Qed.

(** *** Rows found by URL and by id *)

Lemma where_url_in v t r : In r (where_url v t) <-> In r t /\ url r = v.
Proof.
  unfold where_url. rewrite filter_In. rewrite str_eqb_eq. reflexivity.
Qed.

Lemma where_url_none v t :
  where_url v t = [] -> existsb (fun r => str_eqb (url r) v) t = false.
Proof.
  induction t as [|r t IH]; simpl; [reflexivity|].
  destruct (str_eqb (url r) v); [discriminate|]. exact IH.
Qed.

Lemma where_url_absent v t :
  (forall r, In r t -> url r <> v) -> where_url v t = [].
Proof.
  induction t as [|r t IH]; simpl; intros H; [reflexivity|].
  rewrite str_eqb_diff by (apply H; left; reflexivity).
  apply IH. intros r' Hr'. apply H. right. exact Hr'.
Qed.

Lemma where_url_app v a b : where_url v (a ++ b) = where_url v a ++ where_url v b.
Proof. apply filter_app. Qed.

(** A row of a consistent table splits it into rows with other ids and
    other URLs. *)
Lemma split_row t ex :
  consistent t -> In ex t ->
  exists l1 l2, t = l1 ++ ex :: l2 /\
    (forall r, In r (l1 ++ l2) -> id r <> id ex /\ url r <> url ex).
Proof.
  intros [Hu Hi] Hin. apply in_split in Hin. destruct Hin as [l1 [l2 ->]].
  exists l1, l2. split; [reflexivity|]. intros r Hr.
  rewrite map_app in Hu, Hi. simpl in Hu, Hi.
  apply NoDup_remove_2 in Hu. apply NoDup_remove_2 in Hi.
  rewrite <- map_app in Hu, Hi.
  split; intros E; [apply Hi|apply Hu]; rewrite <- E; apply in_map, Hr.
Qed.

Lemma consistent_split l1 x l2 :
  consistent (l1 ++ x :: l2) ->
  forall y, id y = id x -> url y = url x -> consistent (l1 ++ y :: l2).
Proof.
  intros H y Ei Eu. unfold consistent in *. rewrite !map_app in *. simpl in *.
  rewrite Ei, Eu. exact H.
Qed.

Lemma where_url_split l1 x l2 :
  (forall r, In r (l1 ++ l2) -> url r <> url x) ->
  where_url (url x) (l1 ++ x :: l2) = [x].
Proof.
  intros H. rewrite where_url_app. simpl. rewrite str_eqb_same.
  rewrite !where_url_absent; [reflexivity| |];
    intros r Hr; apply H, in_or_app; auto.
Qed.

Lemma where_url_other l1 x y l2 w :
  url x <> w -> url y <> w ->
  where_url w (l1 ++ x :: l2) = where_url w (l1 ++ y :: l2).
Proof.
  intros Hx Hy. rewrite !where_url_app. simpl.
  rewrite !str_eqb_diff by assumption. reflexivity.
Qed.

Lemma update_fixes r' l :
  (forall r, In r l -> id r <> id r') -> update r' l = l.
Proof.
  induction l as [|r l IH]; simpl; intros H; [reflexivity|].
  rewrite IH by (intros x Hx; apply H; right; exact Hx).
  destruct (Z.eqb_spec (id r) (id r')) as [E|E]; [|reflexivity].
  exfalso. apply (H r); [left; reflexivity|exact E].
Qed.

Lemma update_split l1 ex l2 r' :
  (forall r, In r (l1 ++ l2) -> id r <> id ex) -> id r' = id ex ->
  update r' (l1 ++ ex :: l2) = l1 ++ r' :: l2.
Proof.
  intros H E.
  assert (A : update r' (l1 ++ ex :: l2)
              = update r' l1 ++ (if (id ex =? id r')%Z then r' else ex)
                             :: update r' l2)
    by (unfold update; rewrite map_app; reflexivity).
  rewrite A, E, Zeqb_refl.
  rewrite !update_fixes; [reflexivity| |];
    intros r Hr; rewrite E; apply H, in_or_app; auto.
Qed.

Lemma get_in i t r : get i t = Some r -> In r t /\ id r = i.
Proof.
  unfold get. intros H. apply find_some in H. destruct H as [H E].
  apply Z.eqb_eq in E. auto.
Qed.

Lemma get_none i t : get i t = None -> forall r, In r t -> id r <> i.
Proof.
  unfold get. intros H r Hr E.
  pose proof (find_none _ _ H r Hr) as F. simpl in F.
  rewrite E, Zeqb_refl in F. discriminate.
Qed.

Lemma get_app i a b :
  get i (a ++ b) = match get i a with Some r => Some r | None => get i b end.
Proof.
  unfold get. induction a as [|r a IH]; simpl; [reflexivity|].
  destruct (id r =? i)%Z; [reflexivity|exact IH].
Qed.

Lemma get_absent i l : (forall r, In r l -> id r <> i) -> get i l = None.
Proof.
  unfold get. induction l as [|r l IH]; simpl; intros H; [reflexivity|].
  destruct (Z.eqb_spec (id r) i) as [E|E].
  - exfalso. apply (H r); [left; reflexivity|exact E].
  - apply IH. intros x Hx. apply H. right. exact Hx.
Qed.

(** No row carries an id that is not of 64 bits. *)
Lemma get_beyond i t : int64 i = false -> get i t = None.
Proof.
  intros H. apply get_absent. intros r _ E.
  destruct (row_holds r) as [Hi _]. rewrite E in Hi. congruence.
Qed.

(** *** The id of a new row *)

Lemma fold_max_le l : forall i, (i <= fold_left Z.max l i)%Z.
Proof.
  induction l as [|x l IH]; intros i; simpl; [lia|].
  specialize (IH (Z.max i x)). lia.
Qed.

Lemma fold_max_in l : forall i x, In x l -> (x <= fold_left Z.max l i)%Z.
Proof.
  induction l as [|y l IH]; intros i x; simpl; [tauto|].
  intros [->|H]; [|apply IH, H].
  pose proof (fold_max_le l (Z.max i x)). lia.
Qed.

Lemma int64_bounds i :
  int64 i = true <->
  (-9223372036854775808 <= i /\ i <= 9223372036854775807)%Z.
Proof. unfold int64. rewrite andb_true_iff, !Z.leb_le. reflexivity. Qed.

Section NewId.
Variable rowid : table -> option Z.

Lemma next_id_fresh t i :
  next_id rowid t = Some i ->
  int64 i = true /\ forall r, In r t -> id r <> i.
Proof.
  unfold next_id. destruct t as [|r0 t'] eqn:Et.
  - intros [= <-]. split; [reflexivity|intros r []].
  - rewrite <- Et. assert (M : map id t = id r0 :: map id t')
      by (rewrite Et; reflexivity).
    rewrite M. cbv zeta.
    destruct (fold_left Z.max (map id t') (id r0) <? 9223372036854775807)%Z
      eqn:L.
    + intros [= <-]. apply Z.ltb_lt in L. split.
      * destruct (row_holds r0) as [H0 _]. apply int64_bounds in H0.
        pose proof (fold_max_le (map id t') (id r0)).
        apply int64_bounds. lia.
      * intros r Hr. rewrite Et in Hr. destruct Hr as [<-|Hr].
        -- pose proof (fold_max_le (map id t') (id r0)). lia.
        -- pose proof (fold_max_in (map id t') (id r0) _ (in_map id _ _ Hr)).
           lia.
    + destruct (rowid t) as [j|]; [|discriminate].
      destruct ((0 <? j)%Z && int64 j
                && negb (existsb (Z.eqb j) (id r0 :: map id t'))) eqn:G;
        [|discriminate].
      intros [= <-]. apply andb_true_iff in G. destruct G as [G N].
      apply andb_true_iff in G. destruct G as [_ G]. split; [exact G|].
      intros r Hr E. apply negb_true_iff in N.
      rewrite <- M in N.
      assert (X : existsb (Z.eqb j) (map id t) = true).
      { apply existsb_exists. exists (id r). split; [apply in_map, Hr|].
        apply Z.eqb_eq. symmetry. exact E. }
      congruence.
Qed.

End NewId.

(** *** Categories *)

Lemma normalize_category_in_keys ca : In (normalize_category ca) CATEGORY_KEYS.
Proof.
  unfold normalize_category. destruct (in_keys (normalize_spaces ca)) eqn:E.
  - apply in_keys_In, E.
  - vm_compute. tauto.
Qed.

Lemma normalize_category_truthy ca : truthy (normalize_category ca) = true.
Proof.
  assert (F : forallb truthy CATEGORY_KEYS = true) by (vm_compute; reflexivity).
  rewrite forallb_forall in F. apply F, normalize_category_in_keys.
Qed.

Lemma normalize_category_encodable ca :
  encodable (normalize_category ca) = true.
Proof. apply keys_encodable, normalize_category_in_keys. Qed.

End CrudFacts.

Module CrudRows.
Import BinInt Crud CrudFacts.

Section Handlers.
Variable quote : str -> str.
Variable rowid : table -> option Z.

(** *** Commits and redirects *)

Lemma commit_update_done ex ti ca t :
  encodable ti = true -> encodable ca = true ->
  exists r',
    commit_update ex ti ca t = Returns (update r' t) /\
    id r' = id ex /\ url r' = url ex /\ title r' = ti /\ category r' = ca /\
    created_at r' = created_at ex.
Proof.
  intros Ht Hc. unfold commit_update.
  destruct (row_holds ex) as [Hi [Hu _]].
  destruct (@row_made (id ex) (url ex) ti ca (created_at ex)) as [r' [E F]].
  { apply stored_parts. auto. }
  exists r'. rewrite E. split; [reflexivity|exact F].
Qed.

Lemma commit_update_refused ex ti ca t :
  encodable ti = false -> commit_update ex ti ca t = Raises.
Proof.
  intros Ht. unfold commit_update. rewrite row_refused; [reflexivity|].
  unfold storable. rewrite Ht, andb_false_r. reflexivity.
Qed.

Lemma with_form_done msg v ti ca :
  encodable v = true -> encodable ti = true -> encodable ca = true ->
  with_form quote msg v ti ca = Returns (prefilled quote msg v ti ca).
Proof. intros Hv Ht Hc. unfold with_form. rewrite Hv, Ht, Hc. reflexivity. Qed.

Lemma back_done msg current_filter :
  exists resp, back quote msg current_filter = Returns resp.
Proof.
  unfold back. destruct (truthy (or_empty current_filter)).
  - cbv zeta. rewrite normalize_category_encodable. eexists. reflexivity.
  - eexists. reflexivity.
Qed.

(** *** What [add] does to a consistent table *)

Lemma add_cases url0 title0 category0 now t :
  consistent t ->
  let v := normalize_spaces url0 in
  let ti := normalize_spaces title0 in
  let ca := normalize_category category0 in
  (encodable v = true /\ encodable ti = true /\
   (where_url v t <> [] \/ next_id rowid t <> None) /\
   exists resp t',
     add quote rowid url0 title0 category0 now t = Returns (resp, t') /\
     added quote rowid v ti ca now t resp t')
  \/
  ((encodable v && encodable ti = false
    \/ (where_url v t = [] /\ next_id rowid t = None)) /\
   add quote rowid url0 title0 category0 now t = Raises).
Proof.
  intros C. unfold add. cbv zeta.
  pose proof (normalize_category_truthy category0) as Tc.
  pose proof (normalize_category_encodable category0) as Ec.
  set (v := normalize_spaces url0). set (ti := normalize_spaces title0).
  set (ca := normalize_category category0) in *.
  clearbody v ti ca. unfold select_url.
  destruct (encodable v) eqn:Ev.
  2: { right. split; [left; reflexivity|reflexivity]. }
  cbn [Exn.bind].
  destruct (where_url v t) as [|ex rest] eqn:W.
  - (* a new URL *)
    cbn [scalar_one_or_none Exn.bind]. unfold insert. rewrite Ev, Ec.
    destruct (encodable ti) eqn:Et.
    2: { right. split; [left; reflexivity|reflexivity]. }
    cbn [andb negb].
    destruct (next_id rowid t) as [i|] eqn:Ni.
    2: { right. split; [right; split; reflexivity|reflexivity]. }
    rewrite (@where_url_none _ _ W).
    destruct (next_id_fresh _ _ Ni) as [Hi Hf].
    destruct (@row_made i v ti ca now) as [r [E [F1 [F2 [F3 [F4 F5]]]]]].
    { apply stored_parts. auto. }
    rewrite E. left. split; [reflexivity|]. split; [reflexivity|].
    split; [right; discriminate|].
    eexists. eexists. split; [reflexivity|].
    apply added_new; try assumption. rewrite F1. exact Ni.
  - (* a URL the table holds *)
    assert (Hex : In ex t /\ url ex = v)
      by (apply where_url_in; rewrite W; left; reflexivity).
    destruct Hex as [Hin Hv].
    destruct (@split_row t ex C Hin) as [l1 [l2 [Et Hs]]].
    assert (W1 : where_url v t = [ex]).
    { rewrite Et, <- Hv. apply where_url_split.
      intros r Hr. apply Hs, Hr. }
    rewrite W1 in W. injection W as <-.
    cbn [scalar_one_or_none Exn.bind]. rewrite Tc. cbn [andb].
    assert (Hs' : forall x, In x (l1 ++ l2) -> id x <> id ex /\ url x <> v)
      by (rewrite <- Hv; exact Hs).
    destruct (row_holds ex) as [_ [_ [Hxt Hxc]]].
    (* the title and the category the row ends with *)
    set (c1 := truthy ti && negb (str_eqb (title ex) ti)).
    set (c2 := negb (str_eqb (category ex) ca)).
    assert (T1 : (if c1 then ti else title ex)
                 = if truthy ti then ti else title ex).
    { unfold c1. destruct (truthy ti); [|reflexivity]. cbn [andb].
      destruct (str_eqb (title ex) ti) eqn:B; cbn [negb]; [|reflexivity].
      apply str_eqb_eq in B. exact B. }
    assert (T2 : (if c2 then ca else category ex) = ca).
    { unfold c2. destruct (str_eqb (category ex) ca) eqn:B; cbn [negb];
        [|reflexivity].
      apply str_eqb_eq in B. exact B. }
    rewrite T1, T2.
    assert (Te : encodable (if truthy ti then ti else title ex) = encodable ti).
    { destruct ti; [exact Hxt|reflexivity]. }
    destruct (encodable ti) eqn:Eti.
    + (* the form can be stored *)
      left. split; [reflexivity|]. split; [reflexivity|].
      split; [left; discriminate|].
      rewrite !(@with_form_done _ v ti ca Ev Eti Ec).
      destruct (c1 || c2) eqn:Ch.
      * destruct (@commit_update_done ex (if truthy ti then ti else title ex)
                    ca t Te Ec) as [r' [E [F1 [F2 [F3 [F4 F5]]]]]].
        rewrite E. cbn [Exn.bind].
        rewrite Et, update_split by (try exact F1; intros r Hr; apply Hs', Hr).
        eexists. eexists. split; [reflexivity|].
        assert (Ch' : str_eqb (title ex) (title r')
                      && str_eqb (category ex) ca = false).
        { rewrite F3. apply orb_true_iff in Ch. destruct Ch as [Ch|Ch].
          - unfold c1 in Ch. apply andb_true_iff in Ch. destruct Ch as [Tt B].
            rewrite Tt. apply negb_true_iff in B. rewrite B. reflexivity.
          - unfold c2 in Ch. apply negb_true_iff in Ch. rewrite Ch.
            apply andb_false_r. }
        eapply added_old with (ex := ex) (r := r'); try eassumption;
          try reflexivity.
        -- congruence.
        -- intros A1 A2. exfalso. rewrite A1, <- A2, F4 in Ch'.
           rewrite !str_eqb_same in Ch'. discriminate.
        -- rewrite Ch'. reflexivity.
      * cbn [Exn.bind]. eexists. eexists. split; [reflexivity|].
        apply orb_false_iff in Ch. destruct Ch as [Ch1 Ch2].
        unfold c2 in Ch2. apply negb_false_iff, str_eqb_eq in Ch2.
        assert (Tx : title ex = if truthy ti then ti else title ex).
        { rewrite <- T1, Ch1. reflexivity. }
        rewrite Et.
        eapply added_old with (ex := ex) (r := ex); try eassumption;
          try reflexivity.
        -- rewrite <- Ch2, !str_eqb_same. reflexivity.
    + (* the title cannot be stored *)
      right. split; [left; reflexivity|].
      assert (Tt : truthy ti = true) by (destruct ti; [discriminate|reflexivity]).
      assert (B : str_eqb (title ex) ti = false).
      { apply str_eqb_diff. intros E. rewrite E in Hxt. congruence. }
      assert (Ch : c1 || c2 = true) by (unfold c1; rewrite Tt, B; reflexivity).
      rewrite Ch, commit_update_refused; [reflexivity|].
      rewrite Te. reflexivity.
Qed.

Lemma added_consistent v ti ca now t resp t' :
  consistent t -> added quote rowid v ti ca now t resp t' -> consistent t'.
Proof.
  intros C A. destruct A as [r W Ni Fu Ft Fc Fn|l1 ex r l2 resp E Hv Hs Fi Fu Ft Fc Fn Fe Hr].
  - destruct C as [Cu Ci]. unfold consistent. rewrite !map_app. simpl.
    destruct (next_id_fresh _ _ Ni) as [_ Hf].
    split.
    + apply NoDup_snoc; [exact Cu|].
      intros H. apply in_map_iff in H. destruct H as [x [Ex Hx]].
      assert (In x (where_url v t)) by (apply where_url_in; split; congruence).
      rewrite W in H. destruct H.
    + apply NoDup_snoc; [exact Ci|].
      intros H. apply in_map_iff in H. destruct H as [x [Ex Hx]].
      exact (Hf x Hx Ex).
  - subst t. eapply consistent_split; [exact C| |]; congruence.
Qed.

End Handlers.

End CrudRows.

Module CrudAfter.
Import BinInt Crud CrudFacts.

Section Handlers.
Variable quote : str -> str.
Variable rowid : table -> option Z.

(** The row [add] leaves for the URL. *)
Lemma added_row v ti ca now t resp t' :
  added quote rowid v ti ca now t resp t' ->
  exists r, where_url v t' = [r] /\ category r = ca /\
    title r = if truthy ti then ti
              else match where_url v t with ex :: _ => title ex | [] => [] end.
Proof.
  intros A.
  destruct A as [r W Ni Fu Ft Fc Fn|l1 ex r l2 resp E Hv Hs Fi Fu Ft Fc Fn Fe Hr].
  - exists r. rewrite where_url_app, W. simpl. rewrite Fu, str_eqb_same.
    split; [reflexivity|]. split; [exact Fc|]. rewrite Ft.
    destruct ti; reflexivity.
  - exists r. split.
    + rewrite <- Fu. apply where_url_split. intros x Hx. rewrite Fu.
      apply Hs, Hx.
    + split; [exact Fc|]. rewrite Ft. subst t. rewrite <- Hv.
      rewrite where_url_split by (intros x Hx; rewrite Hv; apply Hs, Hx).
      reflexivity.
Qed.

Lemma added_others v ti ca now t resp t' w :
  added quote rowid v ti ca now t resp t' -> w <> v ->
  where_url w t' = where_url w t.
Proof.
  intros A Hw.
  destruct A as [r W Ni Fu Ft Fc Fn|l1 ex r l2 resp E Hv Hs Fi Fu Ft Fc Fn Fe Hr].
  - rewrite where_url_app. simpl. rewrite str_eqb_diff by congruence.
    apply app_nil_r.
  - subst t. apply where_url_other; congruence.
Qed.

Lemma added_length v ti ca now t resp t' :
  added quote rowid v ti ca now t resp t' ->
  length t' = length t + match where_url v t with [] => 1 | _ => 0 end.
Proof.
  intros A.
  destruct A as [r W Ni Fu Ft Fc Fn|l1 ex r l2 resp E Hv Hs Fi Fu Ft Fc Fn Fe Hr].
  - rewrite W, length_app. reflexivity.
  - subst t. rewrite <- Hv.
    rewrite where_url_split by (intros x Hx; rewrite Hv; apply Hs, Hx).
    rewrite !length_app. simpl. lia.
Qed.

Lemma prefilled_not_ok msg v ti ca :
  msg = u "dup" \/ msg = u "upd" ->
  prefilled quote msg v ti ca <> Redirect (u "/?msg=ok") 303.
Proof.
  intros [-> | ->] H; unfold prefilled in H; injection H as H;
    vm_compute in H; discriminate.
Qed.

Lemma added_ok v ti ca now t resp t' :
  added quote rowid v ti ca now t resp t' ->
  (resp = Redirect (u "/?msg=ok") 303 <-> where_url v t = []).
Proof.
  intros A.
  destruct A as [r W Ni Fu Ft Fc Fn|l1 ex r l2 resp E Hv Hs Fi Fu Ft Fc Fn Fe Hr].
  - tauto.
  - subst t. rewrite <- Hv.
    rewrite where_url_split by (intros x Hx; rewrite Hv; apply Hs, Hx).
    split; [|discriminate]. intros H. exfalso. subst resp.
    eapply prefilled_not_ok; [|exact H].
    destruct (_ && _); auto.
Qed.

(** A second [add] of the same form finds nothing to change. *)
Lemma added_again v ti ca now now' t resp t' resp2 t2 :
  added quote rowid v ti ca now t resp t' ->
  added quote rowid v ti ca now' t' resp2 t2 ->
  resp2 = prefilled quote (u "dup") v ti ca /\ t2 = t'.
Proof.
  intros A B. destruct (added_row A) as [r [Wr [Cr Tr]]].
  destruct B as [r2 W Ni Fu Ft Fc Fn|l1 ex r2 l2 resp2 E Hv Hs Fi Fu Ft Fc Fn Fe Hr].
  - rewrite W in Wr. discriminate.
  - assert (Ex : ex = r).
    { rewrite E, <- Hv in Wr.
      rewrite where_url_split in Wr by (intros x Hx; rewrite Hv; apply Hs, Hx).
      congruence. }
    subst ex.
    assert (Ti : title r2 = title r).
    { rewrite Ft. destruct (truthy ti); [symmetry; exact Tr|reflexivity]. }
    assert (Ca : category r2 = category r) by congruence.
    rewrite (Fe Ti Ca) in *. rewrite Cr in Hr. rewrite !str_eqb_same in Hr.
    split; [exact Hr|]. symmetry. exact E.
Qed.

End Handlers.

(** *** Categories of the rows *)

Lemma update_categorized r' t :
  categorized t -> In (category r') CATEGORY_KEYS -> categorized (update r' t).
Proof.
  unfold categorized, update. intros F H. apply Forall_map.
  eapply Forall_impl; [|exact F]. intros r Hr. cbv beta.
  destruct (id r =? id r')%Z; [exact H|exact Hr].
Qed.

Lemma filter_categorized f t : categorized t -> categorized (filter f t).
Proof.
  unfold categorized. rewrite !Forall_forall. intros F r Hr.
  apply filter_In in Hr. apply F, Hr.
Qed.

Lemma commit_update_categorized r ti ca t t' :
  categorized t -> In ca CATEGORY_KEYS ->
  commit_update r ti ca t = Returns t' -> categorized t'.
Proof.
  intros F K. unfold commit_update.
  destruct (row (id r) (url r) ti ca (created_at r)) as [r'|] eqn:E;
    [|discriminate].
  intros [= <-]. apply update_categorized; [exact F|].
  unfold row in E. destruct (bool_dec _ true); [|discriminate].
  injection E as <-. exact K.
Qed.

(** *** [edit_item] and [delete_item] on a consistent table *)

Lemma get_split l1 x l2 :
  (forall r, In r (l1 ++ l2) -> id r <> id x) ->
  forall j, get j (l1 ++ x :: l2)
            = if (id x =? j)%Z then Some x else get j (l1 ++ l2).
Proof.
  intros H j. rewrite !get_app.
  destruct (Z.eqb_spec (id x) j) as [E|E].
  - rewrite get_absent.
    + unfold get. simpl. rewrite E, Zeqb_refl. reflexivity.
    + intros r Hr. rewrite <- E. apply H, in_or_app. auto.
  - destruct (get j l1); [reflexivity|].
    unfold get. simpl. apply Z.eqb_neq in E. rewrite E. reflexivity.
Qed.

Lemma delete_split l1 x l2 :
  (forall r, In r (l1 ++ l2) -> id r <> id x) ->
  delete x (l1 ++ x :: l2) = l1 ++ l2.
Proof.
  intros H. unfold delete. rewrite !filter_app. simpl.
  rewrite Zeqb_refl. simpl.
  assert (K : forall l, (forall r, In r l -> id r <> id x) ->
                        filter (fun r => negb (id r =? id x)%Z) l = l).
  { induction l as [|r l IH]; simpl; intros Hl; [reflexivity|].
    destruct (Z.eqb_spec (id r) (id x)) as [E|E].
    - exfalso. apply (Hl r); [left; reflexivity|exact E].
    - simpl. rewrite IH; [reflexivity|]. intros y Hy. apply Hl. right. exact Hy. }
  rewrite !K; [reflexivity| |]; intros r Hr; apply H, in_or_app; auto.
Qed.

Lemma consistent_remove l1 x l2 : consistent (l1 ++ x :: l2) -> consistent (l1 ++ l2).
Proof.
  unfold consistent. rewrite !map_app. simpl. intros [Hu Hi].
  split; eapply NoDup_remove_1; eassumption.
Qed.

End CrudAfter.

Lemma two_links_consistent : consistent TwoLinks.rows.
Proof.
  split.
  - apply nodupb_NoDup. vm_compute. reflexivity.
  - repeat constructor; simpl; intuition discriminate.
Qed.

Lemma two_links_categorized : categorized TwoLinks.rows.
Proof.
  unfold categorized, TwoLinks.rows.
  apply Forall_cons; [|apply Forall_cons; [|apply Forall_nil]];
    apply in_keys_In; vm_compute; reflexivity.
Qed.

(** X16: on a table that meets the constraints of [models.py], [add]
    raises exactly when the normalized URL or the normalized title cannot
    be encoded as UTF-8, or when the URL is new and the database has no
    row id for it; in every other case it returns, and whenever it
    returns the table it leaves meets the constraints again. *)
Theorem add_keeps_constraints quote rowid url0 title0 category0 now t :
  consistent t ->
  let v := normalize_spaces url0 in
  let ti := normalize_spaces title0 in
  (Crud.add quote rowid url0 title0 category0 now t = Raises <->
   encodable v && encodable ti = false
   \/ (Crud.where_url v t = [] /\ Crud.next_id rowid t = None)) /\
  (encodable v && encodable ti = true ->
   Crud.where_url v t <> [] \/ Crud.next_id rowid t <> None ->
   exists resp t',
     Crud.add quote rowid url0 title0 category0 now t = Returns (resp, t') /\
     consistent t') /\
  (forall resp t',
     Crud.add quote rowid url0 title0 category0 now t = Returns (resp, t') ->
     consistent t').
Proof.
  intros C v ti.
  destruct (@CrudRows.add_cases quote rowid url0 title0 category0 now t C)
    as [[Ev [Et [Hn [resp [t' [E A]]]]]]|[Hr E]];
    fold v in Ev, Hn, A || fold v in Hr; fold ti in Et, A || fold ti in Hr.
  - pose proof (CrudRows.added_consistent C A) as C'.
    split; [|split].
    + rewrite E. split; [discriminate|].
      intros [H|[H1 H2]]; exfalso.
      * rewrite Ev, Et in H. discriminate.
      * destruct Hn as [Hn|Hn]; contradiction.
    + intros _ _. exists resp, t'. split; [exact E|exact C'].
    + intros resp0 t0 H. rewrite E in H. injection H as <- <-. exact C'.
  - split; [|split].
    + split; [intros _; exact Hr|intros _; exact E].
    + intros He Hn. exfalso. destruct Hr as [Hr|[H1 H2]].
      * congruence.
      * destruct Hn as [Hn|Hn]; contradiction.
    + intros resp0 t0 H. rewrite E in H. discriminate.
Qed.

Lemma add_keeps_constraints_witness :
  (let v := normalize_spaces Refiled.url in
   let ti := normalize_spaces Refiled.title in
   (Crud.add TwoLinks.quote TwoLinks.rowid Refiled.url Refiled.title
             Refiled.category 300%N TwoLinks.rows = Raises <->
    encodable v && encodable ti = false
    \/ (Crud.where_url v TwoLinks.rows = []
        /\ Crud.next_id TwoLinks.rowid TwoLinks.rows = None)) /\
   (encodable v && encodable ti = true ->
    Crud.where_url v TwoLinks.rows <> []
    \/ Crud.next_id TwoLinks.rowid TwoLinks.rows <> None ->
    exists resp t',
      Crud.add TwoLinks.quote TwoLinks.rowid Refiled.url Refiled.title
               Refiled.category 300%N TwoLinks.rows = Returns (resp, t') /\
      consistent t') /\
   (forall resp t',
      Crud.add TwoLinks.quote TwoLinks.rowid Refiled.url Refiled.title
               Refiled.category 300%N TwoLinks.rows = Returns (resp, t') ->
      consistent t')) /\
  Crud.add TwoLinks.quote TwoLinks.rowid Refiled.url BrokenTitle.title
           Refiled.category 300%N TwoLinks.rows = Raises.
Proof.
  split.
  - apply add_keeps_constraints. exact two_links_consistent.
  - apply (proj1 (@add_keeps_constraints TwoLinks.quote TwoLinks.rowid
                    Refiled.url BrokenTitle.title Refiled.category 300%N
                    TwoLinks.rows two_links_consistent)).
    left. vm_compute. reflexivity.
Defined.

(** X17: after [add] the table holds exactly one row for the normalized
    URL; its category is the normalized category of the form, and its
    title is the normalized title of the form, or, when that is empty,
    the title the URL had before (the empty title for a new URL). *)
Theorem add_stores_row quote rowid url0 title0 category0 now t resp t' :
  consistent t ->
  Crud.add quote rowid url0 title0 category0 now t = Returns (resp, t') ->
  exists r,
    Crud.where_url (normalize_spaces url0) t' = [r] /\
    Crud.category r = normalize_category category0 /\
    Crud.title r =
      if truthy (normalize_spaces title0) then normalize_spaces title0
      else match Crud.where_url (normalize_spaces url0) t with
           | ex :: _ => Crud.title ex
           | [] => []
           end.
Proof.
  intros C H.
  destruct (@CrudRows.add_cases quote rowid url0 title0 category0 now t C)
    as [[_ [_ [_ [resp0 [t0 [E A]]]]]]|[_ E]];
    rewrite E in H; [|discriminate].
  injection H as <- <-. eapply CrudAfter.added_row, A.
Qed.

Lemma add_stores_row_witness :
  exists r,
    Crud.where_url (normalize_spaces Refiled.url) Refiled.rows = [r] /\
    Crud.category r = normalize_category Refiled.category /\
    Crud.title r =
      if truthy (normalize_spaces Refiled.title)
      then normalize_spaces Refiled.title
      else match Crud.where_url (normalize_spaces Refiled.url) TwoLinks.rows with
           | ex :: _ => Crud.title ex
           | [] => []
           end.
Proof.
  apply (@add_stores_row TwoLinks.quote TwoLinks.rowid Refiled.url
           Refiled.title Refiled.category 300%N TwoLinks.rows Refiled.answer
           Refiled.rows).
  - exact two_links_consistent.
  - vm_compute. reflexivity.
Defined.

(** X18: [add] is idempotent: sending the same form again changes nothing
    and answers with the duplicate notice. *)
Theorem add_twice_is_dup quote rowid url0 title0 category0 now now' t resp t' :
  consistent t ->
  Crud.add quote rowid url0 title0 category0 now t = Returns (resp, t') ->
  Crud.add quote rowid url0 title0 category0 now' t'
  = Returns (Crud.prefilled quote (u "dup") (normalize_spaces url0)
               (normalize_spaces title0) (normalize_category category0),
             t').
Proof.
  intros C H.
  destruct (@CrudRows.add_cases quote rowid url0 title0 category0 now t C)
    as [[_ [_ [_ [resp0 [t0 [E A]]]]]]|[_ E]];
    rewrite E in H; [|discriminate].
  injection H as <- <-.
  pose proof (CrudRows.added_consistent C A) as C'.
  destruct (CrudAfter.added_row A) as [r [Wr _]].
  destruct (@CrudRows.add_cases quote rowid url0 title0 category0 now' t0 C')
    as [[_ [_ [_ [resp2 [t2 [E2 B]]]]]]|[[Hr|[Hr _]] E2]].
  - rewrite E2. destruct (CrudAfter.added_again A B) as [-> ->]. reflexivity.
  - exfalso.
    destruct (@CrudRows.add_cases quote rowid url0 title0 category0 now t C)
      as [[Ev [Et _]]|[_ E']]; [|congruence].
    rewrite Ev, Et in Hr. discriminate.
  - rewrite Hr in Wr. discriminate.
Qed.

Lemma add_twice_is_dup_witness :
  Crud.add TwoLinks.quote TwoLinks.rowid Refiled.url Refiled.title
           Refiled.category 400%N Refiled.rows
  = Returns (Crud.prefilled TwoLinks.quote (u "dup")
               (normalize_spaces Refiled.url) (normalize_spaces Refiled.title)
               (normalize_category Refiled.category),
             Refiled.rows).
Proof.
  apply (@add_twice_is_dup TwoLinks.quote TwoLinks.rowid Refiled.url
           Refiled.title Refiled.category 300%N 400%N TwoLinks.rows
           Refiled.answer).
  - exact two_links_consistent.
  - vm_compute. reflexivity.
Defined.

(** X19: [add] touches the rows of no other URL; it creates a row exactly
    when the table has none for the URL, and that is exactly when it
    answers with [/?msg=ok]. *)
Theorem add_touches_one_url quote rowid url0 title0 category0 now t resp t' :
  consistent t ->
  Crud.add quote rowid url0 title0 category0 now t = Returns (resp, t') ->
  (forall w, w <> normalize_spaces url0 ->
             Crud.where_url w t' = Crud.where_url w t) /\
  length t' = length t + match Crud.where_url (normalize_spaces url0) t with
                         | [] => 1
                         | _ => 0
                         end /\
  (resp = Crud.Redirect (u "/?msg=ok") 303
   <-> Crud.where_url (normalize_spaces url0) t = []).
Proof.
  intros C H.
  destruct (@CrudRows.add_cases quote rowid url0 title0 category0 now t C)
    as [[_ [_ [_ [resp0 [t0 [E A]]]]]]|[_ E]];
    rewrite E in H; [|discriminate].
  injection H as <- <-.
  split; [|split].
  - intros w Hw. eapply CrudAfter.added_others; eassumption.
  - eapply CrudAfter.added_length, A.
  - eapply CrudAfter.added_ok, A.
Qed.

Lemma add_touches_one_url_witness :
  (forall w, w <> normalize_spaces Refiled.url ->
             Crud.where_url w Refiled.rows = Crud.where_url w TwoLinks.rows) /\
  length Refiled.rows
  = length TwoLinks.rows
    + match Crud.where_url (normalize_spaces Refiled.url) TwoLinks.rows with
      | [] => 1
      | _ => 0
      end /\
  (Refiled.answer = Crud.Redirect (u "/?msg=ok") 303
   <-> Crud.where_url (normalize_spaces Refiled.url) TwoLinks.rows = []).
Proof.
  apply (@add_touches_one_url TwoLinks.quote TwoLinks.rowid Refiled.url
           Refiled.title Refiled.category 300%N TwoLinks.rows Refiled.answer
           Refiled.rows).
  - exact two_links_consistent.
  - vm_compute. reflexivity.
Defined.

(** X20: the three handlers keep every stored category inside the fixed
    set of category keys. *)
Theorem handlers_keep_categories quote rowid t :
  categorized t ->
  (forall url0 title0 category0 now resp t',
     Crud.add quote rowid url0 title0 category0 now t = Returns (resp, t') ->
     categorized t') /\
  (forall item_id title0 category0 current_filter,
     categorized
       (snd (Crud.edit_item quote item_id title0 category0 current_filter t))) /\
  (forall item_id current_filter,
     categorized (snd (Crud.delete_item quote item_id current_filter t))).
Proof.
  intros F. split; [|split].
  - intros url0 title0 category0 now resp t'. unfold Crud.add. cbv zeta.
    pose proof (CrudFacts.normalize_category_in_keys category0) as K.
    set (v := normalize_spaces url0). set (ti := normalize_spaces title0).
    set (ca := normalize_category category0) in *. clearbody v ti ca.
    unfold Crud.select_url. destruct (encodable v); [|discriminate].
    cbn [Exn.bind].
    destruct (Crud.where_url v t) as [|ex [|ex' rest]] eqn:W;
      cbn [Crud.scalar_one_or_none Exn.bind]; [| |discriminate].
    + unfold Crud.insert. destruct (negb _); [discriminate|].
      destruct (Crud.next_id rowid t) as [i|]; [|discriminate].
      destruct (existsb _ t).
      * destruct (Crud.with_form _ _ _ _ _); [|discriminate].
        cbn [Exn.bind]. intros [= <- <-]. exact F.
      * destruct (Crud.row i v ti ca now) as [r|] eqn:E; [|discriminate].
        intros [= <- <-]. apply Forall_app. split; [exact F|].
        constructor; [|constructor].
        unfold Crud.row in E. destruct (bool_dec _ true); [|discriminate].
        injection E as <-. exact K.
    + assert (Hex : In (Crud.category ex) CATEGORY_KEYS).
      { assert (I : In ex t).
        { apply (CrudFacts.where_url_in v t ex). rewrite W. left. reflexivity. }
        unfold categorized in F. rewrite Forall_forall in F. exact (F ex I). }
      destruct (_ || _).
      * destruct (Crud.commit_update _ _ _ t) as [t1|] eqn:E; [|discriminate].
        cbn [Exn.bind].
        destruct (Crud.with_form _ _ _ _ _); [|discriminate].
        cbn [Exn.bind]. intros [= <- <-].
        eapply CrudAfter.commit_update_categorized; [exact F| |exact E].
        destruct (truthy ca && _); [exact K|exact Hex].
      * destruct (Crud.with_form _ _ _ _ _); [|discriminate].
        cbn [Exn.bind]. intros [= <- <-]. exact F.
  - intros item_id title0 category0 current_filter.
    unfold Crud.edit_item. cbv zeta.
    destruct (Crud.db_get item_id t) as [[item|]|]; try exact F.
    destruct (Crud.commit_update _ _ _ t) as [t1|] eqn:E; [|exact F].
    cbn [snd].
    eapply CrudAfter.commit_update_categorized; [exact F| |exact E].
    apply CrudFacts.normalize_category_in_keys.
  - intros item_id current_filter. unfold Crud.delete_item.
    destruct (Crud.db_get item_id t) as [[item|]|]; try exact F.
    cbn [snd]. apply CrudAfter.filter_categorized, F.
Qed.

Lemma handlers_keep_categories_witness :
  (forall url0 title0 category0 now resp t',
     Crud.add TwoLinks.quote TwoLinks.rowid url0 title0 category0 now
              TwoLinks.rows
     = Returns (resp, t') ->
     categorized t') /\
  (forall item_id title0 category0 current_filter,
     categorized
       (snd (Crud.edit_item TwoLinks.quote item_id title0 category0
               current_filter TwoLinks.rows))) /\
  (forall item_id current_filter,
     categorized
       (snd (Crud.delete_item TwoLinks.quote item_id current_filter
               TwoLinks.rows))).
Proof.
  apply handlers_keep_categories. exact two_links_categorized.
Defined.

(** X21: on a consistent table [edit_item] raises exactly when the id is
    not an integer of 64 bits, or when the table holds the id and the
    normalized title cannot be encoded as UTF-8; then the table is as it
    was.  Otherwise it gives the row with the id the normalized title and
    category of the form and changes nothing else: ids, URLs and creation
    times stay where they are, every other id keeps its row, an id the
    table does not hold changes nothing, and the table stays
    consistent. *)
Theorem edit_item_changes_one_row quote item_id title0 category0 current_filter t :
  consistent t ->
  let ti := normalize_spaces title0 in
  let ca := normalize_category category0 in
  let r := Crud.edit_item quote item_id title0 category0 current_filter t in
  let t' := snd r in
  consistent t' /\
  map Crud.id t' = map Crud.id t /\
  map Crud.url t' = map Crud.url t /\
  map Crud.created_at t' = map Crud.created_at t /\
  (fst r = Raises <->
   Crud.int64 item_id = false
   \/ (Crud.get item_id t <> None /\ encodable ti = false)) /\
  (fst r = Raises -> t' = t) /\
  (fst r <> Raises ->
   forall row, Crud.get item_id t = Some row ->
   exists row',
     Crud.get item_id t' = Some row' /\
     Crud.title row' = ti /\ Crud.category row' = ca /\
     Crud.url row' = Crud.url row /\
     Crud.created_at row' = Crud.created_at row) /\
  (forall j, j <> item_id -> Crud.get j t' = Crud.get j t) /\
  (Crud.get item_id t = None -> t' = t).
Proof.
  intros C ti ca. unfold Crud.edit_item. cbv zeta. fold ti. fold ca.
  pose proof (CrudFacts.normalize_category_encodable category0) as Ec.
  fold ca in Ec. clearbody ti ca.
  destruct (CrudRows.back_done quote (u "editok") current_filter)
    as [resp Hb].
  unfold Crud.db_get. destruct (Crud.int64 item_id) eqn:Hi.
  2: { cbn [fst snd]. split; [exact C|]. do 3 (split; [reflexivity|]).
       split; [split; [intros _; left; reflexivity|reflexivity]|].
       split; [reflexivity|]. split; [intros H; contradiction|].
       split; intros; reflexivity. }
  destruct (Crud.get item_id t) as [item|] eqn:G.
  2: { rewrite Hb. cbn [fst snd]. split; [exact C|].
       do 3 (split; [reflexivity|]).
       split; [split; [discriminate|intros [H|[H _]]; congruence]|].
       split; [reflexivity|]. split; [intros _ row H; discriminate|].
       split; intros; reflexivity. }
  destruct (@CrudFacts.get_in _ _ _ G) as [Hin Hid].
  destruct (@CrudFacts.split_row t item C Hin) as [l1 [l2 [Et Hs]]].
  assert (Hn : forall x, In x (l1 ++ l2) -> Crud.id x <> Crud.id item)
    by (intros x Hx; apply Hs, Hx).
  destruct (encodable ti) eqn:Eti.
  - destruct (@CrudRows.commit_update_done item ti ca t Eti Ec)
      as [r' [E [F1 [F2 [F3 [F4 F5]]]]]].
    rewrite E, Hb. cbn [fst snd].
    rewrite Et, (@CrudFacts.update_split l1 item l2 r' Hn F1).
    rewrite Et in C.
    split; [apply (@CrudFacts.consistent_split l1 item l2 C); assumption|].
    split; [rewrite !map_app; simpl; rewrite F1; reflexivity|].
    split; [rewrite !map_app; simpl; rewrite F2; reflexivity|].
    split; [rewrite !map_app; simpl; rewrite F5; reflexivity|].
    split; [split; [discriminate|intros [H|[_ H]]; discriminate]|].
    split; [discriminate|].
    assert (Hn' : forall x, In x (l1 ++ l2) -> Crud.id x <> Crud.id r')
      by (rewrite F1; exact Hn).
    split; [|split].
    + intros _ row Hrow. exists r'. injection Hrow as <-.
      rewrite (@CrudAfter.get_split l1 r' l2 Hn'), F1, Hid.
      rewrite CrudFacts.Zeqb_refl. auto.
    + intros j Hj.
      rewrite (@CrudAfter.get_split l1 r' l2 Hn'),
              (@CrudAfter.get_split l1 item l2 Hn), F1, Hid.
      assert (X : BinInt.Z.eqb item_id j = false)
        by (apply BinInt.Z.eqb_neq; congruence).
      rewrite X. reflexivity.
    + discriminate.
  - rewrite CrudRows.commit_update_refused by exact Eti. cbn [fst snd].
    split; [exact C|]. do 3 (split; [reflexivity|]).
    split; [split; [intros _; right; split; [discriminate|reflexivity]
                   |reflexivity]|].
    split; [reflexivity|]. split; [intros H; contradiction|].
    split; intros; reflexivity.
Qed.

Lemma edit_item_changes_one_row_witness :
  (let ti := normalize_spaces (u " ナポリタン ") in
   let ca := normalize_category (u "麺") in
   let r := Crud.edit_item TwoLinks.quote (Crud.id TwoLinks.napolitan)
              (u " ナポリタン ") (u "麺") None TwoLinks.rows in
   let t' := snd r in
   consistent t' /\
   map Crud.id t' = map Crud.id TwoLinks.rows /\
   map Crud.url t' = map Crud.url TwoLinks.rows /\
   map Crud.created_at t' = map Crud.created_at TwoLinks.rows /\
   (fst r = Raises <->
    Crud.int64 (Crud.id TwoLinks.napolitan) = false
    \/ (Crud.get (Crud.id TwoLinks.napolitan) TwoLinks.rows <> None
        /\ encodable ti = false)) /\
   (fst r = Raises -> t' = TwoLinks.rows) /\
   (fst r <> Raises ->
    forall row, Crud.get (Crud.id TwoLinks.napolitan) TwoLinks.rows = Some row ->
    exists row',
      Crud.get (Crud.id TwoLinks.napolitan) t' = Some row' /\
      Crud.title row' = ti /\ Crud.category row' = ca /\
      Crud.url row' = Crud.url row /\
      Crud.created_at row' = Crud.created_at row) /\
   (forall j, j <> Crud.id TwoLinks.napolitan ->
              Crud.get j t' = Crud.get j TwoLinks.rows) /\
   (Crud.get (Crud.id TwoLinks.napolitan) TwoLinks.rows = None ->
    t' = TwoLinks.rows)) /\
  Crud.edit_item TwoLinks.quote (Crud.id TwoLinks.napolitan)
    BrokenTitle.title (u "麺") None TwoLinks.rows
  = (Raises, TwoLinks.rows).
Proof.
  split.
  - apply edit_item_changes_one_row. exact two_links_consistent.
  - pose proof (@edit_item_changes_one_row TwoLinks.quote
                  (Crud.id TwoLinks.napolitan) BrokenTitle.title (u "麺") None
                  TwoLinks.rows two_links_consistent) as H.
    cbv zeta in H. destruct H as (_ & _ & _ & _ & Hr & Hu & _).
    assert (R : fst (Crud.edit_item TwoLinks.quote (Crud.id TwoLinks.napolitan)
                       BrokenTitle.title (u "麺") None TwoLinks.rows) = Raises).
    { apply Hr. right. split; vm_compute; [discriminate|reflexivity]. }
    specialize (Hu R).
    destruct (Crud.edit_item TwoLinks.quote (Crud.id TwoLinks.napolitan)
                BrokenTitle.title (u "麺") None TwoLinks.rows) as [a b].
    cbn [fst snd] in R, Hu. rewrite R, Hu. reflexivity.
Defined.

(** X22: on a consistent table [delete_item] removes the row with the id
    and no other row; deleting an id the table does not hold, and so
    deleting twice, changes nothing, and the table stays consistent.  It
    raises exactly when the id is not an integer of 64 bits, which no row
    carries. *)
Theorem delete_item_removes_one_row quote item_id current_filter t :
  consistent t ->
  let t' := snd (Crud.delete_item quote item_id current_filter t) in
  consistent t' /\
  Crud.get item_id t' = None /\
  (forall j, j <> item_id -> Crud.get j t' = Crud.get j t) /\
  (forall r, In r t' <-> In r t /\ Crud.id r <> item_id) /\
  (Crud.get item_id t = None -> t' = t) /\
  (forall f, snd (Crud.delete_item quote item_id f t') = t') /\
  (fst (Crud.delete_item quote item_id current_filter t) = Raises
   <-> Crud.int64 item_id = false).
Proof.
  intros C. unfold Crud.delete_item, Crud.db_get. cbv zeta.
  destruct (CrudRows.back_done quote (u "del") current_filter) as [resp Hb].
  destruct (Crud.int64 item_id) eqn:Hi.
  2: { cbn [fst snd]. pose proof (@CrudFacts.get_beyond item_id t Hi) as G.
       split; [exact C|]. split; [exact G|]. split; [reflexivity|].
       split; [|split; [reflexivity|split; [reflexivity|tauto]]].
       intros r. split; [|tauto]. intros Hr. split; [exact Hr|].
       eapply CrudFacts.get_none; eassumption. }
  rewrite Hb. cbn [fst snd].
  destruct (Crud.get item_id t) as [item|] eqn:G.
  - destruct (@CrudFacts.get_in _ _ _ G) as [Hin Hid].
    destruct (@CrudFacts.split_row t item C Hin) as [l1 [l2 [-> Hs]]].
    assert (Hn : forall r, In r (l1 ++ l2) -> Crud.id r <> Crud.id item)
      by (intros r Hr; apply Hs, Hr).
    rewrite (@CrudAfter.delete_split l1 item l2 Hn).
    assert (N : Crud.get item_id (l1 ++ l2) = None)
      by (apply CrudFacts.get_absent; rewrite <- Hid; exact Hn).
    split; [apply (@CrudAfter.consistent_remove l1 item l2 C)|].
    split; [exact N|].
    split; [|split; [|split; [discriminate|split]]].
    + intros j Hj. rewrite (@CrudAfter.get_split l1 item l2 Hn), Hid.
      assert (E : BinInt.Z.eqb item_id j = false)
        by (apply BinInt.Z.eqb_neq; congruence).
      rewrite E. reflexivity.
    + intros r. rewrite <- Hid. split.
      * intros Hr. split; [|apply Hn, Hr].
        apply in_app_or in Hr. apply in_or_app. simpl. tauto.
      * intros [Hr Hne]. apply in_app_or in Hr. apply in_or_app.
        destruct Hr as [Hr|[Hr|Hr]]; [tauto| |tauto].
        subst r. contradiction.
    + intros f. rewrite N. reflexivity.
    + split; discriminate.
  - split; [exact C|]. split; [exact G|]. split; [reflexivity|].
    split; [|split; [reflexivity|split]].
    + intros r. split; [|tauto]. intros Hr. split; [exact Hr|].
      eapply CrudFacts.get_none; eassumption.
    + intros f. rewrite G. reflexivity.
    + split; discriminate.
Qed.

Lemma delete_item_removes_one_row_witness :
  let t' := snd (Crud.delete_item TwoLinks.quote (Crud.id TwoLinks.oyako) None
                   TwoLinks.rows) in
  consistent t' /\
  Crud.get (Crud.id TwoLinks.oyako) t' = None /\
  (forall j, j <> Crud.id TwoLinks.oyako ->
             Crud.get j t' = Crud.get j TwoLinks.rows) /\
  (forall r, In r t' <-> In r TwoLinks.rows /\ Crud.id r <> Crud.id TwoLinks.oyako) /\
  (Crud.get (Crud.id TwoLinks.oyako) TwoLinks.rows = None -> t' = TwoLinks.rows) /\
  (forall f, snd (Crud.delete_item TwoLinks.quote (Crud.id TwoLinks.oyako) f t')
             = t') /\
  (fst (Crud.delete_item TwoLinks.quote (Crud.id TwoLinks.oyako) None
          TwoLinks.rows) = Raises
   <-> Crud.int64 (Crud.id TwoLinks.oyako) = false).
Proof.
  apply delete_item_removes_one_row. exact two_links_consistent.
Defined.
